(** * GameZS: the sliding-token board and its three searches (ucs.py)

    A shallow embedding of [GameState] and [Game] of ucs.py: the validity
    query, the slide-until-stop move simulator and the depth-first,
    breadth-first and uniform-cost searches, with the properties of the
    design document stated and settled against them.

    The code is embedded twice. At the value level a GameState is a value
    and deepcopy is the identity; this is the level at which the moves and
    the searches are reasoned about. At the object level GameState objects
    live in a store, deepcopy allocates and subscript assignments write in
    place; this is the level at which it matters who may write where. The
    lemmas [simulate_move_obj_eq], [dfs_obj_refines], [bfs_obj_refines] and
    [ucs_obj_refines] show that the object-level code does what the
    value-level code says.

    A player and a goal are dicts, and the slots of the lists of a state hold
    references to them. Both levels above give every slot a dict of its own.
    The move simulator is embedded a third time with the dicts as objects
    ([shared_simulate_move]), so that one dict may sit in several slots;
    [shared_simulate_move_shown] shows that it does what the value-level
    code says on every state in which no player's dict sits in a second
    slot, which [shared_Game_init_separate] shows of every game made from a
    board whose players stand on different cells.

    The console program of the file, [GameUI] with its menu, manual play and
    reports, is embedded over a console that holds the lines still to be read
    and what has been written. *)

From Stdlib Require Import ZifyNat.
From stdpp Require Import base numbers list relations functions gmap sets strings pretty.

(** ** Data model *)

(** A cell is a Python tuple [(row, col)] of unbounded ints. *)
Definition cell : Type := (Z * Z)%type.

(** A player or a goal is a dict with the one key ["position"]. *)
Record Piece : Type := mkPiece { position : cell }.

Global Instance Piece_eq_dec : EqDecision Piece.
Proof. solve_decision. Defined.

(** class GameState *)
Record GameState : Type := mkGameState {
  walls : list cell;
  goals : list Piece;
  players : list Piece;
  reached_goal : list bool
}.

Global Instance GameState_eq_dec : EqDecision GameState.
Proof. solve_decision. Defined.

(** The [board_details] dict handed to [Game.__init__]. *)
Record BoardDetails : Type := mkBoardDetails {
  bd_walls : list cell;
  bd_players : list Piece;
  bd_goals : list Piece
}.

(** class Game: [rows], [cols] and the stored [state]. *)
Record Game : Type := mkGame {
  rows : Z;
  cols : Z;
  state : GameState
}.

(** Game.__init__ : every reached flag starts out False. *)
Definition Game_init (rows cols : Z) (board_details : BoardDetails) : Game :=
  {| rows := rows;
     cols := cols;
     state := {| walls := bd_walls board_details;
                 goals := bd_goals board_details;
                 players := bd_players board_details;
                 reached_goal := replicate (length (bd_players board_details)) false |} |}.

(** ** Outcomes of a call

    A call returns, raises (the only exception the core can raise is the
    IndexError of a list subscript) or does not come back: [Timeout] is
    produced where an iteration budget is used up. *)
Inductive exn : Type := IndexError.

Inductive outcome (A : Type) : Type :=
| Ret (a : A)
| Raise (e : exn)
| Timeout.
Arguments Ret {A} a.
Arguments Raise {A} e.
Arguments Timeout {A}.

Global Instance outcome_ret : MRet outcome := fun A a => Ret a.
Global Instance outcome_bind : MBind outcome := fun A B f m =>
  match m with
  | Ret a => f a
  | Raise e => Raise e
  | Timeout => Timeout
  end.

(** [l[i]] of a Python list, for an index that is not negative. *)
Definition subscript {A : Type} (l : list A) (i : nat) : outcome A :=
  match l !! i with
  | Some a => Ret a
  | None => Raise IndexError
  end.

(** A [for] loop whose body may raise. *)
Fixpoint for_each {A S : Type} (body : A → S → outcome S) (l : list A) (s : S)
  : outcome S :=
  match l with
  | [] => Ret s
  | a :: l' => s' ← body a s; for_each body l' s'
  end.

(** A [while] loop: the body either goes round again or returns. *)
Inductive step (L R : Type) : Type :=
| Continue (l : L)
| Return (r : R).
Arguments Continue {L R} l.
Arguments Return {L R} r.

Fixpoint while_loop {L R : Type} (fuel : nat) (body : L → outcome (step L R)) (l : L)
  : outcome R :=
  match fuel with
  | O => Timeout
  | S fuel' =>
      s ← body l;
      match s with
      | Continue l' => while_loop fuel' body l'
      | Return r => Ret r
      end
  end.

(** ** Game.is_won and GameState.__lt__ *)

Definition all (l : list bool) : bool := forallb id l.

Definition is_won (g : Game) : bool := all (reached_goal (state g)).

(** [reached_goal.count(True)] *)
Definition count_True (l : list bool) : nat := length (filter (λ b, b = true) l).

Definition GameState_lt (self other : GameState) : bool :=
  bool_decide (count_True (reached_goal self) < count_True (reached_goal other)).

(** ** Game.is_valid_move

    The query reads the game's stored state [self.state], whatever state the
    caller is working on. [player_i] is an index that [enumerate] hands out,
    so it is never negative. *)

(** The [for j, other_player in enumerate(...)] scan, from index [j]. *)
Fixpoint occupied_by_other (j : nat) (others : list Piece) (player_i : nat) (c : cell)
  : bool :=
  match others with
  | [] => false
  | other_player :: rest =>
      if bool_decide (j ≠ player_i) && bool_decide (position other_player = c)
      then true
      else occupied_by_other (S j) rest player_i c
  end.

Definition is_valid_move (self : Game) (row col : Z) (player_i : nat) : outcome bool :=
  if bool_decide (row < 0)%Z || bool_decide (row >= rows self)%Z
     || bool_decide (col < 0)%Z || bool_decide (col >= cols self)%Z
  then Ret false
  else if bool_decide ((row, col) ∈ walls (state self)) then Ret false
  else if occupied_by_other 0 (players (state self)) player_i (row, col) then Ret false
  else
    reached ← subscript (reached_goal (state self)) player_i;
    if reached : bool then
      goal ← subscript (goals (state self)) player_i;
      if bool_decide ((row, col) ≠ position goal) then Ret false else Ret true
    else Ret true.

(** ** Game.simulate_move *)

(** The [while True] loop of one player: the loop state is the working copy
    and the current cell. *)
Fixpoint slide_loop (fuel : nat) (self : Game) (r_row c_col : Z) (i : nat)
    (cloned_state : GameState) (current : cell) : outcome (GameState * cell) :=
  match fuel with
  | O => Timeout
  | S fuel' =>
      let next := (current.1 + r_row, current.2 + c_col)%Z in
      valid ← is_valid_move self next.1 next.2 i;
      if negb valid then Ret (cloned_state, current)
      else
        let current := next in
        goal ← subscript (goals cloned_state) i;
        if bool_decide (current = position goal) then
          Ret (mkGameState (walls cloned_state) (goals cloned_state)
                 (players cloned_state) (<[i := true]> (reached_goal cloned_state)),
               current)
        else slide_loop fuel' self r_row c_col i cloned_state current
  end.

(** Every step that the loop takes lands inside the grid, so a slide along a
    direction that is not (0, 0) makes at most [max rows cols] steps and one
    failed check; along (0, 0) the Python loop stops at once or never. *)
Definition slide_fuel (self : Game) : nat :=
  S (Z.to_nat (Z.max (rows self) (cols self))).

Definition slide (self : Game) (r_row c_col : Z) (i : nat)
    (cloned_state : GameState) (current : cell) : outcome (GameState * cell) :=
  slide_loop (slide_fuel self) self r_row c_col i cloned_state current.

(** The body of [for i, player in enumerate(cloned_state.players)]. *)
Definition move_player (self : Game) (r_row c_col : Z) (i : nat)
    (acc : GameState * list GameState) : outcome (GameState * list GameState) :=
  let '(cloned_state, new_states) := acc in
  reached ← subscript (reached_goal cloned_state) i;
  if reached : bool then Ret (cloned_state, new_states)
  else
    player ← subscript (players cloned_state) i;
    '(cloned_state, current) ← slide self r_row c_col i cloned_state (position player);
    if bool_decide (current ≠ position player) then
      let cloned_state :=
        mkGameState (walls cloned_state) (goals cloned_state)
          (<[i := mkPiece current]> (players cloned_state)) (reached_goal cloned_state) in
      Ret (cloned_state, new_states ++ [cloned_state])
    else Ret (cloned_state, new_states).

(** The working copy after the loop, with the successors. *)
Definition simulate_players (self : Game) (current_state : GameState) (r_row c_col : Z)
  : outcome (GameState * list GameState) :=
  for_each (move_player self r_row c_col)
    (seq 0 (length (players current_state))) (current_state, []).

Definition simulate_move (self : Game) (current_state : GameState) (r_row c_col : Z)
  : outcome (list GameState) :=
  '(_, new_states) ← simulate_players self current_state r_row c_col;
  Ret new_states.

(** *** The move simulator as the design document words it

    Rule 5 of the design document has the validity checks of a call made
    against the working copy, so that a player sees the moves applied before
    its own. The three definitions below follow those words (they are
    [slide_loop], [move_player] and [simulate_move] with the working copy in
    the place of the stored state) and serve for comparison with the code
    only. *)
Fixpoint slide_loop_on_copy (fuel : nat) (self : Game) (r_row c_col : Z) (i : nat)
    (cloned_state : GameState) (current : cell) : outcome (GameState * cell) :=
  match fuel with
  | O => Timeout
  | S fuel' =>
      let next := (current.1 + r_row, current.2 + c_col)%Z in
      valid ← is_valid_move (mkGame (rows self) (cols self) cloned_state)
                 next.1 next.2 i;
      if negb valid then Ret (cloned_state, current)
      else
        let current := next in
        goal ← subscript (goals cloned_state) i;
        if bool_decide (current = position goal) then
          Ret (mkGameState (walls cloned_state) (goals cloned_state)
                 (players cloned_state) (<[i := true]> (reached_goal cloned_state)),
               current)
        else slide_loop_on_copy fuel' self r_row c_col i cloned_state current
  end.

Definition move_player_on_copy (self : Game) (r_row c_col : Z) (i : nat)
    (acc : GameState * list GameState) : outcome (GameState * list GameState) :=
  let '(cloned_state, new_states) := acc in
  reached ← subscript (reached_goal cloned_state) i;
  if reached : bool then Ret (cloned_state, new_states)
  else
    player ← subscript (players cloned_state) i;
    '(cloned_state, current) ←
      slide_loop_on_copy (slide_fuel self) self r_row c_col i cloned_state
        (position player);
    if bool_decide (current ≠ position player) then
      let cloned_state :=
        mkGameState (walls cloned_state) (goals cloned_state)
          (<[i := mkPiece current]> (players cloned_state)) (reached_goal cloned_state) in
      Ret (cloned_state, new_states ++ [cloned_state])
    else Ret (cloned_state, new_states).

Definition simulate_move_on_copy (self : Game) (current_state : GameState)
    (r_row c_col : Z) : outcome (list GameState) :=
  '(_, new_states) ←
    for_each (move_player_on_copy self r_row c_col)
      (seq 0 (length (players current_state))) (current_state, []);
  Ret new_states.

(** ** Game.get_state: the canonical key *)

Definition key : Type := (list cell * list bool)%type.

Definition get_state (st : GameState) : key :=
  (position <$> players st, reached_goal st).

(** ** The searches *)

Definition moves : list (Z * Z) := [(-1, 0); (1, 0); (0, -1); (0, 1)]%Z.

(** What a search hands back: the path or None, the pop counter, the trace. *)
Definition answer : Type := (option (list GameState) * nat * list GameState)%type.

(** [stack.pop()] takes the last element of a list. *)
Definition list_pop {A : Type} (l : list A) : option (A * list A) :=
  match reverse l with
  | [] => None
  | a :: r => Some (a, reverse r)
  end.

(** [queue.popleft()] takes the first. *)
Definition popleft {A : Type} (l : list A) : option (A * list A) :=
  match l with
  | [] => None
  | a :: r => Some (a, r)
  end.

(** The loop state of dfs and bfs: frontier, visited, visited_states,
    nodes_visited. *)
Definition frontier : Type := list (GameState * list GameState).
Definition loop_state : Type := (frontier * gset key * list GameState * nat)%type.

(** The two nested [for] loops that push every successor. *)
Definition push_successors (self : Game) (current_state : GameState)
    (path : list GameState) (fr : frontier) : outcome frontier :=
  for_each (λ '(move_row, move_col) fr,
      new_states ← simulate_move self current_state move_row move_col;
      Ret (foldl (λ fr new_state, fr ++ [(new_state, path ++ [current_state])])
             fr new_states))
    moves fr.

Definition search_body (pop : frontier → option ((GameState * list GameState) * frontier))
    (self : Game) (ls : loop_state) : outcome (step loop_state answer) :=
  let '(fr, visited, visited_states, nodes_visited) := ls in
  match pop fr with
  | None => Ret (Return (None, nodes_visited, visited_states))
  | Some ((current_state, path), fr) =>
      let nodes_visited := S nodes_visited in
      let visited_states := visited_states ++ [current_state] in
      if all (reached_goal current_state) then
        Ret (Return (Some (path ++ [current_state]), nodes_visited, visited_states))
      else
        let state_hash := get_state current_state in
        if bool_decide (state_hash ∈ visited) then
          Ret (Continue (fr, visited, visited_states, nodes_visited))
        else
          let visited := visited ∪ {[state_hash]} in
          fr ← push_successors self current_state path fr;
          Ret (Continue (fr, visited, visited_states, nodes_visited))
  end.

Definition dfs_body : Game → loop_state → outcome (step loop_state answer) :=
  search_body list_pop.
Definition bfs_body : Game → loop_state → outcome (step loop_state answer) :=
  search_body popleft.

Definition dfs (fuel : nat) (self : Game) : outcome answer :=
  let initial_state := state self in
  while_loop fuel (dfs_body self) ([(initial_state, [])], ∅, [], 0).

Definition bfs (fuel : nat) (self : Game) : outcome answer :=
  let initial_state := state self in
  while_loop fuel (bfs_body self) ([(initial_state, [])], ∅, [], 0).

(** ** heapq, as far as ucs uses it

    [heappush] and [heappop] of the Python standard library, on a list, over
    any item type with its [<]. *)
Section heapq.
Context {A : Type} (lt : A → A → bool).

(** The [while pos > startpos] loop of [_siftdown]; [pos] strictly
    decreases, so [pos] rounds are enough. *)
Fixpoint siftdown_loop (fuel : nat) (heap : list A) (newitem : A)
    (startpos pos : nat) : list A :=
  match fuel with
  | O => <[pos := newitem]> heap
  | S fuel' =>
      if bool_decide (startpos < pos) then
        let parentpos := (pos - 1) / 2 in
        match heap !! parentpos with
        | Some parent =>
            if lt newitem parent
            then siftdown_loop fuel' (<[pos := parent]> heap) newitem startpos parentpos
            else <[pos := newitem]> heap
        | None => <[pos := newitem]> heap
        end
      else <[pos := newitem]> heap
  end.

Definition siftdown (heap : list A) (startpos pos : nat) : list A :=
  match heap !! pos with
  | Some newitem => siftdown_loop pos heap newitem startpos pos
  | None => heap
  end.

Definition heappush (heap : list A) (item : A) : list A :=
  let heap := heap ++ [item] in
  siftdown heap 0 (length heap - 1).

(** The [while childpos < endpos] loop of [_siftup]: the smaller child is
    moved up until a leaf is hit; [pos] strictly increases below [endpos]. *)
Fixpoint siftup_loop (fuel : nat) (heap : list A) (endpos pos : nat)
  : list A * nat :=
  match fuel with
  | O => (heap, pos)
  | S fuel' =>
      let childpos := 2 * pos + 1 in
      if bool_decide (childpos < endpos) then
        let rightpos := childpos + 1 in
        let childpos :=
          if bool_decide (rightpos < endpos) then
            match heap !! childpos, heap !! rightpos with
            | Some lchild, Some rchild =>
                if negb (lt lchild rchild) then rightpos else childpos
            | _, _ => childpos
            end
          else childpos in
        match heap !! childpos with
        | Some child => siftup_loop fuel' (<[pos := child]> heap) endpos childpos
        | None => (heap, pos)
        end
      else (heap, pos)
  end.

Definition siftup (heap : list A) (pos : nat) : list A :=
  let endpos := length heap in
  let startpos := pos in
  match heap !! pos with
  | Some newitem =>
      let '(heap, pos) := siftup_loop (endpos - pos) heap endpos pos in
      let heap := <[pos := newitem]> heap in
      siftdown heap startpos pos
  | None => heap
  end.

(** [heappop]; [None] stands for the IndexError on an empty heap. *)
Definition heappop (heap : list A) : option (A * list A) :=
  match list_pop heap with
  | None => None
  | Some (lastelt, heap) =>
      match heap with
      | returnitem :: _ => Some (returnitem, siftup (<[0 := lastelt]> heap) 0)
      | [] => Some (lastelt, heap)
      end
  end.
End heapq.

(** ** Game.ucs *)

(** A queue entry [(cost, state, path)]. *)
Definition entry : Type := (nat * GameState * list GameState)%type.

(** [<] on entries is Python's tuple comparison: the costs decide unless
    they are equal, and then the states do, through [GameState.__lt__]. The
    states of two entries are never the same object (each was made by its own
    deepcopy, and GameState defines no [__eq__]), so the comparison never
    reaches the paths. *)
Definition entry_lt (a b : entry) : bool :=
  let '(cost_a, state_a, _) := a in
  let '(cost_b, state_b, _) := b in
  if bool_decide (cost_a = cost_b) then GameState_lt state_a state_b
  else bool_decide (cost_a < cost_b).

Definition ucs_state : Type := (list entry * gset key * list GameState * nat)%type.

(** The inner [for new_state in new_states] of ucs. *)
Definition push_unvisited (visited : gset key) (cost : nat) (current_state : GameState)
    (path : list GameState) (priority_queue : list entry) (new_states : list GameState)
  : list entry :=
  foldl (λ priority_queue new_state,
      let new_state_hash := get_state new_state in
      if bool_decide (new_state_hash ∉ visited)
      then heappush entry_lt priority_queue (cost + 1, new_state, path ++ [current_state])
      else priority_queue)
    priority_queue new_states.

(** The two nested [for] loops of ucs. *)
Definition push_unvisited_successors (self : Game) (visited : gset key) (cost : nat)
    (current_state : GameState) (path : list GameState) (priority_queue : list entry)
  : outcome (list entry) :=
  for_each (λ '(move_row, move_col) priority_queue,
      new_states ← simulate_move self current_state move_row move_col;
      Ret (push_unvisited visited cost current_state path priority_queue new_states))
    moves priority_queue.

Definition ucs_body (self : Game) (ls : ucs_state) : outcome (step ucs_state answer) :=
  let '(priority_queue, visited, visited_states, nodes_visited) := ls in
  match heappop entry_lt priority_queue with
  | None => Ret (Return (None, nodes_visited, visited_states))
  | Some ((cost, current_state, path), priority_queue) =>
      let nodes_visited := S nodes_visited in
      let visited_states := visited_states ++ [current_state] in
      if all (reached_goal current_state) then
        Ret (Return (Some (path ++ [current_state]), nodes_visited, visited_states))
      else
        let state_hash := get_state current_state in
        if bool_decide (state_hash ∈ visited) then
          Ret (Continue (priority_queue, visited, visited_states, nodes_visited))
        else
          let visited := visited ∪ {[state_hash]} in
          priority_queue ←
            push_unvisited_successors self visited cost current_state path
              priority_queue;
          Ret (Continue (priority_queue, visited, visited_states, nodes_visited))
  end.

Definition ucs (fuel : nat) (self : Game) : outcome answer :=
  let initial_state := state self in
  while_loop fuel (ucs_body self) ([(0, initial_state, [])], ∅, [], 0).

(** ** The console program (class GameUI)

    A str is a [string]. [print] writes a line to the standard output,
    [input] writes its prompt and takes the next line of the standard input,
    raising EOFError when there is none. What has been written stays written
    when an exception is raised. *)
Inductive write : Type :=
| Line (text : string)
| Prompt (text : string).

Record console : Type := mkConsole {
  stdin : list string;
  stdout : list write
}.

(** The exceptions of the console program: those of the core, EOFError of
    [input], and UnboundLocalError of a local variable read before it is
    assigned. *)
Inductive ui_exn : Type :=
| Core (e : exn)
| EOFError
| UnboundLocalError.

(** A call of the console program returns, raises, or uses up an iteration
    budget of the model ([Hangs]). *)
Inductive ui_result (A : Type) : Type :=
| Done (a : A)
| Fails (e : ui_exn)
| Hangs.
Arguments Done {A} a.
Arguments Fails {A} e.
Arguments Hangs {A}.

Definition ui (A : Type) : Type := console → ui_result A * console.

Global Instance ui_ret : MRet ui := λ A a c, (Done a, c).
Global Instance ui_bind : MBind ui := λ A B f m c,
  match m c with
  | (Done a, c') => f a c'
  | (Fails e, c') => (Fails e, c')
  | (Hangs, c') => (Hangs, c')
  end.

Definition print (text : string) : ui unit := λ c,
  (Done (), mkConsole (stdin c) (stdout c ++ [Line text])).

Definition input (prompt : string) : ui string := λ c,
  match stdin c with
  | [] => (Fails EOFError, mkConsole [] (stdout c ++ [Prompt prompt]))
  | line :: rest => (Done line, mkConsole rest (stdout c ++ [Prompt prompt]))
  end.

Definition raise {A : Type} (e : ui_exn) : ui A := λ c, (Fails e, c).

(** A call into the core. *)
Definition core {A : Type} (o : outcome A) : ui A := λ c,
  match o with
  | Ret a => (Done a, c)
  | Raise e => (Fails (Core e), c)
  | Timeout => (Hangs, c)
  end.

Fixpoint ui_for_each {A : Type} (body : A → ui unit) (l : list A) : ui unit :=
  match l with
  | [] => mret ()
  | a :: l' => body a;; ui_for_each body l'
  end.

(** class GameUI: [rows], [cols] and the [game]. *)
Record GameUI : Type := mkGameUI {
  ui_rows : Z;
  ui_cols : Z;
  game : Game
}.

Definition GameUI_init (rows cols : Z) (board_details : BoardDetails) : GameUI :=
  {| ui_rows := rows; ui_cols := cols; game := Game_init rows cols board_details |}.

(** *** GameUI.print_state *)

(** The two characters of one cell: the [if]/[elif] chain of the inner
    loop. *)
Definition cell_text (state : GameState) (row col : Z) : string :=
  if bool_decide ((row, col) ∈ walls state) then "X "
  else if existsb (λ goal, bool_decide ((row, col) = position goal)) (goals state)
  then "G "
  else if existsb (λ player, bool_decide ((row, col) = position player)) (players state)
  then "P "
  else ". ".

(** [line] after the inner [for col in range(self.cols)]. *)
Definition row_text (self : GameUI) (state : GameState) (row : Z) : string :=
  foldl (λ line col, line +:+ cell_text state row col) "" (seqZ 0 (ui_cols self)).

Definition print_state (self : GameUI) (state : GameState) : ui unit :=
  ui_for_each (λ row, print (row_text self state row)) (seqZ 0 (ui_rows self));;
  print "".

(** *** GameUI.play_manually *)

(** The [if]/[elif] chain on the upper-cased input. *)
Definition manual_direction (move : string) : option (Z * Z) :=
  if bool_decide (move = "W") then Some (-1, 0)%Z
  else if bool_decide (move = "S") then Some (1, 0)%Z
  else if bool_decide (move = "A") then Some (0, -1)%Z
  else if bool_decide (move = "D") then Some (0, 1)%Z
  else None.

(** [self.game.state = new_state] *)
Definition set_state (self : GameUI) (new_state : GameState) : GameUI :=
  {| ui_rows := ui_rows self; ui_cols := ui_cols self;
     game := {| rows := rows (game self); cols := cols (game self);
                state := new_state |} |}.

(** [self.game.state = self.game.simulate_move(self.game.state, r, c)[0]],
    the statement of each of the four branches. *)
Definition key_press (self : GameUI) (r_row c_col : Z) : ui GameUI :=
  new_states ← core (simulate_move (game self) (state (game self)) r_row c_col);
  new_state ← core (subscript new_states 0);
  mret (set_state self new_state).

(** The [while True] loop. [upper] is [str.upper]: what it does to a line
    depends on the Unicode tables of the interpreter, and the loop is
    modelled for any such function. Every round takes a line of input, so
    [fuel] rounds are enough for an input of fewer than [fuel] lines. *)
Fixpoint play_manually (upper : string → string) (fuel : nat) (self : GameUI)
  : ui GameUI :=
  match fuel with
  | O => λ c, (Hangs, c)
  | S fuel' =>
      print_state self (state (game self));;
      move ← input "Enter your move (WASD): ";
      let move := upper move in
      match manual_direction move with
      | Some (r_row, c_col) =>
          self ← key_press self r_row c_col;
          if is_won (game self) then
            print_state self (state (game self));;
            print "You won!";;
            mret self
          else play_manually upper fuel' self
      | None =>
          print "Invalid! enter W, A, S, or D.";;
          play_manually upper fuel' self
      end
  end.

(** *** GameUI.solve_with_algorithm *)

Definition newline : string := String (Ascii.ascii_of_nat 10) "".

(** [enumerate(l)] *)
Definition enumerate {A : Type} (l : list A) : list (nat * A) :=
  zip (seq 0 (length l)) l.

(** The [if]/[elif] chain that runs a search, with [fuel] as the iteration
    budget of its loop: with any other name, the three local variables stay
    unassigned. *)
Definition run_algorithm (fuel : nat) (self : GameUI) (algorithm : string)
  : ui (option answer) :=
  if bool_decide (algorithm = "DFS") then a ← core (dfs fuel (game self)); mret (Some a)
  else if bool_decide (algorithm = "BFS") then a ← core (bfs fuel (game self)); mret (Some a)
  else if bool_decide (algorithm = "UCS") then a ← core (ucs fuel (game self)); mret (Some a)
  else mret None.

Definition solve_with_algorithm (fuel : nat) (self : GameUI) (algorithm : string)
  : ui unit :=
  assigned ← run_algorithm fuel self algorithm;
  match assigned with
  | None => raise UnboundLocalError
  | Some (solution, nodes_visited, visited_states) =>
      print ("Total nodes visited: " +:+ pretty nodes_visited);;
      match solution with
      | Some (first :: rest) =>
          let solution := first :: rest in
          print ("Solution " +:+ pretty (length solution) +:+ " steps:");;
          ui_for_each (λ state, print_state self state) solution
      | _ => print "No solution"
      end;;
      print (newline +:+ "Visited states :");;
      ui_for_each (λ '(i, visited_state),
          print ("State " +:+ pretty (i + 1) +:+ ":");;
          print_state self visited_state)
        (enumerate visited_states)
  end.

(** *** GameUI.run and the program *)

Definition run (upper : string → string) (fuel : nat) (self : GameUI) : ui GameUI :=
  print "Choose:";;
  print "1. Play manually";;
  print "2. DFS";;
  print "3. BFS";;
  print "4. UCS";;
  choice ← input "Enter your choice: ";
  if bool_decide (choice = "1") then play_manually upper fuel self
  else if bool_decide (choice = "2") then solve_with_algorithm fuel self "DFS";; mret self
  else if bool_decide (choice = "3") then solve_with_algorithm fuel self "BFS";; mret self
  else if bool_decide (choice = "4") then solve_with_algorithm fuel self "UCS";; mret self
  else print "Invalid!! ";; mret self.

(** The board that the program ships with (the [__main__] block). *)
Definition main_board : BoardDetails :=
  {| bd_walls :=
       [(1, 2); (1, 3); (1, 4); (1, 5); (1, 6); (1, 7); (1, 8); (1, 9); (1, 10);
        (1, 11); (1, 12);
        (2, 2); (2, 12);
        (3, 0); (3, 1); (3, 2); (3, 5); (3, 6); (3, 7); (3, 8); (3, 9); (3, 10);
        (3, 12);
        (4, 0); (4, 10); (4, 12);
        (5, 0); (5, 2); (5, 10); (5, 12);
        (6, 0); (6, 12);
        (7, 0); (7, 1); (7, 2); (7, 3); (7, 12);
        (8, 3); (8, 4); (8, 5); (8, 6); (8, 7); (8, 8); (8, 9); (8, 10); (8, 11);
        (8, 12)]%Z;
     bd_players := [mkPiece (2, 3)%Z];
     bd_goals := [mkPiece (4, 6)%Z] |}.

(** The [__main__] block. *)
Definition main (upper : string → string) (fuel : nat) : ui GameUI :=
  run upper fuel (GameUI_init 15 15 main_board).

(** ** The same code over objects

    GameState objects live in a store and are handed around by reference;
    deepcopy allocates, subscript assignments write in place. The lists and
    dicts inside a GameState object are reachable through that object only
    (every GameState is made by [Game.__init__] or by deepcopy, which copy
    them), so a store cell holds the whole content of one object. *)
Abbreviation ref := nat (only parsing).
Abbreviation store := (list GameState) (only parsing).

Global Instance GameState_inhabited : Inhabited GameState :=
  populate (mkGameState [] [] [] []).

(** The Game object: [self.state] is a reference. *)
Record GameObject : Type := mkGameObject {
  rows_of : Z;
  cols_of : Z;
  state_ref : ref
}.

(** A computation on the store. *)
Definition prog (A : Type) : Type := store → outcome (A * store).

Global Instance prog_ret : MRet prog := λ A a σ, Ret (a, σ).
Global Instance prog_bind : MBind prog := λ A B f m σ,
  match m σ with
  | Ret (a, σ') => f a σ'
  | Raise e => Raise e
  | Timeout => Timeout
  end.

Definition lift {A : Type} (o : outcome A) : prog A := λ σ, a ← o; Ret (a, σ).

(** Reading through a reference; the references that the code holds are
    always allocated. *)
Definition read (r : ref) : prog GameState := λ σ, Ret (σ !!! r, σ).

Definition deepcopy (r : ref) : prog ref := λ σ, Ret (length σ, σ ++ [σ !!! r]).

(** [obj.reached_goal[i] = True] *)
Definition set_reached (r : ref) (i : nat) : prog unit := λ σ,
  let st := σ !!! r in
  Ret ((), <[r := mkGameState (walls st) (goals st) (players st)
                    (<[i := true]> (reached_goal st))]> σ).

(** [obj.players[i]["position"] = c] *)
Definition set_position (r : ref) (i : nat) (c : cell) : prog unit := λ σ,
  let st := σ !!! r in
  Ret ((), <[r := mkGameState (walls st) (goals st)
                    (<[i := mkPiece c]> (players st)) (reached_goal st)]> σ).

Fixpoint for_each_obj {A S : Type} (body : A → S → prog S) (l : list A) (s : S)
  : prog S :=
  match l with
  | [] => mret s
  | a :: l' => s' ← body a s; for_each_obj body l' s'
  end.

Fixpoint while_loop_obj {L R : Type} (fuel : nat) (body : L → prog (step L R)) (l : L)
  : prog R :=
  match fuel with
  | O => λ _, Timeout
  | S fuel' =>
      s ← body l;
      match s with
      | Continue l' => while_loop_obj fuel' body l'
      | Return r => mret r
      end
  end.

Definition is_valid_move_obj (self : GameObject) (row col : Z) (player_i : nat)
  : prog bool :=
  st ← read (state_ref self);
  lift (is_valid_move (mkGame (rows_of self) (cols_of self) st) row col player_i).

Fixpoint slide_loop_obj (fuel : nat) (self : GameObject) (r_row c_col : Z) (i : nat)
    (cloned_state : ref) (current : cell) : prog cell :=
  match fuel with
  | O => λ _, Timeout
  | S fuel' =>
      let next := (current.1 + r_row, current.2 + c_col)%Z in
      valid ← is_valid_move_obj self next.1 next.2 i;
      if negb valid then mret current
      else
        let current := next in
        cl ← read cloned_state;
        goal ← lift (subscript (goals cl) i);
        if bool_decide (current = position goal) then
          set_reached cloned_state i;; mret current
        else slide_loop_obj fuel' self r_row c_col i cloned_state current
  end.

Definition move_player_obj (self : GameObject) (r_row c_col : Z) (cloned_state : ref)
    (i : nat) (new_states : list ref) : prog (list ref) :=
  cl ← read cloned_state;
  reached ← lift (subscript (reached_goal cl) i);
  if reached : bool then mret new_states
  else
    player ← lift (subscript (players cl) i);
    current ← slide_loop_obj
                (S (Z.to_nat (Z.max (rows_of self) (cols_of self))))
                self r_row c_col i cloned_state (position player);
    if bool_decide (current ≠ position player) then
      set_position cloned_state i current;;
      snapshot ← deepcopy cloned_state;
      mret (new_states ++ [snapshot])
    else mret new_states.

Definition simulate_move_obj (self : GameObject) (current_state : ref) (r_row c_col : Z)
  : prog (list ref) :=
  cloned_state ← deepcopy current_state;
  cl ← read cloned_state;
  for_each_obj (move_player_obj self r_row c_col cloned_state)
    (seq 0 (length (players cl))) [].

Definition get_state_obj (state : ref) : prog key :=
  st ← read state; mret (get_state st).

Definition answer_obj : Type := (option (list ref) * nat * list ref)%type.
Definition frontier_obj : Type := list (ref * list ref).
Definition loop_state_obj : Type := (frontier_obj * gset key * list ref * nat)%type.

Definition push_successors_obj (self : GameObject) (current_state : ref)
    (path : list ref) (fr : frontier_obj) : prog frontier_obj :=
  for_each_obj (λ '(move_row, move_col) fr,
      new_states ← simulate_move_obj self current_state move_row move_col;
      mret (foldl (λ fr new_state, fr ++ [(new_state, path ++ [current_state])])
              fr new_states))
    moves fr.

Definition search_body_obj
    (pop : frontier_obj → option ((ref * list ref) * frontier_obj))
    (self : GameObject) (ls : loop_state_obj) : prog (step loop_state_obj answer_obj) :=
  let '(fr, visited, visited_states, nodes_visited) := ls in
  match pop fr with
  | None => mret (Return (None, nodes_visited, visited_states))
  | Some ((current_state, path), fr) =>
      let nodes_visited := S nodes_visited in
      snapshot ← deepcopy current_state;
      let visited_states := visited_states ++ [snapshot] in
      cur ← read current_state;
      if all (reached_goal cur) then
        mret (Return (Some (path ++ [current_state]), nodes_visited, visited_states))
      else
        state_hash ← get_state_obj current_state;
        if bool_decide (state_hash ∈ visited) then
          mret (Continue (fr, visited, visited_states, nodes_visited))
        else
          let visited := visited ∪ {[state_hash]} in
          fr ← push_successors_obj self current_state path fr;
          mret (Continue (fr, visited, visited_states, nodes_visited))
  end.

Definition dfs_obj (fuel : nat) (self : GameObject) : prog answer_obj :=
  initial_state ← deepcopy (state_ref self);
  while_loop_obj fuel (search_body_obj list_pop self)
    ([(initial_state, [])], ∅, [], 0).

Definition bfs_obj (fuel : nat) (self : GameObject) : prog answer_obj :=
  initial_state ← deepcopy (state_ref self);
  while_loop_obj fuel (search_body_obj popleft self)
    ([(initial_state, [])], ∅, [], 0).

Definition entry_obj : Type := (nat * ref * list ref)%type.

(** [<] on queue entries, through the store. *)
Definition entry_lt_obj (σ : store) (a b : entry_obj) : bool :=
  let '(cost_a, state_a, _) := a in
  let '(cost_b, state_b, _) := b in
  if bool_decide (cost_a = cost_b) then GameState_lt (σ !!! state_a) (σ !!! state_b)
  else bool_decide (cost_a < cost_b).

Definition heappush_obj (heap : list entry_obj) (item : entry_obj)
  : prog (list entry_obj) :=
  λ σ, Ret (heappush (entry_lt_obj σ) heap item, σ).

Definition heappop_obj (heap : list entry_obj)
  : prog (option (entry_obj * list entry_obj)) :=
  λ σ, Ret (heappop (entry_lt_obj σ) heap, σ).

Definition ucs_state_obj : Type := (list entry_obj * gset key * list ref * nat)%type.

Definition push_unvisited_obj (visited : gset key) (cost : nat) (current_state : ref)
    (path : list ref) (priority_queue : list entry_obj) (new_states : list ref)
  : prog (list entry_obj) :=
  for_each_obj (λ new_state priority_queue,
      new_state_hash ← get_state_obj new_state;
      if bool_decide (new_state_hash ∉ visited)
      then heappush_obj priority_queue (cost + 1, new_state, path ++ [current_state])
      else mret priority_queue)
    new_states priority_queue.

Definition push_unvisited_successors_obj (self : GameObject) (visited : gset key)
    (cost : nat) (current_state : ref) (path : list ref)
    (priority_queue : list entry_obj) : prog (list entry_obj) :=
  for_each_obj (λ '(move_row, move_col) priority_queue,
      new_states ← simulate_move_obj self current_state move_row move_col;
      push_unvisited_obj visited cost current_state path priority_queue new_states)
    moves priority_queue.

Definition ucs_body_obj (self : GameObject) (ls : ucs_state_obj)
  : prog (step ucs_state_obj answer_obj) :=
  let '(priority_queue, visited, visited_states, nodes_visited) := ls in
  popped ← heappop_obj priority_queue;
  match popped with
  | None => mret (Return (None, nodes_visited, visited_states))
  | Some ((cost, current_state, path), priority_queue) =>
      let nodes_visited := S nodes_visited in
      snapshot ← deepcopy current_state;
      let visited_states := visited_states ++ [snapshot] in
      cur ← read current_state;
      if all (reached_goal cur) then
        mret (Return (Some (path ++ [current_state]), nodes_visited, visited_states))
      else
        state_hash ← get_state_obj current_state;
        if bool_decide (state_hash ∈ visited) then
          mret (Continue (priority_queue, visited, visited_states, nodes_visited))
        else
          let visited := visited ∪ {[state_hash]} in
          priority_queue ←
            push_unvisited_successors_obj self visited cost current_state path
              priority_queue;
          mret (Continue (priority_queue, visited, visited_states, nodes_visited))
  end.

Definition ucs_obj (fuel : nat) (self : GameObject) : prog answer_obj :=
  initial_state ← deepcopy (state_ref self);
  while_loop_obj fuel (ucs_body_obj self) ([(0, initial_state, [])], ∅, [], 0).

(** ** Dicts as objects

    In the code a player and a goal are dicts, and the slots of
    [state.players] and [state.goals] hold references to them. One dict may
    sit in several slots; [deepcopy] keeps that (its memo gives one dict one
    copy), and the subscript assignment of line 72 writes to the dict, so the
    new position shows in every slot that holds it. The definitions above
    give every slot a dict of its own. Below is simulate_move once more, for
    states whose dicts are objects: a state has its dicts by address and its
    slots hold addresses. A deepcopy of such a state is a state of the same
    shape in which nothing is shared with the original, so here as above the
    copy is written as the value itself. *)

Definition addr : Type := nat.

Record SharedState : Type := mkSharedState {
  sh_walls : list cell;
  sh_dicts : addr → Piece;
  sh_goals : list addr;
  sh_players : list addr;
  sh_reached_goal : list bool
}.

Record SharedGame : Type := mkSharedGame {
  sg_rows : Z;
  sg_cols : Z;
  sg_state : SharedState
}.

(** A [board_details] whose lists may hold one dict more than once. *)
Record SharedBoard : Type := mkSharedBoard {
  sb_walls : list cell;
  sb_dicts : addr → Piece;
  sb_players : list addr;
  sb_goals : list addr
}.

(** What the lists of a state show when every slot is read out. *)
Definition shown (st : SharedState) : GameState :=
  {| walls := sh_walls st;
     goals := sh_dicts st <$> sh_goals st;
     players := sh_dicts st <$> sh_players st;
     reached_goal := sh_reached_goal st |}.

Definition shown_game (self : SharedGame) : Game :=
  {| rows := sg_rows self; cols := sg_cols self; state := shown (sg_state self) |}.

Definition shown_board (board_details : SharedBoard) : BoardDetails :=
  {| bd_walls := sb_walls board_details;
     bd_players := sb_dicts board_details <$> sb_players board_details;
     bd_goals := sb_dicts board_details <$> sb_goals board_details |}.

(** Game.__init__ copies the goals and the players in two deepcopy calls,
    each with a memo of its own: a dict that sits in two slots of the players
    list has one copy, and no copy of a player's dict is the copy of a goal's.
    The copy made for the players of the dict at [a] is put at [2 * a], the
    copy made for the goals at [2 * a + 1]. *)
Definition shared_Game_init (rows cols : Z) (board_details : SharedBoard) : SharedGame :=
  {| sg_rows := rows;
     sg_cols := cols;
     sg_state :=
       {| sh_walls := sb_walls board_details;
          sh_dicts := λ a, sb_dicts board_details (a / 2);
          sh_goals := (λ a, 2 * a + 1) <$> sb_goals board_details;
          sh_players := (λ a, 2 * a) <$> sb_players board_details;
          sh_reached_goal := replicate (length (sb_players board_details)) false |} |}.

(** is_valid_move only reads [self.state], so it answers for a game with
    shared dicts what it answers for what that game shows. *)
Definition shared_is_valid_move (self : SharedGame) (row col : Z) (player_i : nat)
  : outcome bool :=
  is_valid_move (shown_game self) row col player_i.

(** The [while True] loop of one player. *)
Fixpoint shared_slide_loop (fuel : nat) (self : SharedGame) (r_row c_col : Z) (i : nat)
    (cloned_state : SharedState) (current : cell) : outcome (SharedState * cell) :=
  match fuel with
  | O => Timeout
  | S fuel' =>
      let next := (current.1 + r_row, current.2 + c_col)%Z in
      valid ← shared_is_valid_move self next.1 next.2 i;
      if negb valid then Ret (cloned_state, current)
      else
        let current := next in
        goal ← subscript (sh_goals cloned_state) i;
        if bool_decide (current = position (sh_dicts cloned_state goal)) then
          Ret (mkSharedState (sh_walls cloned_state) (sh_dicts cloned_state)
                 (sh_goals cloned_state) (sh_players cloned_state)
                 (<[i := true]> (sh_reached_goal cloned_state)),
               current)
        else shared_slide_loop fuel' self r_row c_col i cloned_state current
  end.

(** The body of [for i, player in enumerate(cloned_state.players)]; [player]
    is the address of the dict in slot [i], and the assignment
    [cloned_state.players[i]["position"] = ...] writes to that dict. *)
Definition shared_move_player (self : SharedGame) (r_row c_col : Z) (i : nat)
    (acc : SharedState * list SharedState) : outcome (SharedState * list SharedState) :=
  let '(cloned_state, new_states) := acc in
  reached ← subscript (sh_reached_goal cloned_state) i;
  if reached : bool then Ret (cloned_state, new_states)
  else
    player ← subscript (sh_players cloned_state) i;
    '(cloned_state, current) ←
      shared_slide_loop (slide_fuel (shown_game self)) self r_row c_col i cloned_state
        (position (sh_dicts cloned_state player));
    if bool_decide (current ≠ position (sh_dicts cloned_state player)) then
      let cloned_state :=
        mkSharedState (sh_walls cloned_state)
          (<[player := mkPiece current]> (sh_dicts cloned_state))
          (sh_goals cloned_state) (sh_players cloned_state)
          (sh_reached_goal cloned_state) in
      Ret (cloned_state, new_states ++ [cloned_state])
    else Ret (cloned_state, new_states).

Definition shared_simulate_players (self : SharedGame) (current_state : SharedState)
    (r_row c_col : Z) : outcome (SharedState * list SharedState) :=
  for_each (shared_move_player self r_row c_col)
    (seq 0 (length (sh_players current_state))) (current_state, []).

Definition shared_simulate_move (self : SharedGame) (current_state : SharedState)
    (r_row c_col : Z) : outcome (list SharedState) :=
  '(_, new_states) ← shared_simulate_players self current_state r_row c_col;
  Ret new_states.

(** [s'] is one of the states that some call of simulate_move on [s] returns. *)
Definition shared_successor (s s' : SharedState) : Prop :=
  ∃ (self : SharedGame) (r_row c_col : Z) (new_states : list SharedState),
    shared_simulate_move self s r_row c_col = Ret new_states ∧ s' ∈ new_states.

(** Reached from [s] by any sequence of simulate_move calls. *)
Definition shared_descendant : SharedState → SharedState → Prop :=
  rtc shared_successor.

(** ** Moves and walks *)

(** [s'] is one of the states that simulate_move returns for [s] in one of
    the four directions that the searches try. *)
Definition move_of (self : Game) (s s' : GameState) : Prop :=
  ∃ d ns, d ∈ moves ∧ simulate_move self s d.1 d.2 = Ret ns ∧ s' ∈ ns.

(** [walk self path s]: [path ++ [s]] starts with the stored state of the
    game, and each of its states is a move away from the one before. *)
Inductive walk (self : Game) : list GameState → GameState → Prop :=
| walk_start : walk self [] (state self)
| walk_step path s s' :
    walk self path s → move_of self s s' → walk self (path ++ [s]) s'.

(** The same, said of a list with its positions. *)
Definition line (self : Game) (l : list GameState) : Prop :=
  head l = Some (state self)
  ∧ ∀ i s s', l !! i = Some s → l !! S i = Some s' → move_of self s s'.

(** ** What the properties speak about *)

Definition in_bounds (self : Game) (c : cell) : Prop :=
  (0 ≤ c.1 < rows self)%Z ∧ (0 ≤ c.2 < cols self)%Z.

(** Inside the grid and off the walls that the game stores. *)
Definition on_board (self : Game) (c : cell) : Prop :=
  in_bounds self c ∧ c ∉ walls (state self).

Global Instance in_bounds_dec (self : Game) (c : cell) : Decision (in_bounds self c).
Proof. unfold in_bounds. apply _. Defined.

Global Instance on_board_dec (self : Game) (c : cell) : Decision (on_board self c).
Proof. unfold on_board. apply _. Defined.

Definition players_on_board (self : Game) (st : GameState) : Prop :=
  Forall (λ p, on_board self (position p)) (players st).

(** *** Well-formed games and the states a search meets

    The configuration pairs every player with a goal; [Game.__init__] makes
    one reached flag per player. *)
Definition wf_game (self : Game) : Prop :=
  length (reached_goal (state self)) = length (players (state self))
  ∧ length (players (state self)) ≤ length (goals (state self)).

(** The cells of the grid. *)
Definition grid_cells (self : Game) : list cell :=
  r ← seqZ 0 (rows self); c ← seqZ 0 (cols self); [(r, c)].

(** Where a player of a state under search can stand: where some player
    started, or on a cell of the grid. *)
Definition alphabet (self : Game) : list cell :=
  (position <$> players (state self)) ++ grid_cells self.

(** A state that goes with the game: its goals, as many players and flags
    as the game has, every player on a cell of the alphabet. *)
Definition goes_with (self : Game) (st : GameState) : Prop :=
  goals st = goals (state self)
  ∧ length (players st) = length (players (state self))
  ∧ length (reached_goal st) = length (players (state self))
  ∧ Forall (λ p, position p ∈ alphabet self) (players st).

(** How many more steps fit into the grid from a cell inside it. *)
Definition room (self : Game) (r_row c_col : Z) (c : cell) : Z :=
  if bool_decide (0 < r_row)%Z then rows self - 1 - c.1
  else if bool_decide (r_row < 0)%Z then c.1
  else if bool_decide (0 < c_col)%Z then cols self - 1 - c.2
  else c.2.

(** All lists of length [n] over an alphabet. *)
Fixpoint words {A : Type} (letters : list A) (n : nat) : list (list A) :=
  match n with
  | O => [[]]
  | S n' => a ← letters; w ← words letters n'; [a :: w]
  end.

(** The finitely many keys that states going with the game can have. *)
Definition all_keys (self : Game) : gset key :=
  list_to_set
    (ps ← words (alphabet self) (length (players (state self)));
     fs ← words [true; false] (length (players (state self)));
     [(ps, fs)]).

(** The measure of a loop state: keys not yet visited, then frontier size. *)
Definition lex_lt (a b : nat * nat) : Prop :=
  a.1 < b.1 ∨ (a.1 = b.1 ∧ a.2 < b.2).

(** What a search may hand back: no path, or a path that ends in a state
    with all reached flags true. *)
Definition answer_ok (a : answer) : Prop :=
  a.1.1 = None
  ∨ ∃ path final, a.1.1 = Some (path ++ [final]) ∧ all (reached_goal final) = true.

(** *** What a search loop comes back with *)

(** The state a loop is in after [n] rounds, if none of them returned,
    raised or ran out. *)
Fixpoint rounds {L R : Type} (n : nat) (body : L → outcome (step L R)) (l : L)
  : option L :=
  match n with
  | O => Some l
  | S n' =>
      match body l with
      | Ret (Continue l') => rounds n' body l'
      | _ => None
      end
  end.

(** The loop of a search, started on the frontier [start], goes round [k]
    times and returns [a] in the round after. If [a] has no path, that round
    found the frontier empty, and [a] is the counter and the trace as they
    stood; if [a] has a path, the last state of the path has all reached
    flags true. *)
Definition comes_back {E : Type}
    (body : list E * gset key * list GameState * nat →
            outcome (step (list E * gset key * list GameState * nat) answer))
    (start : list E) (k : nat) (a : answer) : Prop :=
  ∃ fr visited visited_states nodes_visited,
    rounds k body (start, ∅, [], 0) = Some (fr, visited, visited_states, nodes_visited)
    ∧ body (fr, visited, visited_states, nodes_visited) = Ret (Return a)
    ∧ match a.1.1 with
      | None => fr = [] ∧ a = (None, nodes_visited, visited_states)
      | Some path => ∃ final, last path = Some final ∧ all (reached_goal final) = true
      end.

(** *** States in which every player has a dict of its own *)

(** No dict sits in two slots of the players list, and none sits in a slot
    of the goals list as well. *)
Definition separate (st : SharedState) : Prop :=
  NoDup (sh_players st) ∧ ∀ a, a ∈ sh_players st → a ∉ sh_goals st.

(** Two outcomes of the same kind, with returned values related by [R]. *)
Definition outcome_rel {A B : Type} (R : A → B → Prop) (x : outcome A) (y : outcome B)
  : Prop :=
  match x, y with
  | Ret a, Ret b => R a b
  | Raise e, Raise e' => e = e'
  | Timeout, Timeout => True
  | _, _ => False
  end.

(** *** Objects that a call leaves alone *)
(** [σ'] has every object that [σ] has below [n], unchanged. *)
Definition untouched (n : nat) (σ σ' : store) : Prop :=
  length σ ≤ length σ' ∧ ∀ r, r < n → σ' !! r = σ !! r.

(** Run on a store that has at least [n] objects, [m] leaves the first [n]
    as they are, and what it returns satisfies [Q]. *)
Definition keeps {A : Type} (n : nat) (m : prog A) (Q : A → Prop) : Prop :=
  ∀ σ a σ', n ≤ length σ → m σ = Ret (a, σ') → untouched n σ σ' ∧ Q a.

(** *** Objects and values *)

(** The game that a Game object stands for in a store. *)
Definition game_at (σ : store) (self : GameObject) : Game :=
  mkGame (rows_of self) (cols_of self) (σ !!! state_ref self).

(** The values behind references: of a list, an entry, a loop state, an
    answer. *)
Definition deref (σ : store) (l : list ref) : list GameState :=
  (λ r, σ !!! r) <$> l.

Definition deref_entry (σ : store) (e : ref * list ref) : GameState * list GameState :=
  (σ !!! e.1, deref σ e.2).

Definition deref_loop (σ : store) (ls : loop_state_obj) : loop_state :=
  (deref_entry σ <$> ls.1.1.1, ls.1.1.2, deref σ ls.1.2, ls.2).

Definition deref_answer (σ : store) (a : answer_obj) : answer :=
  (deref σ <$> a.1.1, a.1.2, deref σ a.2).

(** Every reference of a list, a frontier, a loop state is allocated. *)
Definition allocated (σ : store) (l : list ref) : Prop :=
  Forall (λ r, r < length σ) l.

Definition allocated_frontier (σ : store) (fr : frontier_obj) : Prop :=
  Forall (λ e, e.1 < length σ ∧ allocated σ e.2) fr.

Definition allocated_loop (σ : store) (ls : loop_state_obj) : Prop :=
  allocated_frontier σ ls.1.1.1 ∧ allocated σ ls.1.2.

(** [m], run on [σ], does what the outcome [o] of the value-level code says:
    it returns when [o] does, on a store that extends [σ], with results
    related by [R]; it raises or does not come back when [o] says so. *)
Definition refines {A B : Type} (R : store → A → B → Prop) (σ : store)
    (m : prog A) (o : outcome B) : Prop :=
  match o with
  | Ret b => ∃ a σ', m σ = Ret (a, σ') ∧ σ `prefix_of` σ' ∧ R σ' a b
  | Raise e => m σ = Raise e
  | Timeout => m σ = Timeout
  end.

(** Related results of one round of a search loop. *)
Definition step_related {L L' R R' : Type} (RL : L → L' → Prop) (RR : R → R' → Prop)
    (s : step L R) (s' : step L' R') : Prop :=
  match s, s' with
  | Continue l, Continue l' => RL l l'
  | Return r, Return r' => RR r r'
  | _, _ => False
  end.

(** What a pop of a mapped list gives, from the pop of the list. *)
Definition pop_map {A B : Type} (f : A → B) (o : option (A * list A))
  : option (B * list B) :=
  match o with
  | Some (a, r) => Some (f a, f <$> r)
  | None => None
  end.

(** The same for ucs. *)
Definition deref_queue_entry (σ : store) (e : entry_obj) : entry :=
  (e.1.1, σ !!! e.1.2, deref σ e.2).

Definition deref_ucs (σ : store) (ls : ucs_state_obj) : ucs_state :=
  (deref_queue_entry σ <$> ls.1.1.1, ls.1.1.2, deref σ ls.1.2, ls.2).

Definition allocated_queue (σ : store) (pq : list entry_obj) : Prop :=
  Forall (λ e : entry_obj, e.1.2 < length σ ∧ allocated σ e.2) pq.

Definition allocated_ucs (σ : store) (ls : ucs_state_obj) : Prop :=
  allocated_queue σ ls.1.1.1 ∧ allocated σ ls.1.2.

(** *** Heap order

    No item is smaller than the one in its parent slot. *)
Definition edge_ok {A : Type} (lt : A → A → bool) (heap : list A) (j : nat) : Prop :=
  ∀ x y, heap !! ((j - 1) / 2) = Some x → heap !! j = Some y → lt y x = false.

Definition heap_ordered {A : Type} (lt : A → A → bool) (heap : list A) : Prop :=
  ∀ j, 0 < j → edge_ok lt heap j.

(** The heap with a hole at [pos], which [newitem] is to fill. *)
Record hole_ok {A : Type} (lt : A → A → bool) (heap : list A) (newitem : A)
    (pos : nat) : Prop := {
  hole_edges : ∀ j, 0 < j → j ≠ pos → (j - 1) / 2 ≠ pos → edge_ok lt heap j;
  hole_below : ∀ c y, 0 < c → (c - 1) / 2 = pos → heap !! c = Some y →
                lt y newitem = false;
  hole_above : ∀ c x y, 0 < pos → 0 < c → (c - 1) / 2 = pos →
                heap !! ((pos - 1) / 2) = Some x → heap !! c = Some y →
                lt y x = false
}.

(** The heap with a slot [pos] whose content is about to be overwritten. *)
Record gap_ok {A : Type} (lt : A → A → bool) (heap : list A) (pos : nat) : Prop := {
  gap_edges : ∀ j, 0 < j → j ≠ pos → (j - 1) / 2 ≠ pos → edge_ok lt heap j;
  gap_above : ∀ c x y, 0 < pos → 0 < c → (c - 1) / 2 = pos →
                heap !! ((pos - 1) / 2) = Some x → heap !! c = Some y →
                lt y x = false
}.

(** *** Loop states that ucs can be in *)
Inductive ucs_reachable (self : Game) : ucs_state → Prop :=
| ucs_start : ucs_reachable self ([(0, state self, [])], ∅, [], 0)
| ucs_next ls ls' :
    ucs_reachable self ls → ucs_body self ls = Ret (Continue ls') →
    ucs_reachable self ls'.

(** *** Rounds of a search *)

(** The priority queue of ucs, seen as a frontier: the entries without
    their costs. *)
Definition frontier_of (pq : list entry) : frontier :=
  (λ e : entry, (e.1.2, e.2)) <$> pq.

(** The same for what a round of ucs hands on. *)
Definition forget_costs (s : step ucs_state answer) : step loop_state answer :=
  match s with
  | Continue (pq, visited, visited_states, nodes_visited) =>
      Continue (frontier_of pq, visited, visited_states, nodes_visited)
  | Return a => Return a
  end.

(** One round of a search loop, said of the frontier as a bag of entries:
    either the frontier is empty and the search gives up, or some entry is
    taken out, counted and traced, and then the search returns (all flags
    true), goes on (key already visited) or goes on with the key marked and,
    for each state a move away, an entry pushed or the key of that state
    already marked. With [lvl], the entry taken out has a shortest path of
    the frontier. *)
Definition round (self : Game) (lvl : bool) (fr : frontier) (visited : gset key)
    (vs : list GameState) (nv : nat) (s : step loop_state answer) : Prop :=
  (fr = [] ∧ s = Return (None, nv, vs))
  ∨ ∃ st path fr',
      (st, path) :: fr' ≡ₚ fr
      ∧ (lvl = true → Forall (λ e, length path ≤ length e.2) fr')
      ∧ ((all (reached_goal st) = true
          ∧ s = Return (Some (path ++ [st]), S nv, vs ++ [st]))
         ∨ (all (reached_goal st) = false ∧ get_state st ∈ visited
            ∧ s = Continue (fr', visited, vs ++ [st], S nv))
         ∨ (all (reached_goal st) = false ∧ (get_state st ∉ visited)
            ∧ ∃ pushed fr'',
                (∀ s', s' ∈ pushed → move_of self st s')
                ∧ (∀ s', move_of self st s' →
                     s' ∈ pushed ∨ get_state s' ∈ (visited ∪ {[get_state st]} : gset key))
                ∧ fr'' ≡ₚ fr' ++ map (λ s', (s', path ++ [st])) pushed
                ∧ s = Continue (fr'', visited ∪ {[get_state st]}, vs ++ [st], S nv))).

(** What the rounds keep: every entry is a walk; the stored state is in the
    frontier unless its key is marked; for a marked state, each state a move
    away is marked or in the frontier (with [lvl]: at most one step further
    than any walk to the marked state); no marked key has all flags true. *)
Record search_inv (self : Game) (lvl : bool) (fr : frontier) (visited : gset key)
  : Prop := {
  inv_walks : Forall (λ e, walk self e.2 e.1) fr;
  inv_start : get_state (state self) ∈ visited ∨ (state self, []) ∈ fr;
  inv_closed : ∀ p d d', walk self p d → get_state d ∈ visited → move_of self d d' →
      get_state d' ∈ visited
      ∨ ∃ p', (d', p') ∈ fr ∧ (lvl = true → length p' ≤ S (length p));
  inv_open : ∀ k, k ∈ visited → all k.2 = false
}.

(** What a search answers: without a path, no walk ends in a state with all
    flags true; a path is a walk to such a state (with [lvl]: and no walk to
    such a state is shorter). *)
Definition search_ok (self : Game) (lvl : bool) (a : answer) : Prop :=
  match a.1.1 with
  | None => ∀ p d, walk self p d → all (reached_goal d) = false
  | Some sol =>
      ∃ p st, sol = p ++ [st] ∧ walk self p st ∧ all (reached_goal st) = true
        ∧ (lvl = true → ∀ p' w, walk self p' w → all (reached_goal w) = true →
             length p ≤ length p')
  end.

(** The queue of bfs holds its entries by path length, on at most two
    levels. *)
Definition level_queue (fr : frontier) : Prop :=
  ∀ i j a b, i ≤ j → fr !! i = Some a → fr !! j = Some b →
    length a.2 ≤ length b.2 ∧ length b.2 ≤ S (length a.2).

(** What the rounds keep of the trace: the counter is its length; the path of
    every entry lies within it, in order; every traced state ends a walk; it
    starts with the stored state, once it has started. *)
Definition trace_inv (self : Game) (fr : frontier) (vs : list GameState) (nv : nat)
  : Prop :=
  nv = length vs
  ∧ Forall (λ e, sublist e.2 vs) fr
  ∧ Forall (λ s, ∃ p, walk self p s) vs
  ∧ ((vs = [] ∧ fr = [(state self, [])]) ∨ head vs = Some (state self)).

(** What a search answers about its trace. *)
Definition trace_ok (self : Game) (a : answer) : Prop :=
  a.1.2 = length a.2
  ∧ head a.2 = Some (state self)
  ∧ Forall (λ s, ∃ p, walk self p s) a.2
  ∧ match a.1.1 with
    | Some sol => sublist sol a.2 ∧ last sol = last a.2
    | None => True
    end.

(** *** Slides and flags *)

(** The cell [j] steps ahead of [c] along (r_row, c_col). *)
Definition ahead (c : cell) (r_row c_col : Z) (j : nat) : cell :=
  (c.1 + Z.of_nat j * r_row, c.2 + Z.of_nat j * c_col)%Z.

(** A reached flag is true only of a player that stands on its goal. *)
Definition flags_sound (st : GameState) : Prop :=
  ∀ i, reached_goal st !! i = Some true →
    ∃ p g, players st !! i = Some p ∧ goals st !! i = Some g ∧ position p = position g.

(** *** Objects made in the course of a call *)

(** Every reference of a list, a frontier, a queue, an answer is to an
    object allocated after the first [n]. *)
Definition fresh (n : nat) (l : list ref) : Prop := Forall (λ r, n ≤ r) l.

Definition fresh_frontier (n : nat) (fr : frontier_obj) : Prop :=
  Forall (λ e, n ≤ e.1 ∧ fresh n e.2) fr.

Definition fresh_queue (n : nat) (pq : list entry_obj) : Prop :=
  Forall (λ e : entry_obj, n ≤ e.1.2 ∧ fresh n e.2) pq.

Definition fresh_answer (n : nat) (a : answer_obj) : Prop :=
  (∀ sol, a.1.1 = Some sol → fresh n sol) ∧ fresh n a.2.

(** *** What the console program writes *)

(** What print_state writes for a state. *)
Definition board (self : GameUI) (state : GameState) : list write :=
  (Line <$> (row_text self state <$> seqZ 0 (ui_rows self))) ++ [Line ""].

(** What [run] writes before it reads the choice. *)
Definition menu : list write :=
  [Line "Choose:"; Line "1. Play manually"; Line "2. DFS"; Line "3. BFS";
   Line "4. UCS"; Prompt "Enter your choice: "].

(** ** Boards used as examples *)

(** Scenario A of the design document. *)
Definition scenario_A : Game :=
  Game_init 3 3 {| bd_walls := [(0, 2)%Z];
                   bd_players := [mkPiece (0, 0)%Z];
                   bd_goals := [mkPiece (0, 1)%Z] |}.

Definition A_start : GameState :=
  mkGameState [(0, 2)%Z] [mkPiece (0, 1)%Z] [mkPiece (0, 0)%Z] [false].
Definition A_down : GameState :=
  mkGameState [(0, 2)%Z] [mkPiece (0, 1)%Z] [mkPiece (2, 0)%Z] [false].
Definition A_won : GameState :=
  mkGameState [(0, 2)%Z] [mkPiece (0, 1)%Z] [mkPiece (0, 1)%Z] [true].

(** Two players in row 0 of a 2x4 board, the first-processed one ahead of the
    second in the direction "right"; the goals lie in row 1, off the way. *)
Definition two_in_a_row : Game :=
  Game_init 2 4 {| bd_walls := [];
                   bd_players := [mkPiece (0, 1)%Z; mkPiece (0, 0)%Z];
                   bd_goals := [mkPiece (1, 3)%Z; mkPiece (1, 0)%Z] |}.

(** The working copy after player 0 has slid right to the edge. *)
Definition two_in_a_row_moved : GameState :=
  mkGameState [] [mkPiece (1, 3)%Z; mkPiece (1, 0)%Z]
    [mkPiece (0, 3)%Z; mkPiece (0, 0)%Z] [false; false].

(** The Game object of Scenario A, its state the first object of the store. *)
Definition A_obj : GameObject := mkGameObject 3 3 0.


(** What rule 5 of the design document expects next: player 1 has slid
    right as well, up to the cell before player 0. *)
Definition two_in_a_row_both_moved : GameState :=
  mkGameState [] [mkPiece (1, 3)%Z; mkPiece (1, 0)%Z]
    [mkPiece (0, 3)%Z; mkPiece (0, 2)%Z] [false; false].

(** One dict, at (0, 1), given for both players of a 2x2 board; the goals
    are (0, 0) and (1, 0). *)
Definition one_dict_board : SharedBoard :=
  {| sb_walls := [];
     sb_dicts := λ a, match a with
                      | 0 => mkPiece (0, 1)%Z
                      | 1 => mkPiece (0, 0)%Z
                      | _ => mkPiece (1, 0)%Z
                      end;
     sb_players := [0; 0];
     sb_goals := [1; 2] |}.

Definition one_dict_game : SharedGame := shared_Game_init 2 2 one_dict_board.

(** The state after the move left, and the state after the move down from
    there. *)
Definition one_dict_left : SharedState :=
  mkSharedState [] (<[0 := mkPiece (0, 0)%Z]> (sh_dicts (sg_state one_dict_game)))
    [3; 5] [0; 0] [true; false].

Definition one_dict_down : SharedState :=
  mkSharedState [] (<[0 := mkPiece (1, 0)%Z]> (sh_dicts one_dict_left))
    [3; 5] [0; 0] [true; true].

(** Two players with a dict each on a 2x3 board: the first has reached its
    goal (0,0), the second slides right from (1,0) onto its goal (1,2). *)
Definition frozen_dicts : SharedState :=
  mkSharedState []
    (λ a, match a with
          | 0 => mkPiece (0, 0)%Z
          | 1 => mkPiece (1, 0)%Z
          | 2 => mkPiece (0, 0)%Z
          | _ => mkPiece (1, 2)%Z
          end)
    [2; 3] [0; 1] [true; false].

(** The shipped board as a game. *)
Definition main_game : Game := Game_init 15 15 main_board.

(** The state of the shipped board with the player on [c]. *)
Definition main_at (c : cell) (won : bool) : GameState :=
  mkGameState (bd_walls main_board) (bd_goals main_board) [mkPiece c] [won].

(** A 1x1 board: the one player stands on its goal, unflagged, and cannot
    move. *)
Definition stuck_game : Game :=
  Game_init 1 1 {| bd_walls := []; bd_players := [mkPiece (0, 0)%Z];
                   bd_goals := [mkPiece (0, 0)%Z] |}.


(** [str.upper] on a line of ASCII letters. *)
Fixpoint ascii_upper (s : string) : string :=
  match s with
  | EmptyString => EmptyString
  | String a s' =>
      let n := Ascii.nat_of_ascii a in
      String (if bool_decide (97 ≤ n ≤ 122) then Ascii.ascii_of_nat (n - 32) else a)
        (ascii_upper s')
  end.

(** Two players on a 2x3 board, each with its goal at the end of its row. *)
Definition two_rows_board : BoardDetails :=
  {| bd_walls := [];
     bd_players := [mkPiece (0, 0)%Z; mkPiece (1, 0)%Z];
     bd_goals := [mkPiece (0, 2)%Z; mkPiece (1, 2)%Z] |}.

(** Two players on a 3x3 board without walls, the goals out of their way. *)
Definition crossing_board : BoardDetails :=
  {| bd_walls := [];
     bd_players := [mkPiece (0, 0)%Z; mkPiece (2, 2)%Z];
     bd_goals := [mkPiece (2, 0)%Z; mkPiece (1, 0)%Z] |}.

(** * Properties *)

(** ** The outcome monad and the loops *)

Lemma bind_Ret_inv {A B : Type} (m : outcome A) (f : A → outcome B) (b : B) :
  m ≫= f = Ret b → ∃ a, m = Ret a ∧ f a = Ret b.
Proof. destruct m as [a| |]; simpl; [eauto | done | done]. Qed.

Lemma subscript_Ret {A : Type} (l : list A) (i : nat) (a : A) :
  subscript l i = Ret a ↔ l !! i = Some a.
Proof. unfold subscript. destruct (l !! i); split; congruence. Qed.

(** Undo one layer of [←] in a hypothesis [H : ... = Ret _]. *)
Tactic Notation "inv_bind" hyp(H) "as" simple_intropattern(x) ident(Hx) :=
  apply bind_Ret_inv in H; destruct H as (x & Hx & H).

Lemma for_each_inv {A S : Type} (I : S → Prop) (body : A → S → outcome S)
    (l : list A) (s s' : S) :
  I s →
  (∀ a s1 s2, a ∈ l → I s1 → body a s1 = Ret s2 → I s2) →
  for_each body l s = Ret s' → I s'.
Proof.
  revert s. induction l as [|a l IH]; intros s Hs Hbody Hrun; simpl in Hrun.
  - congruence.
  - inv_bind Hrun as s1 Hs1. apply (IH s1); [ | | done].
    + apply (Hbody a s); [left | done | done].
    + intros b t1 t2 Hb. apply Hbody. by right.
Qed.

Lemma for_each_app {A S : Type} (body : A → S → outcome S) (l1 l2 : list A) (s : S) :
  for_each body (l1 ++ l2) s = for_each body l1 s ≫= for_each body l2.
Proof.
  revert s. induction l1 as [|a l1 IH]; intros s; simpl; [done|].
  destruct (body a s); simpl; auto.
Qed.

(** ** is_valid_move *)

Lemma is_valid_move_true (self : Game) (row col : Z) (i : nat) :
  is_valid_move self row col i = Ret true →
  on_board self (row, col)
  ∧ occupied_by_other 0 (players (state self)) i (row, col) = false.
Proof.
  unfold is_valid_move, on_board, in_bounds. simpl.
  repeat case_bool_decide; simpl; try discriminate; intros Hv.
  destruct (occupied_by_other _ _ _ _); [discriminate|].
  repeat split; try lia; done.
Qed.

(** ** The slide of one player *)

Lemma slide_loop_spec (fuel : nat) (self : Game) (r_row c_col : Z) (i : nat)
    (cl : GameState) (cur : cell) (cl' : GameState) (cur' : cell) :
  slide_loop fuel self r_row c_col i cl cur = Ret (cl', cur') →
  walls cl' = walls cl ∧ goals cl' = goals cl ∧ players cl' = players cl
  ∧ (reached_goal cl' = reached_goal cl
     ∨ reached_goal cl' = <[i := true]> (reached_goal cl))
  ∧ (cur' = cur ∨ on_board self cur').
Proof.
  revert cur. induction fuel as [|fuel IH]; intros cur H; simpl in H; [done|].
  inv_bind H as valid Hvalid. destruct valid; simpl in H.
  - apply is_valid_move_true in Hvalid as [Hb _].
    inv_bind H as goal Hgoal. case_bool_decide.
    + inversion H; subst; simpl. repeat split; auto.
    + apply IH in H as (? & ? & ? & ? & [-> | ?]); repeat split; auto.
  - inversion H; subst. repeat split; auto.
Qed.

(** ** One round of the player loop *)

Lemma move_player_spec (self : Game) (r_row c_col : Z) (i : nat)
    (cl : GameState) (ns : list GameState) (cl' : GameState) (ns' : list GameState) :
  move_player self r_row c_col i (cl, ns) = Ret (cl', ns') →
  walls cl' = walls cl ∧ goals cl' = goals cl
  ∧ (reached_goal cl !! i = Some true → cl' = cl ∧ ns' = ns)
  ∧ (∀ j, j ≠ i → players cl' !! j = players cl !! j)
  ∧ (∀ j, j ≠ i → reached_goal cl' !! j = reached_goal cl !! j)
  ∧ length (players cl') = length (players cl)
  ∧ length (reached_goal cl') = length (reached_goal cl)
  ∧ (players cl' !! i = players cl !! i
     ∨ ∃ c, players cl' !! i = Some (mkPiece c) ∧ on_board self c)
  ∧ (ns' = ns ∨ ns' = ns ++ [cl']).
Proof.
  unfold move_player. intros H. inv_bind H as reached Hreached.
  apply subscript_Ret in Hreached. destruct reached.
  { inversion H; subst. repeat split; auto. }
  inv_bind H as player Hplayer. apply subscript_Ret in Hplayer.
  inv_bind H as [cl1 cur] Hslide. unfold slide in Hslide.
  apply slide_loop_spec in Hslide as (Hw & Hg & Hp & Hr & Hc).
  assert (Hlen : length (reached_goal cl1) = length (reached_goal cl)).
  { destruct Hr as [-> | ->]; [done | by rewrite length_insert]. }
  assert (Hfr : ∀ j, j ≠ i → reached_goal cl1 !! j = reached_goal cl !! j).
  { intros j Hj. destruct Hr as [-> | ->]; [done|].
    by rewrite list_lookup_insert_ne. }
  case_bool_decide as Hmoved; inversion H; subst; simpl.
  - repeat split; auto; try congruence.
    + intros j Hj. rewrite Hp. by rewrite list_lookup_insert_ne.
    + rewrite length_insert. congruence.
    + right. exists cur. split.
      * rewrite Hp. apply list_lookup_insert_eq. by eapply lookup_lt_Some.
      * destruct Hc as [-> | Hc]; [done | done].
  - repeat split; auto; try congruence. left. congruence.
Qed.

Lemma simulate_players_inv (P : GameState → Prop) (self : Game) (st : GameState)
    (r_row c_col : Z) (cl : GameState) (ns : list GameState) :
  P st →
  (∀ i cl0 ns0 cl1 ns1,
     i < length (players st) → P cl0 →
     move_player self r_row c_col i (cl0, ns0) = Ret (cl1, ns1) → P cl1) →
  simulate_players self st r_row c_col = Ret (cl, ns) →
  P cl ∧ Forall P ns.
Proof.
  intros Hst Hstep Hrun. unfold simulate_players in Hrun.
  apply (for_each_inv (λ acc, P acc.1 ∧ Forall P acc.2)) in Hrun; [done | | ].
  - simpl. split; [done | constructor].
  - intros i [cl0 ns0] [cl1 ns1] Hi [HP HF] Hmv. cbn [fst snd] in *.
    apply elem_of_seq in Hi.
    assert (P cl1) by (apply (Hstep i cl0 ns0 cl1 ns1); [lia | done | done]).
    split; [done|].
    apply move_player_spec in Hmv as (_ & _ & _ & _ & _ & _ & _ & _ & [-> | ->]);
      [done|].
    apply Forall_app. split; [done | by constructor].
Qed.

Lemma simulate_move_inv (P : GameState → Prop) (self : Game) (st : GameState)
    (r_row c_col : Z) (ns : list GameState) :
  P st →
  (∀ i cl0 ns0 cl1 ns1,
     i < length (players st) → P cl0 →
     move_player self r_row c_col i (cl0, ns0) = Ret (cl1, ns1) → P cl1) →
  simulate_move self st r_row c_col = Ret ns →
  Forall P ns.
Proof.
  intros Hst Hstep Hrun. unfold simulate_move in Hrun.
  inv_bind Hrun as [cl ns0] Hsim. inversion Hrun; subst.
  by eapply simulate_players_inv.
Qed.

(** ** Bounds and walls (C7) *)

Lemma move_player_on_board (self : Game) (r_row c_col : Z) (i : nat)
    (cl0 : GameState) (ns0 : list GameState) (cl1 : GameState) (ns1 : list GameState) :
  players_on_board self cl0 →
  move_player self r_row c_col i (cl0, ns0) = Ret (cl1, ns1) →
  players_on_board self cl1.
Proof.
  intros Hcl Hmv.
  apply move_player_spec in Hmv as (_ & _ & _ & Hother & _ & _ & _ & Hi & _).
  unfold players_on_board in *. rewrite Forall_lookup in Hcl |- *.
  intros j p Hj. destruct (decide (j = i)) as [-> | Hne].
  - destruct Hi as [Hi | (c & Hi & Hc)].
    + apply (Hcl i). congruence.
    + rewrite Hi in Hj. by inversion Hj.
  - apply (Hcl j). by rewrite <- Hother.
Qed.

(** C7: if every player of the input state stands inside the grid and off
    the walls, so does every player of every state that simulate_move
    returns; the walls the successors carry are those of the input. *)
Theorem simulate_move_on_board (self : Game) (st : GameState) (r_row c_col : Z)
    (new_states : list GameState) :
  players_on_board self st →
  simulate_move self st r_row c_col = Ret new_states →
  Forall (λ s, players_on_board self s ∧ walls s = walls st) new_states.
Proof.
  intros Hst Hrun.
  apply (simulate_move_inv (λ s, players_on_board self s ∧ walls s = walls st))
    in Hrun; [done | done | ].
  intros i cl0 ns0 cl1 ns1 _ [Hcl Hw] Hmv. split.
  - by eapply move_player_on_board.
  - apply move_player_spec in Hmv as (Hw' & _). congruence.
Qed.

Lemma simulate_move_on_board_witness :
  Forall (λ s, players_on_board scenario_A s ∧ walls s = [(0, 2)%Z])
    [mkGameState [(0, 2)%Z] [mkPiece (0, 1)%Z] [mkPiece (0, 1)%Z] [true]].
Proof.
  apply (simulate_move_on_board scenario_A (state scenario_A) 0 1).
  - constructor; [|constructor].
    apply (bool_decide_unpack (on_board scenario_A (0, 0)%Z)). vm_compute. exact I.
  - vm_compute. reflexivity.
Defined.

(** ** The move simulator with dicts as objects *)

Lemma shared_slide_loop_spec (fuel : nat) (self : SharedGame) (r_row c_col : Z)
    (i : nat) (cl : SharedState) (cur : cell) (cl' : SharedState) (cur' : cell) :
  shared_slide_loop fuel self r_row c_col i cl cur = Ret (cl', cur') →
  sh_walls cl' = sh_walls cl ∧ sh_dicts cl' = sh_dicts cl
  ∧ sh_goals cl' = sh_goals cl ∧ sh_players cl' = sh_players cl
  ∧ (sh_reached_goal cl' = sh_reached_goal cl
     ∨ sh_reached_goal cl' = <[i := true]> (sh_reached_goal cl)).
Proof.
  revert cur. induction fuel as [|fuel IH]; intros cur H; simpl in H; [done|].
  inv_bind H as valid Hvalid. destruct valid; simpl in H.
  - inv_bind H as goal Hgoal. case_bool_decide.
    + injection H as <- <-. simpl. repeat split; auto.
    + by apply IH in H.
  - injection H as <- <-. repeat split; auto.
Qed.

Lemma shared_move_player_spec (self : SharedGame) (r_row c_col : Z) (i : nat)
    (cl : SharedState) (ns : list SharedState) (cl' : SharedState)
    (ns' : list SharedState) :
  shared_move_player self r_row c_col i (cl, ns) = Ret (cl', ns') →
  sh_walls cl' = sh_walls cl ∧ sh_goals cl' = sh_goals cl
  ∧ sh_players cl' = sh_players cl
  ∧ (sh_reached_goal cl !! i = Some true → cl' = cl ∧ ns' = ns)
  ∧ (∀ j, j ≠ i → sh_reached_goal cl' !! j = sh_reached_goal cl !! j)
  ∧ (∀ a, sh_players cl !! i ≠ Some a → sh_dicts cl' a = sh_dicts cl a)
  ∧ (ns' = ns ∨ ns' = ns ++ [cl']).
Proof.
  unfold shared_move_player. intros H. inv_bind H as reached Hreached.
  apply subscript_Ret in Hreached. destruct reached.
  { injection H as <- <-. repeat split; auto. }
  inv_bind H as player Hplayer. apply subscript_Ret in Hplayer.
  inv_bind H as [cl1 cur] Hslide.
  apply shared_slide_loop_spec in Hslide as (Hw & Hd & Hg & Hp & Hr).
  assert (Hfr : ∀ j, j ≠ i → sh_reached_goal cl1 !! j = sh_reached_goal cl !! j).
  { intros j Hj. destruct Hr as [-> | ->]; [done|].
    by rewrite list_lookup_insert_ne. }
  case_bool_decide as Hmoved; injection H as <- <-; simpl.
  - repeat split; auto; try congruence.
    intros a Ha. rewrite Hd. apply fn_lookup_insert_ne. congruence.
  - repeat split; auto; congruence.
Qed.

Lemma shared_simulate_move_inv (P : SharedState → Prop) (self : SharedGame)
    (st : SharedState) (r_row c_col : Z) (ns : list SharedState) :
  P st →
  (∀ i cl0 ns0 cl1 ns1,
     i < length (sh_players st) → P cl0 →
     shared_move_player self r_row c_col i (cl0, ns0) = Ret (cl1, ns1) → P cl1) →
  shared_simulate_move self st r_row c_col = Ret ns →
  Forall P ns.
Proof.
  intros Hst Hstep Hrun. unfold shared_simulate_move in Hrun.
  inv_bind Hrun as [cl ns0] Hsim. injection Hrun as ->.
  unfold shared_simulate_players in Hsim.
  apply (for_each_inv (λ acc, P acc.1 ∧ Forall P acc.2)) in Hsim; [by destruct Hsim | | ].
  - simpl. split; [done | constructor].
  - intros i [cl0 ns0] [cl1 ns1] Hi [HP HF] Hmv. cbn [fst snd] in *.
    apply elem_of_seq in Hi.
    assert (P cl1) by (apply (Hstep i cl0 ns0 cl1 ns1); [lia | done | done]).
    split; [done|].
    apply shared_move_player_spec in Hmv as (_ & _ & _ & _ & _ & _ & [-> | ->]);
      [done|].
    apply Forall_app. split; [done | by constructor].
Qed.

(** ** Frozen players (C6) *)

Lemma shared_successor_frozen (s s' : SharedState) (i : nat) (a : addr) :
  sh_reached_goal s !! i = Some true →
  sh_players s !! i = Some a →
  (∀ j, j ≠ i → sh_players s !! j ≠ Some a) →
  shared_successor s s' →
  sh_reached_goal s' !! i = Some true ∧ sh_players s' = sh_players s
  ∧ sh_dicts s' a = sh_dicts s a.
Proof.
  intros Hi Ha Hown (self & r_row & c_col & ns & Hrun & Hin).
  apply (shared_simulate_move_inv
           (λ t, sh_reached_goal t !! i = Some true ∧ sh_players t = sh_players s
                 ∧ sh_dicts t a = sh_dicts s a))
    in Hrun.
  - rewrite Forall_forall in Hrun. by apply Hrun.
  - done.
  - intros j cl0 ns0 cl1 ns1 _ (Hr & Hp & Hd) Hmv.
    apply shared_move_player_spec in Hmv as (_ & _ & Hp' & Hskip & Hro & Hdo & _).
    destruct (decide (i = j)) as [<- | Hne].
    + destruct (Hskip Hr) as [-> _]. done.
    + rewrite Hro by done. split; [done|]. split; [congruence|].
      rewrite Hdo; [done|]. rewrite Hp. apply Hown. congruence.
Qed.

(** C6, amended: a player whose reached flag is true in a state, and whose
    dict sits in no other slot of the players list of that state, keeps the
    flag and its position in every descendant of that state. *)
Theorem frozen_goal_invariant (s s' : SharedState) (i : nat) (a : addr) :
  sh_reached_goal s !! i = Some true →
  sh_players s !! i = Some a →
  (∀ j, j ≠ i → sh_players s !! j ≠ Some a) →
  shared_descendant s s' →
  sh_reached_goal s' !! i = Some true
  ∧ players (shown s') !! i = players (shown s) !! i.
Proof.
  intros Hi Ha Hown Hdesc.
  assert (sh_reached_goal s' !! i = Some true ∧ sh_players s' = sh_players s
          ∧ sh_dicts s' a = sh_dicts s a) as (Hr & Hp & Hd).
  { induction Hdesc as [s | s t u Hst _ IH]; [done|].
    destruct (shared_successor_frozen s t i a Hi Ha Hown Hst) as (Hr & Hp & Hd).
    destruct IH as (Hr' & Hp' & Hd'); [done | congruence | | ].
    - intros j Hj. rewrite Hp. by apply Hown.
    - repeat split; congruence. }
  split; [done|]. simpl. rewrite !list_lookup_fmap, Hp, Ha. simpl. by rewrite Hd.
Qed.

Lemma frozen_goal_invariant_witness :
  sh_reached_goal
    (mkSharedState [] (<[1 := mkPiece (1, 2)%Z]> (sh_dicts frozen_dicts))
       [2; 3] [0; 1] [true; true]) !! 0 = Some true
  ∧ players
      (shown (mkSharedState [] (<[1 := mkPiece (1, 2)%Z]> (sh_dicts frozen_dicts))
                [2; 3] [0; 1] [true; true])) !! 0
    = players (shown frozen_dicts) !! 0.
Proof.
  apply (frozen_goal_invariant frozen_dicts _ 0 0).
  - reflexivity.
  - reflexivity.
  - intros [|[|j]] Hj; [done | done | done].
  - apply rtc_once. exists (mkSharedGame 2 3 frozen_dicts), 0%Z, 1%Z.
    eexists. split; [vm_compute; reflexivity | left].
Defined.

(** C6 as the design document has it, for every state, does not hold: with
    one dict in both slots of the players list ([one_dict_game]) the move
    left takes player 0 onto its goal (0, 0) and sets its flag; the move down
    from there is the turn of player 1 alone, and its write to the one dict
    takes player 0 along to (1, 0). *)
Lemma shared_dict_moves_frozen_player :
  shared_simulate_move one_dict_game (sg_state one_dict_game) 0 (-1)
  = Ret [one_dict_left]
  ∧ shared_simulate_move one_dict_game one_dict_left 1 0 = Ret [one_dict_down]
  ∧ sh_reached_goal one_dict_left !! 0 = Some true
  ∧ shared_descendant one_dict_left one_dict_down
  ∧ players (shown one_dict_left) !! 0 = Some (mkPiece (0, 0)%Z)
  ∧ players (shown one_dict_down) !! 0 = Some (mkPiece (1, 0)%Z)
  ∧ ¬ (sh_reached_goal one_dict_down !! 0 = Some true
       ∧ players (shown one_dict_down) !! 0 = players (shown one_dict_left) !! 0).
Proof.
  assert (shared_simulate_move one_dict_game one_dict_left 1 0 = Ret [one_dict_down])
    as Hdown by reflexivity.
  split; [reflexivity|]. split; [done|]. split; [done|]. split.
  { apply rtc_once. exists one_dict_game, 1%Z, 0%Z, [one_dict_down].
    split; [done | left]. }
  split; [done|]. split; [done|]. by intros [_ [=]].
Qed.

(** ** Where every slot has a dict of its own

    On a separate state the code with dicts as objects does what the
    definitions with a dict per slot say, and the states it returns are
    separate again. *)

Lemma outcome_rel_bind {A B A' B' : Type} (R : A → A' → Prop) (Q : B → B' → Prop)
    (x : outcome A) (y : outcome A') (f : A → outcome B) (g : A' → outcome B') :
  outcome_rel R x y →
  (∀ a a', R a a' → outcome_rel Q (f a) (g a')) →
  outcome_rel Q (x ≫= f) (y ≫= g).
Proof. destruct x, y; simpl; try done. intros HR Hfg. by apply Hfg. Qed.

Lemma for_each_rel {A S T : Type} (R : S → T → Prop) (f : A → S → outcome S)
    (g : A → T → outcome T) (l : list A) (s : S) (t : T) :
  R s t →
  (∀ a s t, a ∈ l → R s t → outcome_rel R (f a s) (g a t)) →
  outcome_rel R (for_each f l s) (for_each g l t).
Proof.
  revert s t. induction l as [|a l IH]; intros s t Hst Hfg; simpl; [done|].
  apply (outcome_rel_bind R); [apply Hfg; [left | done]|].
  intros s' t' Hst'. apply IH; [done|]. intros b s0 t0 Hb. apply Hfg. by right.
Qed.

Lemma subscript_fmap_rel {A B : Type} (f : A → B) (l : list A) (i : nat) :
  outcome_rel (λ a b, b = f a ∧ l !! i = Some a) (subscript l i)
    (subscript (f <$> l) i).
Proof. unfold subscript. rewrite list_lookup_fmap. by destruct (l !! i). Qed.

Lemma shared_slide_loop_shown (fuel : nat) (self : SharedGame) (r_row c_col : Z)
    (i : nat) (cl : SharedState) (cur : cell) :
  outcome_rel (λ x y, y = (shown x.1, x.2) ∧ sh_dicts x.1 = sh_dicts cl
                      ∧ sh_players x.1 = sh_players cl ∧ sh_goals x.1 = sh_goals cl)
    (shared_slide_loop fuel self r_row c_col i cl cur)
    (slide_loop fuel (shown_game self) r_row c_col i (shown cl) cur).
Proof.
  revert cur. induction fuel as [|fuel IH]; intros cur; simpl; [done|].
  unfold shared_is_valid_move.
  destruct (is_valid_move _ _ _ _) as [[|]| |]; simpl; try done.
  eapply outcome_rel_bind; [apply subscript_fmap_rel|].
  intros goal ? [-> _]. simpl. case_bool_decide; [done|]. apply IH.
Qed.

Lemma shown_write (cl : SharedState) (i : nat) (player : addr) (c : cell) :
  separate cl → sh_players cl !! i = Some player →
  shown (mkSharedState (sh_walls cl) (<[player := mkPiece c]> (sh_dicts cl))
           (sh_goals cl) (sh_players cl) (sh_reached_goal cl))
  = mkGameState (walls (shown cl)) (goals (shown cl))
      (<[i := mkPiece c]> (players (shown cl))) (reached_goal (shown cl)).
Proof.
  intros [Hnodup Hapart] Hi. unfold shown. simpl. f_equal.
  - apply list_fmap_ext. intros j g Hg. apply fn_lookup_insert_ne.
    intros ->. apply (Hapart g); by eapply list_elem_of_lookup_2.
  - apply list_eq. intros j. destruct (decide (j = i)) as [->|Hne].
    + rewrite list_lookup_insert_eq by (rewrite length_fmap; by eapply lookup_lt_Some).
      rewrite list_lookup_fmap, Hi. simpl. by rewrite fn_lookup_insert.
    + rewrite list_lookup_insert_ne by done. rewrite !list_lookup_fmap.
      destruct (sh_players cl !! j) as [b|] eqn:Hj; [|done]. simpl. f_equal.
      apply fn_lookup_insert_ne. intros ->.
      apply Hne. symmetry. by eapply NoDup_lookup.
Qed.

Lemma shared_move_player_shown (self : SharedGame) (r_row c_col : Z) (i : nat)
    (cl : SharedState) (ns : list SharedState) :
  separate cl →
  outcome_rel (λ x y, y = (shown x.1, shown <$> x.2) ∧ separate x.1
                      ∧ sh_players x.1 = sh_players cl)
    (shared_move_player self r_row c_col i (cl, ns))
    (move_player (shown_game self) r_row c_col i (shown cl, shown <$> ns)).
Proof.
  intros Hsep. unfold shared_move_player, move_player.
  cbn [shown reached_goal players].
  destruct (subscript (sh_reached_goal cl) i) as [[|]| |];
    cbn [mbind outcome_bind outcome_rel fst snd]; try done.
  eapply outcome_rel_bind; [apply subscript_fmap_rel|].
  intros player ? [-> Hi]. unfold slide.
  eapply outcome_rel_bind; [apply shared_slide_loop_shown|].
  intros [cl1 cur] [cl1' cur'] ([= -> ->] & Hd & Hp & Hg).
  cbn [fst snd] in *.
  assert (separate cl1) as Hsep1.
  { destruct Hsep as [? ?]. split; rewrite Hp; [done|]. by rewrite Hg. }
  rewrite <- Hd, <- Hp in *.
  case_bool_decide as Hmoved; cbn [outcome_rel fst snd]; [|done].
  split; [|by split]. rewrite fmap_app. cbn [fmap list_fmap].
  by rewrite (shown_write cl1 i) by done.
Qed.

Lemma shared_simulate_players_shown (self : SharedGame) (st : SharedState)
    (r_row c_col : Z) :
  separate st →
  outcome_rel (λ x y, y = (shown x.1, shown <$> x.2) ∧ separate x.1
                      ∧ Forall separate x.2)
    (shared_simulate_players self st r_row c_col)
    (simulate_players (shown_game self) (shown st) r_row c_col).
Proof.
  intros Hsep. unfold shared_simulate_players, simulate_players.
  cbn [shown players]. rewrite length_fmap.
  apply (for_each_rel (λ x y, y = (shown x.1, shown <$> x.2) ∧ separate x.1
                              ∧ Forall separate x.2)).
  - done.
  - intros i [cl ns] ? _ (-> & Hcl & Hns). cbn [fst snd] in *.
    pose proof (shared_move_player_shown self r_row c_col i cl ns Hcl) as Hrel.
    destruct (shared_move_player _ _ _ _ _) as [[cl' ns']| |] eqn:Hmv;
      destruct (move_player _ _ _ _ _) as [[cl2 ns2]| |]; try done.
    cbn [outcome_rel fst snd] in *. destruct Hrel as ([= -> ->] & Hcl' & _).
    split; [done|]. split; [done|].
    apply shared_move_player_spec in Hmv as (_ & _ & _ & _ & _ & _ & [-> | ->]);
      [done|].
    apply Forall_app. split; [done | by constructor].
Qed.

(** On a separate state simulate_move with dicts as objects returns, raises
    or runs on as the definition with a dict per slot does, the states it
    returns show the states that one returns, and they are separate. *)
Lemma shared_simulate_move_shown (self : SharedGame) (st : SharedState)
    (r_row c_col : Z) :
  separate st →
  outcome_rel (λ ns ns', ns' = shown <$> ns ∧ Forall separate ns)
    (shared_simulate_move self st r_row c_col)
    (simulate_move (shown_game self) (shown st) r_row c_col).
Proof.
  intros Hsep. unfold shared_simulate_move, simulate_move.
  eapply outcome_rel_bind; [by apply shared_simulate_players_shown|].
  intros [cl ns] [cl' ns'] ([= -> ->] & _ & Hns). done.
Qed.

(** Players that stand on different cells have different dicts. *)
Lemma distinct_cells_distinct_dicts (st : SharedState) :
  NoDup (position <$> players (shown st)) → NoDup (sh_players st).
Proof.
  cbn [shown players]. rewrite <- list_fmap_compose. apply NoDup_fmap_1.
Qed.

Lemma shared_Game_init_shown (n_rows n_cols : Z) (bd : SharedBoard) :
  shown_game (shared_Game_init n_rows n_cols bd)
  = Game_init n_rows n_cols (shown_board bd).
Proof.
  unfold shown_game, shared_Game_init, Game_init, shown, shown_board.
  cbn [sg_rows sg_cols sg_state sh_walls sh_dicts sh_goals sh_players sh_reached_goal
       bd_walls bd_players bd_goals].
  rewrite length_fmap. f_equal. f_equal.
  - rewrite <- list_fmap_compose. apply list_fmap_ext. intros _ a _.
    unfold compose. f_equal. zify. Z.to_euclidean_division_equations. lia.
  - rewrite <- list_fmap_compose. apply list_fmap_ext. intros _ a _.
    unfold compose. f_equal. zify. Z.to_euclidean_division_equations. lia.
Qed.

(** The state that Game.__init__ makes from a board whose players stand on
    different cells is separate. *)
Lemma shared_Game_init_separate (n_rows n_cols : Z) (bd : SharedBoard) :
  NoDup (position <$> bd_players (shown_board bd)) →
  separate (sg_state (shared_Game_init n_rows n_cols bd)).
Proof.
  intros Hnodup. split; simpl.
  - apply NoDup_fmap_2; [intros a b; lia|].
    simpl in Hnodup. rewrite <- list_fmap_compose in Hnodup.
    by eapply NoDup_fmap_1.
  - intros a [b [-> _]]%list_elem_of_fmap [c [Hc _]]%list_elem_of_fmap. lia.
Qed.

(** ** heapq keeps the heap order

    For any [<] that is a strict weak order. *)

Ltac div_lia := zify; Z.to_euclidean_division_equations; lia.

Section heapq_facts.
Context {A : Type} (lt : A → A → bool).
Hypothesis lt_irrefl : ∀ a, lt a a = false.
Hypothesis lt_trans : ∀ a b c, lt a b = true → lt b c = true → lt a c = true.
Hypothesis le_trans : ∀ a b c, lt b a = false → lt c b = false → lt c a = false.

Lemma lt_asym a b : lt a b = true → lt b a = false.
Proof.
  intros Hab. destruct (lt b a) eqn:Hba; [|done].
  rewrite <- (lt_irrefl a). symmetry. by eapply lt_trans.
Qed.

Lemma lt_le_trans a b c : lt a b = true → lt c b = false → lt c a = false.
Proof.
  intros Hab Hcb. destruct (lt c a) eqn:Hca; [|done].
  rewrite <- Hcb. symmetry. by eapply lt_trans.
Qed.

Lemma heap_ordered_root (heap : list A) (x : A) :
  heap_ordered lt heap → heap !! 0 = Some x →
  ∀ j y, heap !! j = Some y → lt y x = false.
Proof.
  intros Hh H0 j. induction (lt_wf j) as [j _ IH]. intros y Hj.
  destruct (decide (j = 0)) as [-> | Hne].
  { rewrite H0 in Hj. inversion Hj; subst. apply lt_irrefl. }
  assert (Hp : (j - 1) / 2 < j) by div_lia.
  destruct (heap !! ((j - 1) / 2)) as [p|] eqn:Hpar.
  - apply (le_trans x p y).
    + by apply (IH ((j - 1) / 2)).
    + apply (Hh j); [lia | done | done].
  - apply lookup_ge_None in Hpar. apply lookup_lt_Some in Hj. lia.
Qed.

Lemma hole_fill (heap : list A) (newitem : A) (pos : nat) :
  hole_ok lt heap newitem pos →
  (0 < pos → ∀ parent, heap !! ((pos - 1) / 2) = Some parent →
     lt newitem parent = false) →
  heap_ordered lt (<[pos := newitem]> heap).
Proof.
  intros [He Hb Ha] Hpar j Hj x y Hx Hy.
  apply list_lookup_insert_Some in Hx, Hy.
  destruct Hy as [(-> & <- & Hlen) | [Hne Hy]].
  - destruct Hx as [(Heq & _) | [_ Hx]]; [lia|]. by apply Hpar.
  - destruct Hx as [(Heq & <- & _) | [Hne' Hx]].
    + by apply (Hb j).
    + by apply (He j).
Qed.

Lemma hole_up (heap : list A) (newitem parent : A) (pos : nat) :
  hole_ok lt heap newitem pos → 0 < pos → pos < length heap →
  heap !! ((pos - 1) / 2) = Some parent → lt newitem parent = true →
  hole_ok lt (<[pos := parent]> heap) newitem ((pos - 1) / 2).
Proof.
  intros [He Hb Ha] Hpos Hlen Hpar Hlt.
  assert (Hpp : (pos - 1) / 2 < pos) by div_lia.
  split.
  - intros j Hj Hj1 Hj2 x y Hx Hy.
    apply list_lookup_insert_Some in Hx, Hy.
    destruct Hy as [(-> & <- & _) | [Hne Hy]]; [done|].
    destruct Hx as [(Heq & <- & _) | [Hne' Hx]].
    + by eapply (Ha j).
    + by apply (He j).
  - intros c y Hc Hcp Hy.
    apply list_lookup_insert_Some in Hy.
    destruct Hy as [(-> & <- & _) | [Hne Hy]].
    + by apply lt_asym.
    + apply (lt_le_trans newitem parent y); [done|].
      apply (He c); [done | done | lia | by rewrite Hcp | done].
  - intros c x y Hp0 Hc Hcp Hx Hy.
    rewrite list_lookup_insert_ne in Hx by lia.
    assert (Hpx : lt parent x = false).
    { apply (He ((pos - 1) / 2)); [done | lia | lia | done | done]. }
    apply list_lookup_insert_Some in Hy.
    destruct Hy as [(-> & <- & _) | [Hne Hy]]; [done|].
    apply (le_trans x parent y); [done|].
    apply (He c); [done | done | lia | by rewrite Hcp | done].
Qed.

Lemma siftdown_loop_ordered (fuel : nat) (heap : list A) (newitem : A) (pos : nat) :
  pos ≤ fuel → pos < length heap → hole_ok lt heap newitem pos →
  heap_ordered lt (siftdown_loop lt fuel heap newitem 0 pos).
Proof.
  revert heap pos. induction fuel as [|fuel IH]; intros heap pos Hfuel Hlen Hok;
    cbn [siftdown_loop].
  - apply hole_fill; [done | lia].
  - case_bool_decide as Hpos; [|apply hole_fill; [done | lia]].
    destruct (heap !! ((pos - 1) / 2)) as [parent|] eqn:Hpar.
    + destruct (lt newitem parent) eqn:Hlt.
      * apply IH; [lia | rewrite length_insert; lia | by apply hole_up].
      * apply hole_fill; [done|]. intros _ p Hp. congruence.
    + apply hole_fill; [done|]. intros _ p Hp. congruence.
Qed.

Lemma siftdown_loop_perm (fuel : nat) (heap : list A) (newitem : A) (startpos pos : nat) :
  pos < length heap →
  siftdown_loop lt fuel heap newitem startpos pos ≡ₚ <[pos := newitem]> heap.
Proof.
  revert heap pos. induction fuel as [|fuel IH]; intros heap pos Hlen;
    cbn [siftdown_loop]; [done|].
  case_bool_decide as Hpos; [|done].
  destruct (heap !! ((pos - 1) / 2)) as [parent|] eqn:Hpar; [|done].
  destruct (lt newitem parent); [|done].
  rewrite IH by (rewrite length_insert; lia).
  assert (Hne : (pos - 1) / 2 ≠ pos) by div_lia.
  rewrite <- (list_insert_insert_eq heap pos parent newitem).
  apply Permutation_insert_swap.
  - by apply list_lookup_insert_eq.
  - by rewrite list_lookup_insert_ne.
Qed.

Lemma heap_ordered_app_l (h1 h2 : list A) :
  heap_ordered lt (h1 ++ h2) → heap_ordered lt h1.
Proof.
  intros Hh j Hj x y Hx Hy.
  apply (Hh j Hj); by apply lookup_app_l_Some.
Qed.

Lemma hole_ok_snoc (heap : list A) (item : A) :
  heap_ordered lt heap → hole_ok lt (heap ++ [item]) item (length heap).
Proof.
  intros Hh. split.
  - intros j Hj Hne Hpar x y Hx Hy.
    assert (j < length heap).
    { apply lookup_lt_Some in Hy. rewrite length_app in Hy. simpl in Hy. lia. }
    rewrite lookup_app_l in Hx, Hy by div_lia. by apply (Hh j).
  - intros c y Hc Hcp Hy. apply lookup_lt_Some in Hy.
    rewrite length_app in Hy. simpl in Hy. div_lia.
  - intros c x y _ Hc Hcp _ Hy. apply lookup_lt_Some in Hy.
    rewrite length_app in Hy. simpl in Hy. div_lia.
Qed.

Lemma heappush_ordered (heap : list A) (item : A) :
  heap_ordered lt heap → heap_ordered lt (heappush lt heap item).
Proof.
  intros Hh. unfold heappush, siftdown.
  rewrite length_app. cbn [length]. replace (length heap + 1 - 1) with (length heap) by lia.
  rewrite lookup_app_r, Nat.sub_diag by done. cbn [lookup list_lookup].
  apply siftdown_loop_ordered; [done | rewrite length_app; simpl; lia | ].
  by apply hole_ok_snoc.
Qed.

Lemma heappush_perm (heap : list A) (item : A) :
  heappush lt heap item ≡ₚ item :: heap.
Proof.
  unfold heappush, siftdown.
  rewrite length_app. cbn [length]. replace (length heap + 1 - 1) with (length heap) by lia.
  rewrite lookup_app_r, Nat.sub_diag by done. cbn [lookup list_lookup].
  rewrite siftdown_loop_perm by (rewrite length_app; simpl; lia).
  rewrite list_insert_id; [by rewrite Permutation_app_comm|].
  by rewrite lookup_app_r, Nat.sub_diag.
Qed.

Lemma gap_down (heap : list A) (pos childpos : nat) (child : A) :
  gap_ok lt heap pos → (childpos - 1) / 2 = pos → 0 < childpos →
  heap !! childpos = Some child →
  (∀ j y, 0 < j → (j - 1) / 2 = pos → j ≠ childpos → heap !! j = Some y →
     lt y child = false) →
  gap_ok lt (<[pos := child]> heap) childpos.
Proof.
  intros [He Ha] Hcp Hc0 Hchild Hother.
  assert (Hlt : pos < childpos) by div_lia.
  split.
  - intros j Hj Hj1 Hj2 x y Hx Hy.
    apply list_lookup_insert_Some in Hx, Hy.
    destruct Hy as [(-> & <- & _) | [Hne Hy]].
    + destruct Hx as [(Heq & _) | [_ Hx]]; [div_lia|].
      by eapply (Ha childpos).
    + destruct Hx as [(Heq & <- & _) | [Hne' Hx]].
      * by apply (Hother j).
      * by apply (He j).
  - intros c x y _ Hc Hcc Hx Hy.
    rewrite Hcp in Hx. rewrite list_lookup_insert_eq in Hx
      by (apply lookup_lt_Some in Hchild; lia).
    inversion Hx; subst x.
    rewrite list_lookup_insert_ne in Hy by div_lia.
    apply (He c); [done | div_lia | div_lia | by rewrite Hcc | done].
Qed.

Lemma siftup_loop_gap (fuel : nat) (heap : list A) (endpos pos : nat)
    (heap' : list A) (pos' : nat) :
  endpos = length heap → endpos - pos ≤ fuel → pos < endpos → gap_ok lt heap pos →
  siftup_loop lt fuel heap endpos pos = (heap', pos') →
  gap_ok lt heap' pos' ∧ length heap' = length heap ∧ pos' < endpos
  ∧ endpos ≤ 2 * pos' + 1.
Proof.
  revert heap pos. induction fuel as [|fuel IH]; intros heap pos Hend Hfuel Hpos Hgap;
    cbn [siftup_loop]; [lia|].
  case_bool_decide as Hc; [|intros [= <- <-]; split; [done | split; [done | lia]]].
  destruct (heap !! (2 * pos + 1)) as [lchild|] eqn:Hl;
    [|apply lookup_ge_None in Hl; lia].
  case_bool_decide as Hr.
  - destruct (heap !! (2 * pos + 1 + 1)) as [rchild|] eqn:Hrc;
      [|apply lookup_ge_None in Hrc; lia].
    destruct (lt lchild rchild) eqn:Hlr; cbn [negb].
    + rewrite Hl. intros Hrun.
      apply IH in Hrun; [ | by rewrite length_insert | lia | lia | ].
      { by rewrite length_insert in Hrun. }
      apply gap_down; [done | div_lia | lia | done | ].
      intros j y Hj Hjp Hne Hy.
      assert (j = 2 * pos + 1 + 1) as -> by div_lia.
      rewrite Hrc in Hy. inversion Hy; subst. by apply lt_asym.
    + rewrite Hrc. intros Hrun.
      apply IH in Hrun; [ | by rewrite length_insert | lia | lia | ].
      { by rewrite length_insert in Hrun. }
      apply gap_down; [done | div_lia | lia | done | ].
      intros j y Hj Hjp Hne Hy.
      assert (j = 2 * pos + 1) as -> by div_lia.
      rewrite Hl in Hy. by inversion Hy; subst.
  - rewrite Hl. intros Hrun.
    apply IH in Hrun; [ | by rewrite length_insert | lia | lia | ].
    { by rewrite length_insert in Hrun. }
    apply gap_down; [done | div_lia | lia | done | ].
    intros j y Hj Hjp Hne Hy. apply lookup_lt_Some in Hy. div_lia.
Qed.

Lemma siftup_loop_perm (fuel : nat) (heap : list A) (endpos pos : nat)
    (heap' : list A) (pos' : nat) (v : A) :
  pos < length heap →
  siftup_loop lt fuel heap endpos pos = (heap', pos') →
  <[pos' := v]> heap' ≡ₚ <[pos := v]> heap ∧ pos' < length heap'.
Proof.
  revert heap pos. induction fuel as [|fuel IH]; intros heap pos Hpos;
    cbn [siftup_loop]; [by intros [= <- <-]|].
  case_bool_decide as Hc; [|by intros [= <- <-]].
  set (childpos := if bool_decide (2 * pos + 1 + 1 < endpos) then _ else _).
  assert (Hcp : childpos = 2 * pos + 1 ∨ childpos = 2 * pos + 1 + 1).
  { unfold childpos. case_bool_decide; [|by left].
    destruct (heap !! (2 * pos + 1)); [|by left].
    destruct (heap !! (2 * pos + 1 + 1)); [|by left].
    destruct (negb _); [by right | by left]. }
  clearbody childpos.
  destruct (heap !! childpos) as [child|] eqn:Hchild; [|by intros [= <- <-]].
  intros Hrun. apply IH in Hrun as [Hperm Hlen];
    [|rewrite length_insert; by eapply lookup_lt_Some].
  split; [|done]. rewrite Hperm.
  rewrite <- (list_insert_insert_eq heap pos child v).
  apply Permutation_insert_swap.
  - by apply list_lookup_insert_eq.
  - rewrite list_lookup_insert_ne by lia. done.
Qed.

Lemma list_pop_Some (l : list A) (a : A) (r : list A) :
  list_pop l = Some (a, r) ↔ l = r ++ [a].
Proof.
  unfold list_pop. split.
  - destruct (reverse l) as [|b t] eqn:Hrev; [done|]. intros [= <- <-].
    rewrite <- (reverse_involutive l), Hrev. by rewrite reverse_cons.
  - intros ->. rewrite reverse_app, reverse_singleton. simpl.
    by rewrite reverse_involutive.
Qed.

Lemma gap_ok_root (heap : list A) (v : A) :
  heap_ordered lt heap → gap_ok lt (<[0 := v]> heap) 0.
Proof.
  intros Hh. split; [|lia].
  intros j Hj Hne Hpar x y Hx Hy.
  rewrite list_lookup_insert_ne in Hx, Hy by done. by apply (Hh j).
Qed.

Lemma siftup_root_ordered (heap : list A) (v : A) :
  heap_ordered lt heap → heap ≠ [] → heap_ordered lt (siftup lt (<[0 := v]> heap) 0).
Proof.
  intros Hh Hne. unfold siftup.
  assert (Hlen : 0 < length heap) by (destruct heap; [done | simpl; lia]).
  rewrite list_lookup_insert_eq by done.
  destruct (siftup_loop _ _ _ _ _) as [heap' pos'] eqn:Hrun.
  apply siftup_loop_gap in Hrun as (Hgap & Hl & Hpos & Hleaf);
    [ | done | lia | by rewrite length_insert | by apply gap_ok_root].
  rewrite !length_insert in *.
  unfold siftdown. rewrite list_lookup_insert_eq by lia.
  apply siftdown_loop_ordered; [done | rewrite length_insert; lia | ].
  destruct Hgap as [He Ha]. split.
  - intros j Hj Hj1 Hj2 x y Hx Hy.
    rewrite list_lookup_insert_ne in Hx, Hy by done. by apply (He j).
  - intros c y Hc Hcp Hy. apply lookup_lt_Some in Hy.
    rewrite length_insert in Hy. div_lia.
  - intros c x y _ Hc Hcp _ Hy. apply lookup_lt_Some in Hy.
    rewrite length_insert in Hy. div_lia.
Qed.

Lemma siftup_root_perm (heap : list A) (v : A) :
  heap ≠ [] → siftup lt (<[0 := v]> heap) 0 ≡ₚ <[0 := v]> heap.
Proof.
  intros Hne. unfold siftup.
  assert (Hlen : 0 < length heap) by (destruct heap; [done | simpl; lia]).
  rewrite list_lookup_insert_eq by done.
  destruct (siftup_loop _ _ _ _ _) as [heap' pos'] eqn:Hrun.
  apply (siftup_loop_perm _ _ _ _ _ _ v) in Hrun as [Hperm Hpos];
    [|by rewrite length_insert].
  unfold siftdown. rewrite list_lookup_insert_eq by done.
  rewrite siftdown_loop_perm by (by rewrite length_insert).
  rewrite list_insert_insert_eq, Hperm. by rewrite list_insert_insert_eq.
Qed.

Lemma heappop_perm (heap : list A) (item : A) (rest : list A) :
  heappop lt heap = Some (item, rest) → item :: rest ≡ₚ heap.
Proof.
  unfold heappop.
  destruct (list_pop heap) as [[lastelt heap0]|] eqn:Hpop; [|done].
  apply list_pop_Some in Hpop as ->.
  destruct heap0 as [|returnitem heap1]; intros [= <- <-]; [done|].
  pose proof (siftup_root_perm (returnitem :: heap1) lastelt) as Hp.
  change (<[0 := lastelt]> (returnitem :: heap1)) with (lastelt :: heap1) in Hp.
  rewrite Hp by done. simpl.
  by rewrite (Permutation_app_comm heap1).
Qed.

Lemma heappop_spec (heap : list A) (item : A) (rest : list A) :
  heap_ordered lt heap → heappop lt heap = Some (item, rest) →
  heap_ordered lt rest ∧ item :: rest ≡ₚ heap ∧ heap !! 0 = Some item.
Proof.
  intros Hh. unfold heappop.
  destruct (list_pop heap) as [[lastelt heap0]|] eqn:Hpop; [|done].
  apply list_pop_Some in Hpop as ->.
  destruct heap0 as [|returnitem heap1].
  - intros [= <- <-]. split; [|done]. intros j Hj x y Hx. by destruct ((j-1)/2).
  - intros [= <- <-]. split; [|split; [|done]].
    + apply (siftup_root_ordered (returnitem :: heap1)); [|done].
      by eapply heap_ordered_app_l.
    + pose proof (siftup_root_perm (returnitem :: heap1) lastelt) as Hp.
      change (<[0 := lastelt]> (returnitem :: heap1)) with (lastelt :: heap1) in Hp.
      rewrite Hp by done. simpl.
      by rewrite (Permutation_app_comm heap1).
Qed.

Lemma heappop_min (heap : list A) (item : A) (rest : list A) :
  heap_ordered lt heap → heappop lt heap = Some (item, rest) →
  ∀ y, y ∈ rest → lt y item = false.
Proof.
  intros Hh Hpop y Hy.
  destruct (heappop_spec heap item rest Hh Hpop) as (_ & Hperm & H0).
  assert (Hin : y ∈ heap) by (rewrite <- Hperm; by right).
  apply list_elem_of_lookup in Hin as [j Hj].
  by apply (heap_ordered_root heap item Hh H0 j).
Qed.

Lemma heappop_None (heap : list A) : heappop lt heap = None ↔ heap = [].
Proof.
  unfold heappop. split.
  - destruct (list_pop heap) as [[lastelt heap0]|] eqn:Hpop.
    + by destruct heap0.
    + intros _. unfold list_pop in Hpop.
      destruct (reverse heap) eqn:Hrev; [|done].
      by rewrite <- (reverse_involutive heap), Hrev.
  - by intros ->.
Qed.

End heapq_facts.

(** The model on a queue with ties, as CPython's heapq leaves it: items are
    compared by their first component only. *)
Example heappush_ties :
  foldl (heappush (λ a b : nat * nat, bool_decide (a.1 < b.1))) []
    [(2, 0); (1, 1); (2, 2); (0, 3); (1, 4); (0, 5)]
  = [(0, 3); (1, 1); (0, 5); (2, 0); (1, 4); (2, 2)].
Proof. vm_compute. reflexivity. Qed.

Example heappop_ties :
  heappop (λ a b : nat * nat, bool_decide (a.1 < b.1))
    [(0, 3); (1, 1); (0, 5); (2, 0); (1, 4); (2, 2)]
  = Some ((0, 3), [(0, 5); (1, 1); (2, 2); (2, 0); (1, 4)]).
Proof. vm_compute. reflexivity. Qed.

(** ** The order on queue entries *)

Lemma entry_lt_irrefl (a : entry) : entry_lt a a = false.
Proof.
  destruct a as [[cost st] path]. unfold entry_lt, GameState_lt.
  repeat case_bool_decide; lia.
Qed.

Lemma entry_lt_trans (a b c : entry) :
  entry_lt a b = true → entry_lt b c = true → entry_lt a c = true.
Proof.
  destruct a as [[ca sa] pa], b as [[cb sb] pb], c as [[cc sc] pc].
  unfold entry_lt, GameState_lt.
  repeat case_bool_decide; try done; lia.
Qed.

Lemma entry_le_trans (a b c : entry) :
  entry_lt b a = false → entry_lt c b = false → entry_lt c a = false.
Proof.
  destruct a as [[ca sa] pa], b as [[cb sb] pb], c as [[cc sc] pc].
  unfold entry_lt, GameState_lt.
  repeat case_bool_decide; try done; lia.
Qed.

Lemma entry_heappush_ordered (heap : list entry) (item : entry) :
  heap_ordered entry_lt heap → heap_ordered entry_lt (heappush entry_lt heap item).
Proof.
  apply heappush_ordered; [apply entry_lt_irrefl | apply entry_lt_trans
                          | apply entry_le_trans].
Qed.

Lemma entry_heappop_spec (heap : list entry) (item : entry) (rest : list entry) :
  heap_ordered entry_lt heap → heappop entry_lt heap = Some (item, rest) →
  heap_ordered entry_lt rest ∧ item :: rest ≡ₚ heap ∧ heap !! 0 = Some item.
Proof.
  apply heappop_spec; [apply entry_lt_irrefl | apply entry_lt_trans
                      | apply entry_le_trans].
Qed.

Lemma entry_heappop_min (heap : list entry) (item : entry) (rest : list entry) :
  heap_ordered entry_lt heap → heappop entry_lt heap = Some (item, rest) →
  ∀ y, y ∈ rest → entry_lt y item = false.
Proof.
  apply heappop_min; [apply entry_lt_irrefl | apply entry_lt_trans
                     | apply entry_le_trans].
Qed.

(** ** The queue of ucs is a heap *)

Lemma heap_ordered_singleton {A : Type} (lt : A → A → bool) (a : A) :
  heap_ordered lt [a].
Proof.
  intros j Hj x y _ Hy. apply lookup_lt_Some in Hy. simpl in Hy. lia.
Qed.

Lemma push_unvisited_ordered (visited : gset key) (cost : nat) (st : GameState)
    (path : list GameState) (pq : list entry) (ns : list GameState) :
  heap_ordered entry_lt pq →
  heap_ordered entry_lt (push_unvisited visited cost st path pq ns).
Proof.
  unfold push_unvisited. revert pq. induction ns as [|s ns IH]; intros pq Hpq; [done|].
  simpl. apply IH. case_bool_decide; [|done].
  by apply entry_heappush_ordered.
Qed.

Lemma push_unvisited_perm (visited : gset key) (cost : nat) (st : GameState)
    (path : list GameState) (pq : list entry) (ns : list GameState) :
  push_unvisited visited cost st path pq ns
  ≡ₚ pq ++ map (λ s, (cost + 1, s, path ++ [st]))
             (filter (λ s, get_state s ∉ visited) ns).
Proof.
  unfold push_unvisited. revert pq. induction ns as [|s ns IH]; intros pq; simpl.
  { by rewrite app_nil_r. }
  rewrite IH. rewrite filter_cons. case_bool_decide as Hs.
  - destruct (decide _) as [_|Hn]; [|contradiction].
    rewrite heappush_perm. simpl. by rewrite Permutation_middle.
  - destruct (decide _) as [Hy|_]; [contradiction | done].
Qed.

Lemma ucs_body_ordered (self : Game) (ls ls' : ucs_state) :
  heap_ordered entry_lt ls.1.1.1 → ucs_body self ls = Ret (Continue ls') →
  heap_ordered entry_lt ls'.1.1.1.
Proof.
  destruct ls as [[[pq visited] vs] nv]. simpl. intros Hpq Hbody.
  unfold ucs_body in Hbody.
  destruct (heappop entry_lt pq) as [[[[cost st] path] rest]|] eqn:Hpop; [|done].
  apply entry_heappop_spec in Hpop as (Hrest & _ & _); [|done].
  destruct (all (reached_goal st)); [done|].
  case_bool_decide.
  { by inversion Hbody; subst. }
  inv_bind Hbody as pq' Hpush. injection Hbody as <-. cbn [fst].
  revert Hpush. unfold push_unvisited_successors.
  apply (for_each_inv (heap_ordered entry_lt)); [done|].
  intros [mr mc] q1 q2 _ Hq1 Hmv. inv_bind Hmv as ns Hns.
  inversion Hmv; subst. by apply push_unvisited_ordered.
Qed.

Lemma ucs_reachable_ordered (self : Game) (ls : ucs_state) :
  ucs_reachable self ls → heap_ordered entry_lt ls.1.1.1.
Proof.
  induction 1 as [|ls ls' _ IH Hbody].
  - apply heap_ordered_singleton.
  - by eapply ucs_body_ordered.
Qed.

(** ** The tie-break of ucs (C5) *)

(** C5: in every loop state that ucs reaches, the entry that heappop hands
    out has, among the entries of its own cost that stay in the queue, the
    fewest players with a true reached flag: of two entries of equal cost the
    one with strictly fewer reached players leaves the queue first. *)
Theorem ucs_tie_break (self : Game) (pq : list entry) (visited : gset key)
    (vs : list GameState) (nv : nat) (cost : nat) (st : GameState)
    (path : list GameState) (rest : list entry) (st' : GameState)
    (path' : list GameState) :
  ucs_reachable self (pq, visited, vs, nv) →
  heappop entry_lt pq = Some ((cost, st, path), rest) →
  (cost, st', path') ∈ rest →
  count_True (reached_goal st) ≤ count_True (reached_goal st').
Proof.
  intros Hreach Hpop Hin.
  apply ucs_reachable_ordered in Hreach. simpl in Hreach.
  pose proof (entry_heappop_min pq _ rest Hreach Hpop _ Hin) as Hmin.
  unfold entry_lt, GameState_lt in Hmin.
  rewrite bool_decide_true in Hmin by done.
  case_bool_decide; [done | lia].
Qed.

Lemma ucs_tie_break_witness :
  count_True (reached_goal A_down) ≤ count_True (reached_goal A_won).
Proof.
  apply (ucs_tie_break scenario_A
           [(1, A_down, [A_start]); (1, A_won, [A_start])]
           (∅ ∪ {[get_state A_start]}) [A_start] 1
           1 A_down [A_start] [(1, A_won, [A_start])] A_won [A_start]).
  - eapply ucs_next; [apply ucs_start | vm_compute; reflexivity].
  - vm_compute; reflexivity.
  - left.
Defined.

(** ** Goal test before the visited test (C3) *)

(** C3: in dfs, bfs and ucs alike, a popped state whose key is already in the
    visited set is returned as a success (path + [state], the pop counter,
    the trace) when all its reached flags are true; otherwise it is dropped
    without being expanded: the frontier is what the pop left. *)
Theorem goal_check_precedes_dedup (self : Game) (st : GameState)
    (path : list GameState) (visited : gset key) (vs : list GameState) (nv : nat) :
  get_state st ∈ visited →
  (∀ fr fr', list_pop fr = Some ((st, path), fr') →
     dfs_body self (fr, visited, vs, nv)
     = Ret (if all (reached_goal st)
            then Return (Some (path ++ [st]), S nv, vs ++ [st])
            else Continue (fr', visited, vs ++ [st], S nv)))
  ∧ (∀ fr fr', popleft fr = Some ((st, path), fr') →
     bfs_body self (fr, visited, vs, nv)
     = Ret (if all (reached_goal st)
            then Return (Some (path ++ [st]), S nv, vs ++ [st])
            else Continue (fr', visited, vs ++ [st], S nv)))
  ∧ (∀ pq pq' cost, heappop entry_lt pq = Some ((cost, st, path), pq') →
     ucs_body self (pq, visited, vs, nv)
     = Ret (if all (reached_goal st)
            then Return (Some (path ++ [st]), S nv, vs ++ [st])
            else Continue (pq', visited, vs ++ [st], S nv))).
Proof.
  intros Hin. repeat split.
  - intros fr fr' Hpop. unfold dfs_body, search_body. rewrite Hpop.
    destruct (all (reached_goal st)); [done|]. by rewrite bool_decide_true.
  - intros fr fr' Hpop. unfold bfs_body, search_body. rewrite Hpop.
    destruct (all (reached_goal st)); [done|]. by rewrite bool_decide_true.
  - intros pq pq' cost Hpop. unfold ucs_body. rewrite Hpop.
    destruct (all (reached_goal st)); [done|]. by rewrite bool_decide_true.
Qed.

Lemma goal_check_precedes_dedup_witness :
  get_state A_won ∈ ({[get_state A_won]} : gset key)
  ∧ dfs_body scenario_A ([(A_won, [A_start])], {[get_state A_won]}, [], 0)
    = Ret (Return (Some [A_start; A_won], 1, [A_won])).
Proof.
  assert (Hin : get_state A_won ∈ ({[get_state A_won]} : gset key))
    by (apply elem_of_singleton; reflexivity).
  split; [exact Hin|].
  exact (proj1 (goal_check_precedes_dedup scenario_A A_won [A_start]
                  {[get_state A_won]} [] 0 Hin)
           [(A_won, [A_start])] [] eq_refl).
Defined.

(** ** When successors are filtered (C4) *)

Lemma foldl_snoc_map {A B : Type} (f : A → B) (acc : list B) (l : list A) :
  foldl (λ acc a, acc ++ [f a]) acc l = acc ++ map f l.
Proof.
  revert acc. induction l as [|a l IH]; intros acc; simpl.
  - by rewrite app_nil_r.
  - rewrite IH. by rewrite <- app_assoc.
Qed.

Lemma push_successors_all (self : Game) (st : GameState) (path : list GameState)
    (fr : frontier) (up down left right : list GameState) :
  simulate_move self st (-1) 0 = Ret up →
  simulate_move self st 1 0 = Ret down →
  simulate_move self st 0 (-1) = Ret left →
  simulate_move self st 0 1 = Ret right →
  push_successors self st path fr
  = Ret (fr ++ map (λ s, (s, path ++ [st])) (up ++ down ++ left ++ right)).
Proof.
  intros Hu Hd Hl Hr. unfold push_successors, moves. cbn [for_each].
  rewrite Hu. cbn [mbind outcome_bind]. rewrite Hd. cbn [mbind outcome_bind].
  rewrite Hl. cbn [mbind outcome_bind]. rewrite Hr. cbn [mbind outcome_bind].
  rewrite !(foldl_snoc_map (λ s, (s, path ++ [st]))).
  by rewrite !map_app, <- !app_assoc.
Qed.

Lemma push_unvisited_successors_all (self : Game) (visited : gset key) (cost : nat)
    (st : GameState) (path : list GameState) (pq : list entry)
    (up down left right : list GameState) :
  simulate_move self st (-1) 0 = Ret up →
  simulate_move self st 1 0 = Ret down →
  simulate_move self st 0 (-1) = Ret left →
  simulate_move self st 0 1 = Ret right →
  ∃ pq', push_unvisited_successors self visited cost st path pq = Ret pq'
    ∧ pq' ≡ₚ pq ++ map (λ s, (cost + 1, s, path ++ [st]))
                   (filter (λ s, get_state s ∉ visited)
                      (up ++ down ++ left ++ right)).
Proof.
  intros Hu Hd Hl Hr. unfold push_unvisited_successors, moves. cbn [for_each].
  rewrite Hu. cbn [mbind outcome_bind]. rewrite Hd. cbn [mbind outcome_bind].
  rewrite Hl. cbn [mbind outcome_bind]. rewrite Hr. cbn [mbind outcome_bind].
  eexists. split; [reflexivity|].
  rewrite !push_unvisited_perm. rewrite !filter_app, !map_app.
  by rewrite <- !app_assoc.
Qed.

(** C4: when a popped state is expanded, dfs and bfs push every successor
    that the four simulate_move calls generate, whatever the visited set
    says; ucs pushes exactly those whose key is not in the visited set (which
    by then holds the key of the expanded state). *)
Theorem push_discipline (self : Game) (st : GameState) (path : list GameState)
    (visited : gset key) (vs : list GameState) (nv : nat)
    (up down left right : list GameState) :
  all (reached_goal st) = false → get_state st ∉ visited →
  simulate_move self st (-1) 0 = Ret up →
  simulate_move self st 1 0 = Ret down →
  simulate_move self st 0 (-1) = Ret left →
  simulate_move self st 0 1 = Ret right →
  let generated := up ++ down ++ left ++ right in
  let visited' := visited ∪ {[get_state st]} in
  (∀ fr fr', list_pop fr = Some ((st, path), fr') →
     dfs_body self (fr, visited, vs, nv)
     = Ret (Continue (fr' ++ map (λ s, (s, path ++ [st])) generated,
                      visited', vs ++ [st], S nv)))
  ∧ (∀ fr fr', popleft fr = Some ((st, path), fr') →
     bfs_body self (fr, visited, vs, nv)
     = Ret (Continue (fr' ++ map (λ s, (s, path ++ [st])) generated,
                      visited', vs ++ [st], S nv)))
  ∧ (∀ pq pq' cost, heappop entry_lt pq = Some ((cost, st, path), pq') →
     ∃ pq'', ucs_body self (pq, visited, vs, nv)
             = Ret (Continue (pq'', visited', vs ++ [st], S nv))
       ∧ pq'' ≡ₚ pq' ++ map (λ s, (cost + 1, s, path ++ [st]))
                         (filter (λ s, get_state s ∉ visited') generated)).
Proof.
  intros Hnot Hnew Hu Hd Hl Hr generated visited'. subst generated visited'.
  repeat split.
  - intros fr fr' Hpop. unfold dfs_body, search_body. rewrite Hpop, Hnot.
    rewrite bool_decide_false by done.
    by rewrite (push_successors_all _ _ _ _ up down left right).
  - intros fr fr' Hpop. unfold bfs_body, search_body. rewrite Hpop, Hnot.
    rewrite bool_decide_false by done.
    by rewrite (push_successors_all _ _ _ _ up down left right).
  - intros pq pq' cost Hpop. unfold ucs_body. rewrite Hpop, Hnot.
    rewrite bool_decide_false by done.
    destruct (push_unvisited_successors_all self (visited ∪ {[get_state st]})
                cost st path pq' up down left right Hu Hd Hl Hr)
      as (pq'' & Hpush & Hperm).
    exists pq''. by rewrite Hpush.
Qed.

Lemma push_discipline_witness :
  dfs_body scenario_A ([(A_start, [])], {[get_state A_down]}, [], 0)
  = Ret (Continue ([(A_down, [A_start]); (A_won, [A_start])],
                   {[get_state A_down]} ∪ {[get_state A_start]}, [A_start], 1))
  ∧ ∃ pq'', ucs_body scenario_A ([(0, A_start, [])], {[get_state A_down]}, [], 0)
            = Ret (Continue (pq'', {[get_state A_down]} ∪ {[get_state A_start]},
                             [A_start], 1))
      ∧ pq'' ≡ₚ [(1, A_won, [A_start])].
Proof.
  destruct (push_discipline scenario_A A_start [] {[get_state A_down]} [] 0
              [] [A_down] [] [A_won]) as (Hdfs & _ & Hucs).
  - reflexivity.
  - intros Hin%elem_of_singleton. discriminate.
  - vm_compute. reflexivity.
  - vm_compute. reflexivity.
  - vm_compute. reflexivity.
  - vm_compute. reflexivity.
  - split.
    + exact (Hdfs [(A_start, [])] [] eq_refl).
    + destruct (Hucs [(0, A_start, [])] [] 0 eq_refl) as (pq'' & Hbody & Hperm).
      exists pq''. split; [exact Hbody|].
      rewrite Hperm. vm_compute. reflexivity.
Defined.

(** ** Scenario A (C2) *)

Lemma while_loop_mono {L R : Type} (body : L → outcome (step L R)) (n : nat)
    (l : L) (r : R) :
  while_loop n body l = Ret r → ∀ k, while_loop (n + k) body l = Ret r.
Proof.
  revert l. induction n as [|n IH]; intros l Hrun k; simpl in *; [done|].
  destruct (body l) as [[l'|r']| |]; simpl in *; try done. by apply IH.
Qed.

Lemma scenario_A_bfs_3 :
  bfs 3 scenario_A = Ret (Some [A_start; A_won], 3, [A_start; A_down; A_won]).
Proof. vm_compute. reflexivity. Qed.

(** C2 as the design document has it (one pop) does not hold: no iteration
    budget makes bfs on Scenario A report a path with nodes_visited = 1. *)
Lemma scenario_A_bfs_not_one_pop :
  ¬ ∃ fuel path trace, bfs fuel scenario_A = Ret (Some path, 1, trace).
Proof.
  intros (fuel & path & trace & Hrun).
  destruct fuel as [|[|[|k]]]; [done | vm_compute in Hrun; done .. | ].
  change (S (S (S k))) with (3 + k) in Hrun. unfold bfs in Hrun.
  rewrite (while_loop_mono _ 3 _ _ scenario_A_bfs_3 k) in Hrun.
  discriminate.
Qed.

(** C2, amended: on the Scenario A board, sliding right moves the player one
    cell to (0,1), sets its reached flag and stops; bfs returns the path of
    exactly two snapshots (initial state, goal state) and reports
    nodes_visited = 3: the start, the successor of "down", which is queued
    first, and the goal state. *)
Theorem scenario_A_bfs :
  simulate_move scenario_A (state scenario_A) 0 1 = Ret [A_won]
  ∧ ∀ k, bfs (3 + k) scenario_A
         = Ret (Some [A_start; A_won], 3, [A_start; A_down; A_won]).
Proof.
  split; [vm_compute; reflexivity|].
  intros k. unfold bfs. by apply while_loop_mono, scenario_A_bfs_3.
Qed.

(** ** Collision checks and the working copy (C1) *)

(** C1 at [two_in_a_row], direction right. Player 0 slides from (0,1) to
    (0,3) and the one successor carries that move. Player 1, at (0,0), stays:
    its next cell (0,1) is refused because the query looks at the stored
    state, where player 0 still stands on (0,1); asked against the working
    copy, the same cell is valid, and the simulator of the design document
    lets player 1 slide on to (0,2) and emits a second successor. *)
Theorem stale_collision_check :
  simulate_players two_in_a_row (state two_in_a_row) 0 1
  = Ret (two_in_a_row_moved, [two_in_a_row_moved])
  ∧ is_valid_move two_in_a_row 0 1 1 = Ret false
  ∧ is_valid_move (mkGame 2 4 two_in_a_row_moved) 0 1 1 = Ret true
  ∧ simulate_move two_in_a_row (state two_in_a_row) 0 1 = Ret [two_in_a_row_moved]
  ∧ simulate_move_on_copy two_in_a_row (state two_in_a_row) 0 1
    = Ret [two_in_a_row_moved; two_in_a_row_both_moved].
Proof. repeat split; vm_compute; reflexivity. Qed.

(** ** The move simulator returns *)

Lemma is_valid_move_total (self : Game) (row col : Z) (i : nat) :
  wf_game self → i < length (players (state self)) →
  ∃ b, is_valid_move self row col i = Ret b.
Proof.
  intros [Hr Hg] Hi. unfold is_valid_move.
  destruct (_ || _); [eauto|].
  case_bool_decide; [eauto|].
  destruct (occupied_by_other _ _ _ _); [eauto|].
  destruct (lookup_lt_is_Some_2 (reached_goal (state self)) i) as [b Hb]; [lia|].
  destruct (lookup_lt_is_Some_2 (goals (state self)) i) as [gl Hgl]; [lia|].
  unfold subscript. rewrite Hb. simpl. destruct b; [|eauto].
  rewrite Hgl. simpl. case_bool_decide; eauto.
Qed.

Lemma slide_loop_total (fuel : nat) (self : Game) (r_row c_col : Z) (i : nat)
    (cl : GameState) (cur : cell) :
  wf_game self → i < length (players (state self)) →
  is_Some (goals cl !! i) →
  (r_row ≠ 0 ∨ c_col ≠ 0)%Z →
  1 ≤ fuel →
  (in_bounds self (cur.1 + r_row, cur.2 + c_col)%Z →
   room self r_row c_col (cur.1 + r_row, cur.2 + c_col)%Z + 2 ≤ Z.of_nat fuel)%Z →
  ∃ res, slide_loop fuel self r_row c_col i cl cur = Ret res.
Proof.
  intros Hwf Hi [gl Hgl] Hdir. revert cur.
  induction fuel as [|fuel IH]; intros cur Hone Hroom; [lia|].
  cbn [slide_loop].
  destruct (is_valid_move_total self (cur.1 + r_row) (cur.2 + c_col) i Hwf Hi)
    as [valid Hvalid].
  cbn [fst snd]. rewrite Hvalid. cbn [mbind outcome_bind].
  destruct valid; cbn [negb]; [|eauto].
  unfold subscript. rewrite Hgl. cbn [mbind outcome_bind].
  case_bool_decide; [eauto|].
  apply is_valid_move_true in Hvalid as [[Hb _] _].
  specialize (Hroom Hb).
  unfold in_bounds in Hb. cbn [fst snd] in Hb.
  apply IH.
  - unfold room in Hroom. cbn [fst snd] in Hroom.
    repeat case_bool_decide; lia.
  - intros Hb'. unfold in_bounds in Hb'. cbn [fst snd] in Hb'.
    unfold room in *. cbn [fst snd] in *.
    repeat case_bool_decide; lia.
Qed.

Lemma slide_total (self : Game) (r_row c_col : Z) (i : nat)
    (cl : GameState) (cur : cell) :
  wf_game self → i < length (players (state self)) →
  is_Some (goals cl !! i) →
  (r_row ≠ 0 ∨ c_col ≠ 0)%Z →
  ∃ res, slide self r_row c_col i cl cur = Ret res.
Proof.
  intros Hwf Hi Hgl Hdir. unfold slide, slide_fuel.
  apply slide_loop_total; [done | done | done | done | lia | ].
  intros Hb. unfold in_bounds in Hb. cbn [fst snd] in Hb.
  unfold room. cbn [fst snd]. repeat case_bool_decide; lia.
Qed.

Lemma for_each_total {A S : Type} (I : S → Prop) (body : A → S → outcome S)
    (l : list A) (s : S) :
  I s →
  (∀ a s1, a ∈ l → I s1 → ∃ s2, body a s1 = Ret s2 ∧ I s2) →
  ∃ s', for_each body l s = Ret s' ∧ I s'.
Proof.
  revert s. induction l as [|a l IH]; intros s Hs Hbody; simpl; [eauto|].
  destruct (Hbody a s) as (s1 & Hs1 & HI1); [left | done | ].
  rewrite Hs1. simpl. apply IH; [done|].
  intros b t1 Hb. apply Hbody. by right.
Qed.

Lemma elem_of_grid_cells (self : Game) (c : cell) :
  c ∈ grid_cells self ↔ in_bounds self c.
Proof.
  unfold grid_cells, in_bounds. destruct c as [r k]. simpl.
  rewrite list_elem_of_bind. split.
  - intros (r' & Hc & Hr). apply list_elem_of_bind in Hc as (k' & Hc & Hk).
    apply list_elem_of_singleton in Hc. inversion Hc; subst.
    apply elem_of_seqZ in Hr, Hk. lia.
  - intros [Hr Hk]. exists r. split; [|apply elem_of_seqZ; lia].
    apply list_elem_of_bind. exists k. split; [by left | apply elem_of_seqZ; lia].
Qed.

Lemma goes_with_start (self : Game) : wf_game self → goes_with self (state self).
Proof.
  intros [Hr Hg]. repeat split; [done|].
  apply Forall_forall. intros p Hp. unfold alphabet.
  apply elem_of_app. left. by apply list_elem_of_fmap_2.
Qed.

Lemma move_player_goes_with (self : Game) (r_row c_col : Z) (i : nat)
    (cl0 : GameState) (ns0 : list GameState) (cl1 : GameState) (ns1 : list GameState) :
  goes_with self cl0 →
  move_player self r_row c_col i (cl0, ns0) = Ret (cl1, ns1) →
  goes_with self cl1.
Proof.
  intros (Hg & Hp & Hr & Hal) Hmv.
  apply move_player_spec in Hmv
    as (_ & Hg' & _ & Hother & _ & Hlp & Hlr & Hi & _).
  repeat split; [congruence | congruence | congruence | ].
  rewrite Forall_lookup in Hal |- *.
  intros j p Hj. destruct (decide (j = i)) as [-> | Hne].
  - destruct Hi as [Hi | (c & Hi & [Hc _])].
    + apply (Hal i). congruence.
    + rewrite Hi in Hj. inversion Hj; subst. unfold alphabet.
      apply elem_of_app. right. by apply elem_of_grid_cells.
  - apply (Hal j). by rewrite <- Hother.
Qed.

Lemma move_player_total (self : Game) (r_row c_col : Z) (i : nat)
    (cl : GameState) (ns : list GameState) :
  wf_game self → goes_with self cl → i < length (players (state self)) →
  (r_row ≠ 0 ∨ c_col ≠ 0)%Z →
  ∃ res, move_player self r_row c_col i (cl, ns) = Ret res.
Proof.
  intros Hwf (Hg & Hp & Hr & _) Hi Hdir. unfold move_player, subscript.
  destruct (lookup_lt_is_Some_2 (reached_goal cl) i) as [b Hb]; [lia|].
  destruct (lookup_lt_is_Some_2 (players cl) i) as [player Hplayer]; [lia|].
  rewrite Hb. cbn [mbind outcome_bind]. destruct b; [eauto|].
  rewrite Hplayer. cbn [mbind outcome_bind].
  destruct (slide_total self r_row c_col i cl (position player)) as [[cl1 cur] Hs];
    [done | done | | done | ].
  { apply lookup_lt_is_Some_2. rewrite Hg. destruct Hwf. lia. }
  rewrite Hs. cbn [mbind outcome_bind]. case_bool_decide; eauto.
Qed.

Lemma simulate_move_goes_with (self : Game) (st : GameState) (r_row c_col : Z) :
  wf_game self → goes_with self st → (r_row ≠ 0 ∨ c_col ≠ 0)%Z →
  ∃ ns, simulate_move self st r_row c_col = Ret ns ∧ Forall (goes_with self) ns.
Proof.
  intros Hwf Hst Hdir. unfold simulate_move, simulate_players.
  destruct (for_each_total
              (λ acc, goes_with self acc.1 ∧ Forall (goes_with self) acc.2)
              (move_player self r_row c_col)
              (seq 0 (length (players st))) (st, []))
    as ([cl ns] & Hrun & _ & Hns).
  - split; [done | constructor].
  - intros i [cl0 ns0] Hi [Hcl Hns]. cbn [fst snd] in *.
    apply elem_of_seq in Hi.
    destruct (move_player_total self r_row c_col i cl0 ns0) as [[cl1 ns1] Hmv];
      [done | done | destruct Hst as (_ & <- & _); lia | done | ].
    exists (cl1, ns1). split; [done|]. cbn [fst snd].
    assert (goes_with self cl1) by (by eapply move_player_goes_with).
    split; [done|].
    apply move_player_spec in Hmv as (_ & _ & _ & _ & _ & _ & _ & _ & [-> | ->]);
      [done|].
    apply Forall_app. split; [done | by constructor].
  - rewrite Hrun. cbn [mbind outcome_bind]. eauto.
Qed.


(** ** Finitely many keys *)

Lemma elem_of_words {A : Type} (letters : list A) (n : nat) (w : list A) :
  w ∈ words letters n ↔ length w = n ∧ Forall (λ a, a ∈ letters) w.
Proof.
  revert w. induction n as [|n IH]; intros w; simpl.
  - rewrite list_elem_of_singleton. split.
    + intros ->. split; [done | constructor].
    + intros [Hl _]. by destruct w.
  - rewrite list_elem_of_bind. split.
    + intros (a & Hw & Ha). apply list_elem_of_bind in Hw as (w' & Hw & Hw').
      apply list_elem_of_singleton in Hw as ->. apply IH in Hw' as [Hl Hf].
      split; [simpl; lia | by constructor].
    + intros [Hl Hf]. destruct w as [|a w]; [done|].
      inversion Hf; subst. exists a. split; [|done].
      apply list_elem_of_bind. exists w. split; [by left|].
      apply IH. split; [simpl in Hl; lia | done].
Qed.

Lemma key_in_all_keys (self : Game) (st : GameState) :
  goes_with self st → get_state st ∈ all_keys self.
Proof.
  intros (_ & Hp & Hr & Hal). unfold all_keys, get_state.
  apply elem_of_list_to_set, list_elem_of_bind.
  exists (position <$> players st). split.
  - apply list_elem_of_bind. exists (reached_goal st). split; [by left|].
    apply elem_of_words. split; [done|].
    apply Forall_forall. intros [|] _; [left | right; left].
  - apply elem_of_words. split; [by rewrite length_fmap|].
    by apply Forall_fmap.
Qed.

Lemma visit_shrinks (U visited : gset key) (k : key) :
  k ∈ U → k ∉ visited → size (U ∖ (visited ∪ {[k]})) < size (U ∖ visited).
Proof.
  intros HU Hv. apply subset_size. split.
  - intros x. rewrite !elem_of_difference, elem_of_union. tauto.
  - intros Hsub. specialize (Hsub k).
    rewrite !elem_of_difference, elem_of_union, elem_of_singleton in Hsub.
    tauto.
Qed.

(** ** Loops with a measure come back *)

Lemma lex_lt_wf : well_founded lex_lt.
Proof.
  intros [a b]. revert b.
  induction (lt_wf a) as [a _ IHa]. intros b.
  induction (lt_wf b) as [b _ IHb].
  constructor. intros [a' b'] [Hlt | [Heq Hlt]]; simpl in *.
  - by apply IHa.
  - subst. by apply IHb.
Qed.

Lemma while_loop_terminates {L R : Type} (body : L → outcome (step L R))
    (Inv : L → Prop) (m : L → nat * nat) (Q : R → Prop) :
  (∀ l, Inv l → ∃ s, body l = Ret s
     ∧ match s with
       | Continue l' => Inv l' ∧ lex_lt (m l') (m l)
       | Return r => Q r
       end) →
  ∀ l, Inv l → ∃ r n, Q r ∧ ∀ fuel, n ≤ fuel → while_loop fuel body l = Ret r.
Proof.
  intros Hstep l. remember (m l) as p eqn:Hp. revert l Hp.
  induction (lex_lt_wf p) as [p _ IH]. intros l -> Hinv.
  destruct (Hstep l Hinv) as ([l'|r] & Hb & Hs).
  - destruct Hs as [Hinv' Hlt].
    destruct (IH _ Hlt l' eq_refl Hinv') as (r & n & HQ & Hrun).
    exists r, (S n). split; [done|]. intros [|fuel] Hf; [lia|].
    simpl. rewrite Hb. simpl. apply Hrun. lia.
  - exists r, 1. split; [done|]. intros [|fuel] Hf; [lia|].
    simpl. by rewrite Hb.
Qed.

(** ** The searches come back (C8) *)

Lemma search_body_step
    (pop : frontier → option ((GameState * list GameState) * frontier))
    (self : Game) (ls : loop_state) :
  wf_game self →
  (∀ fr x fr', pop fr = Some (x, fr') → x :: fr' ≡ₚ fr) →
  Forall (λ e, goes_with self e.1) ls.1.1.1 →
  ∃ s, search_body pop self ls = Ret s
    ∧ match s with
      | Continue ls' =>
          Forall (λ e, goes_with self e.1) ls'.1.1.1
          ∧ lex_lt (size (all_keys self ∖ ls'.1.1.2), length ls'.1.1.1)
                   (size (all_keys self ∖ ls.1.1.2), length ls.1.1.1)
      | Return a => answer_ok a
      end.
Proof.
  destruct ls as [[[fr visited] vs] nv]. cbn [fst snd].
  intros Hwf Hpop_perm Hfr. unfold search_body.
  destruct (pop fr) as [[[st path] fr']|] eqn:Hpop.
  2:{ eexists. split; [reflexivity|]. by left. }
  apply Hpop_perm in Hpop. rewrite <- Hpop in Hfr.
  apply Forall_cons in Hfr as [Hst Hfr']. cbn [fst] in Hst.
  destruct (all (reached_goal st)) eqn:Hall.
  { eexists. split; [reflexivity|]. right. by exists path, st. }
  case_bool_decide as Hvis.
  { eexists. split; [reflexivity|]. cbn [fst snd]. split; [done|].
    right. split; [done|]. rewrite <- Hpop. simpl. lia. }
  destruct (simulate_move_goes_with self st (-1) 0 Hwf Hst) as (up & Hu & Hgu); [lia|].
  destruct (simulate_move_goes_with self st 1 0 Hwf Hst) as (down & Hd & Hgd); [lia|].
  destruct (simulate_move_goes_with self st 0 (-1) Hwf Hst) as (left & Hl & Hgl); [lia|].
  destruct (simulate_move_goes_with self st 0 1 Hwf Hst) as (right & Hr & Hgr); [lia|].
  rewrite (push_successors_all self st path fr' up down left right Hu Hd Hl Hr).
  eexists. split; [reflexivity|]. cbn [fst snd]. split.
  - apply Forall_app. split; [done|].
    apply Forall_forall. intros e He.
    apply list_elem_of_fmap in He as (s & -> & Hs). cbn [fst].
    revert s Hs. apply Forall_forall.
    repeat (apply Forall_app; split); done.
  - left. cbn [fst]. apply visit_shrinks; [by apply key_in_all_keys | done].
Qed.

Lemma ucs_body_step (self : Game) (ls : ucs_state) :
  wf_game self →
  Forall (λ e : entry, goes_with self e.1.2) ls.1.1.1 →
  ∃ s, ucs_body self ls = Ret s
    ∧ match s with
      | Continue ls' =>
          Forall (λ e : entry, goes_with self e.1.2) ls'.1.1.1
          ∧ lex_lt (size (all_keys self ∖ ls'.1.1.2), length ls'.1.1.1)
                   (size (all_keys self ∖ ls.1.1.2), length ls.1.1.1)
      | Return a => answer_ok a
      end.
Proof.
  destruct ls as [[[pq visited] vs] nv]. cbn [fst snd].
  intros Hwf Hpq. unfold ucs_body.
  destruct (heappop entry_lt pq) as [[[[cost st] path] pq']|] eqn:Hpop.
  2:{ eexists. split; [reflexivity|]. by left. }
  apply heappop_perm in Hpop. rewrite <- Hpop in Hpq.
  apply Forall_cons in Hpq as [Hst Hpq']. cbn [fst snd] in Hst.
  destruct (all (reached_goal st)) eqn:Hall.
  { eexists. split; [reflexivity|]. right. by exists path, st. }
  case_bool_decide as Hvis.
  { eexists. split; [reflexivity|]. cbn [fst snd]. split; [done|].
    right. split; [done|]. rewrite <- Hpop. simpl. lia. }
  destruct (simulate_move_goes_with self st (-1) 0 Hwf Hst) as (up & Hu & Hgu); [lia|].
  destruct (simulate_move_goes_with self st 1 0 Hwf Hst) as (down & Hd & Hgd); [lia|].
  destruct (simulate_move_goes_with self st 0 (-1) Hwf Hst) as (left & Hl & Hgl); [lia|].
  destruct (simulate_move_goes_with self st 0 1 Hwf Hst) as (right & Hr & Hgr); [lia|].
  destruct (push_unvisited_successors_all self (visited ∪ {[get_state st]}) cost st
              path pq' up down left right Hu Hd Hl Hr) as (pq'' & Hpush & Hperm).
  rewrite Hpush. eexists. split; [reflexivity|]. cbn [fst snd]. split.
  - rewrite Hperm. apply Forall_app. split; [done|].
    apply Forall_forall. intros e He.
    apply list_elem_of_fmap in He as (s & -> & Hs). cbn [fst snd].
    apply list_elem_of_filter in Hs as [_ Hs].
    revert s Hs. apply Forall_forall.
    repeat (apply Forall_app; split); done.
  - left. cbn [fst]. apply visit_shrinks; [by apply key_in_all_keys | done].
Qed.

Lemma Game_init_wf (n_rows n_cols : Z) (bd : BoardDetails) :
  length (bd_players bd) ≤ length (bd_goals bd) → wf_game (Game_init n_rows n_cols bd).
Proof. intros Hg. split; [apply length_replicate | done]. Qed.

(** A player without a goal: the first step it takes raises. *)
Example missing_goal_raises :
  dfs 1 (Game_init 1 2 {| bd_walls := []; bd_players := [mkPiece (0, 0)%Z];
                          bd_goals := [] |})
  = Raise IndexError.
Proof. vm_compute. reflexivity. Qed.

Lemma dfs_terminates (self : Game) :
  wf_game self → ∃ a n, answer_ok a ∧ ∀ fuel, n ≤ fuel → dfs fuel self = Ret a.
Proof.
  intros Hwf.
  apply (while_loop_terminates (dfs_body self)
           (λ ls, Forall (λ e, goes_with self e.1) ls.1.1.1)
           (λ ls, (size (all_keys self ∖ ls.1.1.2), length ls.1.1.1))
           answer_ok).
  - intros ls Hls. apply search_body_step; [done | | done].
    intros fr x fr' Hpop. apply list_pop_Some in Hpop as ->.
    by rewrite Permutation_app_comm.
  - cbn [fst snd]. constructor; [by apply goes_with_start | constructor].
Qed.

Lemma bfs_terminates (self : Game) :
  wf_game self → ∃ a n, answer_ok a ∧ ∀ fuel, n ≤ fuel → bfs fuel self = Ret a.
Proof.
  intros Hwf.
  apply (while_loop_terminates (bfs_body self)
           (λ ls, Forall (λ e, goes_with self e.1) ls.1.1.1)
           (λ ls, (size (all_keys self ∖ ls.1.1.2), length ls.1.1.1))
           answer_ok).
  - intros ls Hls. apply search_body_step; [done | | done].
    intros [|y fr] x fr' [=]. by subst.
  - cbn [fst snd]. constructor; [by apply goes_with_start | constructor].
Qed.

Lemma ucs_terminates (self : Game) :
  wf_game self → ∃ a n, answer_ok a ∧ ∀ fuel, n ≤ fuel → ucs fuel self = Ret a.
Proof.
  intros Hwf.
  apply (while_loop_terminates (ucs_body self)
           (λ ls, Forall (λ e : entry, goes_with self e.1.2) ls.1.1.1)
           (λ ls, (size (all_keys self ∖ ls.1.1.2), length ls.1.1.1))
           answer_ok).
  - intros ls Hls. by apply ucs_body_step.
  - cbn [fst snd]. constructor; [by apply goes_with_start | constructor].
Qed.

Lemma list_pop_None {A : Type} (l : list A) : list_pop l = None → l = [].
Proof.
  unfold list_pop. destruct (reverse l) eqn:Hrev; [|done]. intros _.
  apply (f_equal reverse) in Hrev. by rewrite reverse_involutive in Hrev.
Qed.

Lemma while_loop_rounds {L R : Type} (body : L → outcome (step L R)) (fuel : nat)
    (l : L) (r : R) :
  while_loop fuel body l = Ret r →
  ∃ k lk, k < fuel ∧ rounds k body l = Some lk ∧ body lk = Ret (Return r).
Proof.
  revert l. induction fuel as [|fuel IH]; intros l Hrun; [done|].
  simpl in Hrun. inv_bind Hrun as s Hs. destruct s as [l'|r'].
  - destruct (IH l' Hrun) as (k & lk & Hk & Hrounds & Hlast).
    exists (S k), lk. split; [lia|]. split; [|done]. simpl. by rewrite Hs.
  - injection Hrun as <-. exists 0, l. split; [lia|]. done.
Qed.

Lemma rounds_while_loop {L R : Type} (body : L → outcome (step L R)) (k : nat)
    (l lk : L) (r : R) :
  rounds k body l = Some lk → body lk = Ret (Return r) →
  ∀ fuel, k < fuel → while_loop fuel body l = Ret r.
Proof.
  revert l. induction k as [|k IH]; intros l Hrounds Hlast [|fuel] Hfuel; try lia.
  - injection Hrounds as ->. simpl. by rewrite Hlast.
  - simpl in Hrounds. simpl.
    destruct (body l) as [[l'|r']| |]; try done. simpl.
    apply (IH l'); [done | done | lia].
Qed.

Lemma search_body_returns_None
    (pop : frontier → option ((GameState * list GameState) * frontier))
    (self : Game) (fr : frontier) (visited : gset key) (vs : list GameState)
    (nv : nat) (a : answer) :
  search_body pop self (fr, visited, vs, nv) = Ret (Return a) → a.1.1 = None →
  pop fr = None ∧ a = (None, nv, vs).
Proof.
  unfold search_body. intros H Hnone.
  destruct (pop fr) as [[[st path] fr']|]; [|by injection H as <-].
  destruct (all (reached_goal st)); [by injection H as <-|].
  case_bool_decide; [done|]. by inv_bind H as fr'' Hpush.
Qed.

Lemma ucs_body_returns_None (self : Game) (pq : list entry) (visited : gset key)
    (vs : list GameState) (nv : nat) (a : answer) :
  ucs_body self (pq, visited, vs, nv) = Ret (Return a) → a.1.1 = None →
  pq = [] ∧ a = (None, nv, vs).
Proof.
  unfold ucs_body. intros H Hnone.
  destruct (heappop entry_lt pq) as [[[[cost st] path] pq']|] eqn:Hpop.
  - destruct (all (reached_goal st)); [by injection H as <-|].
    case_bool_decide; [done|]. by inv_bind H as pq'' Hpush.
  - injection H as <-. split; [by apply heappop_None in Hpop | done].
Qed.

Lemma answer_ok_last (a : answer) (path : list GameState) :
  answer_ok a → a.1.1 = Some path →
  ∃ final, last path = Some final ∧ all (reached_goal final) = true.
Proof.
  intros [Hnone|(p & final & Hsome & Hwon)] Hpath; [congruence|].
  rewrite Hsome in Hpath. injection Hpath as <-. exists final.
  by rewrite last_snoc.
Qed.

Lemma dfs_comes_back (self : Game) :
  wf_game self →
  ∃ a k, comes_back (dfs_body self) [(state self, [])] k a
    ∧ ∀ fuel, k < fuel → dfs fuel self = Ret a.
Proof.
  intros Hwf. destruct (dfs_terminates self Hwf) as (a & n & Hok & Hrun).
  specialize (Hrun n (le_n n)). unfold dfs in Hrun.
  apply while_loop_rounds in Hrun as (k & [[[fr v] vs] nv] & _ & Hrounds & Hlast).
  exists a, k. split.
  - exists fr, v, vs, nv. split; [done|]. split; [done|].
    destruct (a.1.1) as [path|] eqn:Hpath; [by apply (answer_ok_last a)|].
    apply search_body_returns_None in Hlast as [Hpop ->]; [|done].
    split; [by apply list_pop_None | done].
  - intros fuel Hfuel. unfold dfs. by eapply rounds_while_loop.
Qed.

Lemma bfs_comes_back (self : Game) :
  wf_game self →
  ∃ a k, comes_back (bfs_body self) [(state self, [])] k a
    ∧ ∀ fuel, k < fuel → bfs fuel self = Ret a.
Proof.
  intros Hwf. destruct (bfs_terminates self Hwf) as (a & n & Hok & Hrun).
  specialize (Hrun n (le_n n)). unfold bfs in Hrun.
  apply while_loop_rounds in Hrun as (k & [[[fr v] vs] nv] & _ & Hrounds & Hlast).
  exists a, k. split.
  - exists fr, v, vs, nv. split; [done|]. split; [done|].
    destruct (a.1.1) as [path|] eqn:Hpath; [by apply (answer_ok_last a)|].
    apply search_body_returns_None in Hlast as [Hpop ->]; [|done].
    split; [by destruct fr | done].
  - intros fuel Hfuel. unfold bfs. by eapply rounds_while_loop.
Qed.

Lemma ucs_comes_back (self : Game) :
  wf_game self →
  ∃ a k, comes_back (ucs_body self) [(0, state self, [])] k a
    ∧ ∀ fuel, k < fuel → ucs fuel self = Ret a.
Proof.
  intros Hwf. destruct (ucs_terminates self Hwf) as (a & n & Hok & Hrun).
  specialize (Hrun n (le_n n)). unfold ucs in Hrun.
  apply while_loop_rounds in Hrun as (k & [[[pq v] vs] nv] & _ & Hrounds & Hlast).
  exists a, k. split.
  - exists pq, v, vs, nv. split; [done|]. split; [done|].
    destruct (a.1.1) as [path|] eqn:Hpath; [by apply (answer_ok_last a)|].
    by apply ucs_body_returns_None in Hlast.
  - intros fuel Hfuel. unfold ucs. by eapply rounds_while_loop.
Qed.

(** C8: for a game whose configuration pairs every player with a goal, each
    of dfs, bfs and ucs comes back after finitely many rounds of its loop:
    there is a number [k] of rounds after which the next round returns, and
    with any iteration budget above [k] the call returns that answer. The
    answer is no path only where the returning round found the frontier
    empty (with the counter and the trace as they stood), and a path has a
    last state with all reached flags true. *)
Theorem searches_terminate (self : Game) :
  wf_game self →
  (∃ a k, comes_back (dfs_body self) [(state self, [])] k a
     ∧ ∀ fuel, k < fuel → dfs fuel self = Ret a)
  ∧ (∃ a k, comes_back (bfs_body self) [(state self, [])] k a
       ∧ ∀ fuel, k < fuel → bfs fuel self = Ret a)
  ∧ (∃ a k, comes_back (ucs_body self) [(0, state self, [])] k a
       ∧ ∀ fuel, k < fuel → ucs fuel self = Ret a).
Proof.
  intros Hwf. split; [|split].
  - by apply dfs_comes_back.
  - by apply bfs_comes_back.
  - by apply ucs_comes_back.
Qed.

Lemma searches_terminate_witness :
  wf_game scenario_A
  ∧ (∃ a k, comes_back (dfs_body scenario_A) [(state scenario_A, [])] k a
       ∧ ∀ fuel, k < fuel → dfs fuel scenario_A = Ret a)
  ∧ (∃ a k, comes_back (bfs_body scenario_A) [(state scenario_A, [])] k a
       ∧ ∀ fuel, k < fuel → bfs fuel scenario_A = Ret a)
  ∧ (∃ a k, comes_back (ucs_body scenario_A) [(0, state scenario_A, [])] k a
       ∧ ∀ fuel, k < fuel → ucs fuel scenario_A = Ret a).
Proof.
  assert (Hwf : wf_game scenario_A) by (split; simpl; lia).
  split; [exact Hwf | exact (searches_terminate scenario_A Hwf)].
Defined.

(** The board without a solution: the one round pops the start, expands it
    to nothing, and the second round finds the frontier empty. *)
Example stuck_game_exhausts :
  comes_back (dfs_body stuck_game) [(state stuck_game, [])] 1 (None, 1, [state stuck_game])
  ∧ comes_back (bfs_body stuck_game) [(state stuck_game, [])] 1 (None, 1, [state stuck_game])
  ∧ comes_back (ucs_body stuck_game) [(0, state stuck_game, [])] 1
      (None, 1, [state stuck_game]).
Proof.
  split; [|split];
    exists [], {[get_state (state stuck_game)]}, [state stuck_game], 1.
  all: split; [vm_compute; reflexivity|].
  all: split; [vm_compute; reflexivity|]. all: done.
Qed.

(** ** A player that starts on its goal (C10) *)

Lemma for_each_app_inv {A S : Type} (body : A → S → outcome S) (l1 l2 : list A)
    (s s' : S) :
  for_each body (l1 ++ l2) s = Ret s' →
  ∃ s1, for_each body l1 s = Ret s1 ∧ for_each body l2 s1 = Ret s'.
Proof. rewrite for_each_app. apply bind_Ret_inv. Qed.




(** ** The stored state is left alone (C9) *)


Lemma untouched_refl (n : nat) (σ : store) : untouched n σ σ.
Proof. by split. Qed.

Lemma untouched_trans (n : nat) (σ1 σ2 σ3 : store) :
  untouched n σ1 σ2 → untouched n σ2 σ3 → untouched n σ1 σ3.
Proof.
  intros [Hl1 H1] [Hl2 H2]. split; [lia|].
  intros r Hr. by rewrite H2, H1.
Qed.

Lemma untouched_insert (n : nat) (σ : store) (r : ref) (v : GameState) :
  n ≤ r → untouched n σ (<[r := v]> σ).
Proof.
  intros Hr. split; [by rewrite length_insert|].
  intros r' Hr'. apply list_lookup_insert_ne. lia.
Qed.

Lemma untouched_snoc (n : nat) (σ : store) (v : GameState) :
  n ≤ length σ → untouched n σ (σ ++ [v]).
Proof.
  intros Hn. split; [rewrite length_app; lia|].
  intros r Hr. apply lookup_app_l. lia.
Qed.

Section keeps_rules.
Context {A B : Type} (n : nat).

Lemma keeps_ret (a : A) (Q : A → Prop) : Q a → keeps n (mret a) Q.
Proof. intros HQ σ a' σ' _ [= <- <-]. split; [apply untouched_refl | done]. Qed.

Lemma keeps_bind (m : prog A) (f : A → prog B) (Q : A → Prop) (Q' : B → Prop) :
  keeps n m Q → (∀ a, Q a → keeps n (f a) Q') → keeps n (m ≫= f) Q'.
Proof.
  intros Hm Hf σ b σ' Hn Hrun. unfold mbind, prog_bind in Hrun.
  destruct (m σ) as [[a σ1]| |] eqn:Hmσ; [|done|done].
  destruct (Hm σ a σ1 Hn Hmσ) as [Hu HQ].
  destruct (Hf a HQ σ1 b σ') as [Hu' HQ']; [destruct Hu; lia | done |].
  split; [by eapply untouched_trans | done].
Qed.

Lemma keeps_weaken (m : prog A) (Q Q' : A → Prop) :
  keeps n m Q → (∀ a, Q a → Q' a) → keeps n m Q'.
Proof. intros Hm HQ σ a σ' Hn Hrun. destruct (Hm σ a σ' Hn Hrun). auto. Qed.

Lemma keeps_lift (o : outcome A) : keeps n (lift o) (λ _, True).
Proof.
  intros σ a σ' _ Hrun. unfold lift in Hrun.
  destruct o; simpl in Hrun; [|done|done].
  injection Hrun as <- <-. split; [apply untouched_refl | done].
Qed.
End keeps_rules.

Lemma keeps_read (n : nat) (r : ref) : keeps n (read r) (λ _, True).
Proof. intros σ a σ' _ [= <- <-]. split; [apply untouched_refl | done]. Qed.

Lemma keeps_deepcopy (n : nat) (r : ref) : keeps n (deepcopy r) (λ r', n ≤ r').
Proof. intros σ a σ' Hn [= <- <-]. split; [by apply untouched_snoc | done]. Qed.

Lemma keeps_set_reached (n : nat) (r : ref) (i : nat) :
  n ≤ r → keeps n (set_reached r i) (λ _, True).
Proof. intros Hr σ a σ' _ [= <- <-]. split; [by apply untouched_insert | done]. Qed.

Lemma keeps_set_position (n : nat) (r : ref) (i : nat) (c : cell) :
  n ≤ r → keeps n (set_position r i c) (λ _, True).
Proof. intros Hr σ a σ' _ [= <- <-]. split; [by apply untouched_insert | done]. Qed.

Lemma keeps_for_each {A S : Type} (n : nat) (body : A → S → prog S) (l : list A) (s : S) :
  (∀ a s, keeps n (body a s) (λ _, True)) →
  keeps n (for_each_obj body l s) (λ _, True).
Proof.
  intros Hbody. revert s. induction l as [|a l IH]; intros s; cbn [for_each_obj].
  - by apply keeps_ret.
  - eapply keeps_bind; [apply Hbody | intros s' _; apply IH].
Qed.

Lemma keeps_while {L R : Type} (n fuel : nat) (body : L → prog (step L R)) (l : L) :
  (∀ l, keeps n (body l) (λ _, True)) →
  keeps n (while_loop_obj fuel body l) (λ _, True).
Proof.
  intros Hbody. revert l. induction fuel as [|fuel IH]; intros l; cbn [while_loop_obj].
  - intros σ a σ' _ Hrun. done.
  - eapply keeps_bind; [apply Hbody|]. intros [l'|r] _; [apply IH | by apply keeps_ret].
Qed.

Ltac keeps_step :=
  first [ eapply keeps_bind; [first [apply keeps_read | apply keeps_lift
                                    | apply keeps_deepcopy] | intros ? ?]
        | by apply keeps_ret ].

Lemma keeps_is_valid_move (n : nat) (self : GameObject) (row col : Z) (i : nat) :
  keeps n (is_valid_move_obj self row col i) (λ _, True).
Proof. unfold is_valid_move_obj. keeps_step. apply keeps_lift. Qed.

Lemma keeps_slide_loop (n fuel : nat) (self : GameObject) (r_row c_col : Z) (i : nat)
    (cloned_state : ref) (current : cell) :
  n ≤ cloned_state →
  keeps n (slide_loop_obj fuel self r_row c_col i cloned_state current) (λ _, True).
Proof.
  intros Hc. revert current. induction fuel as [|fuel IH]; intros current;
    cbn [slide_loop_obj].
  - intros σ a σ' _ Hrun. done.
  - eapply keeps_bind; [apply keeps_is_valid_move|]. intros valid _.
    destruct valid; cbn [negb]; [|by apply keeps_ret].
    do 2 keeps_step. case_bool_decide; [|apply IH].
    eapply keeps_bind; [by apply keeps_set_reached|]. intros _ _. by apply keeps_ret.
Qed.

Lemma keeps_move_player (n : nat) (self : GameObject) (r_row c_col : Z)
    (cloned_state : ref) (i : nat) (new_states : list ref) :
  n ≤ cloned_state →
  keeps n (move_player_obj self r_row c_col cloned_state i new_states) (λ _, True).
Proof.
  intros Hc. unfold move_player_obj. do 2 keeps_step.
  destruct a0; [by apply keeps_ret|]. keeps_step.
  eapply keeps_bind; [by apply keeps_slide_loop|]. intros current _.
  case_bool_decide; [|by apply keeps_ret].
  eapply keeps_bind; [by apply keeps_set_position|]. intros _ _.
  keeps_step. by apply keeps_ret.
Qed.

Lemma keeps_simulate_move (n : nat) (self : GameObject) (current_state : ref)
    (r_row c_col : Z) :
  keeps n (simulate_move_obj self current_state r_row c_col) (λ _, True).
Proof.
  unfold simulate_move_obj.
  eapply keeps_bind; [apply keeps_deepcopy|]. intros cloned_state Hc.
  keeps_step. apply keeps_for_each. intros i ns. by apply keeps_move_player.
Qed.

Lemma keeps_push_successors (n : nat) (self : GameObject) (current_state : ref)
    (path : list ref) (fr : frontier_obj) :
  keeps n (push_successors_obj self current_state path fr) (λ _, True).
Proof.
  unfold push_successors_obj. apply keeps_for_each. intros [mr mc] fr'.
  eapply keeps_bind; [apply keeps_simulate_move|]. intros ns _. by apply keeps_ret.
Qed.

Lemma keeps_get_state (n : nat) (r : ref) : keeps n (get_state_obj r) (λ _, True).
Proof. unfold get_state_obj. keeps_step. by apply keeps_ret. Qed.

Lemma keeps_search_body (n : nat)
    (pop : frontier_obj → option ((ref * list ref) * frontier_obj))
    (self : GameObject) (ls : loop_state_obj) :
  keeps n (search_body_obj pop self ls) (λ _, True).
Proof.
  destruct ls as [[[fr visited] vs] nv]. unfold search_body_obj.
  destruct (pop fr) as [[[current_state path] fr']|]; [|by apply keeps_ret].
  do 2 keeps_step. destruct (all _); [by apply keeps_ret|].
  eapply keeps_bind; [apply keeps_get_state|]. intros state_hash _.
  case_bool_decide; [by apply keeps_ret|].
  eapply keeps_bind; [apply keeps_push_successors|]. intros fr'' _.
  by apply keeps_ret.
Qed.

Lemma keeps_heappush (n : nat) (heap : list entry_obj) (item : entry_obj) :
  keeps n (heappush_obj heap item) (λ _, True).
Proof. intros σ a σ' _ [= <- <-]. split; [apply untouched_refl | done]. Qed.

Lemma keeps_heappop (n : nat) (heap : list entry_obj) :
  keeps n (heappop_obj heap) (λ _, True).
Proof. intros σ a σ' _ [= <- <-]. split; [apply untouched_refl | done]. Qed.

Lemma keeps_push_unvisited_successors (n : nat) (self : GameObject)
    (visited : gset key) (cost : nat) (current_state : ref) (path : list ref)
    (pq : list entry_obj) :
  keeps n (push_unvisited_successors_obj self visited cost current_state path pq)
    (λ _, True).
Proof.
  unfold push_unvisited_successors_obj. apply keeps_for_each. intros [mr mc] pq'.
  eapply keeps_bind; [apply keeps_simulate_move|]. intros ns _.
  unfold push_unvisited_obj. apply keeps_for_each. intros new_state pq''.
  eapply keeps_bind; [apply keeps_get_state|]. intros new_state_hash _.
  case_bool_decide; [apply keeps_heappush | by apply keeps_ret].
Qed.

Lemma keeps_ucs_body (n : nat) (self : GameObject) (ls : ucs_state_obj) :
  keeps n (ucs_body_obj self ls) (λ _, True).
Proof.
  destruct ls as [[[pq visited] vs] nv]. unfold ucs_body_obj.
  eapply keeps_bind; [apply keeps_heappop|]. intros popped _.
  destruct popped as [[[[cost current_state] path] pq']|]; [|by apply keeps_ret].
  do 2 keeps_step. destruct (all _); [by apply keeps_ret|].
  eapply keeps_bind; [apply keeps_get_state|]. intros state_hash _.
  case_bool_decide; [by apply keeps_ret|].
  eapply keeps_bind; [apply keeps_push_unvisited_successors|]. intros pq'' _.
  by apply keeps_ret.
Qed.

Lemma keeps_dfs (n fuel : nat) (self : GameObject) :
  keeps n (dfs_obj fuel self) (λ _, True).
Proof.
  unfold dfs_obj. eapply keeps_bind; [apply keeps_deepcopy|].
  intros r _. apply keeps_while. intros ls. apply keeps_search_body.
Qed.

Lemma keeps_bfs (n fuel : nat) (self : GameObject) :
  keeps n (bfs_obj fuel self) (λ _, True).
Proof.
  unfold bfs_obj. eapply keeps_bind; [apply keeps_deepcopy|].
  intros r _. apply keeps_while. intros ls. apply keeps_search_body.
Qed.

Lemma keeps_ucs (n fuel : nat) (self : GameObject) :
  keeps n (ucs_obj fuel self) (λ _, True).
Proof.
  unfold ucs_obj. eapply keeps_bind; [apply keeps_deepcopy|].
  intros r _. apply keeps_while. intros ls. apply keeps_ucs_body.
Qed.

(** C9: running dfs, bfs or ucs leaves the object that [self.state] refers
    to as it was, and every other object that existed before the call: the
    searches and simulate_move write only to objects that they have
    allocated by deepcopy in the course of the call. *)
Theorem searches_keep_stored_state (self : GameObject) (fuel : nat) (σ σ' : store)
    (a : answer_obj) :
  state_ref self < length σ →
  dfs_obj fuel self σ = Ret (a, σ') ∨ bfs_obj fuel self σ = Ret (a, σ')
  ∨ ucs_obj fuel self σ = Ret (a, σ') →
  σ' !! state_ref self = σ !! state_ref self
  ∧ ∀ r, r < length σ → σ' !! r = σ !! r.
Proof.
  intros Hself Hrun.
  assert (Hkeep : untouched (length σ) σ σ').
  { destruct Hrun as [Hrun | [Hrun | Hrun]].
    - by destruct (keeps_dfs (length σ) fuel self σ a σ').
    - by destruct (keeps_bfs (length σ) fuel self σ a σ').
    - by destruct (keeps_ucs (length σ) fuel self σ a σ'). }
  destruct Hkeep as [_ Hkeep]. split; [by apply Hkeep | done].
Qed.

Lemma searches_keep_stored_state_witness :
  ∃ a σ', bfs_obj 3 A_obj [A_start] = Ret (a, σ') ∧ σ' !! 0 = Some A_start.
Proof.
  assert (Hrun : ∃ a σ', bfs_obj 3 A_obj [A_start] = Ret (a, σ'))
    by (vm_compute; eexists; eexists; reflexivity).
  destruct Hrun as (a & σ' & Hrun).
  exists a, σ'. split; [exact Hrun|].
  destruct (searches_keep_stored_state A_obj 3 [A_start] σ' a) as [Hsame _];
    [simpl; lia | right; left; exact Hrun | exact Hsame].
Defined.

(** ** Objects and values: the store programs do what the value-level code says *)


Lemma is_valid_move_obj_eq (self : GameObject) (row col : Z) (i : nat) (σ : store) :
  is_valid_move_obj self row col i σ
  = (b ← is_valid_move (game_at σ self) row col i; Ret (b, σ)).
Proof. reflexivity. Qed.

Lemma slide_loop_obj_eq (fuel : nat) (self : GameObject) (r_row c_col : Z) (i : nat)
    (cloned_state : ref) (current : cell) (σ : store) (cl : GameState) :
  σ !! cloned_state = Some cl →
  slide_loop_obj fuel self r_row c_col i cloned_state current σ
  = ('(cl', current') ← slide_loop fuel (game_at σ self) r_row c_col i cl current;
     Ret (current', <[cloned_state := cl']> σ)).
Proof.
  intros Hcl. revert current. induction fuel as [|fuel IH]; intros current; [done|].
  cbn [slide_loop_obj slide_loop].
  unfold mbind at 1. unfold prog_bind. rewrite is_valid_move_obj_eq.
  destruct (is_valid_move _ _ _ _) as [valid| |]; cbn [mbind outcome_bind]; [|done|done].
  destruct valid; cbn [negb].
  - unfold mbind at 1. unfold prog_bind, read.
    rewrite (list_lookup_total_correct _ _ _ Hcl).
    unfold mbind at 1. unfold prog_bind, lift.
    destruct (subscript (goals cl) i) as [goal| |]; cbn [mbind outcome_bind];
      [|done|done].
    case_bool_decide.
    + unfold mbind, prog_bind, set_reached, mret, prog_ret. cbn [outcome_bind].
      by rewrite (list_lookup_total_correct _ _ _ Hcl).
    + apply IH.
  - cbn [mbind outcome_bind]. unfold mret, prog_ret. by rewrite list_insert_id.
Qed.

Lemma move_player_acc (self : Game) (r_row c_col : Z) (i : nat) (cl : GameState)
    (ns : list GameState) :
  move_player self r_row c_col i (cl, ns)
  = ('(cl', d) ← move_player self r_row c_col i (cl, []); Ret (cl', ns ++ d)).
Proof.
  unfold move_player.
  destruct (subscript (reached_goal cl) i) as [reached| |]; cbn [mbind outcome_bind];
    [|done|done].
  destruct reached; cbn [mbind outcome_bind]; [by rewrite app_nil_r|].
  destruct (subscript (players cl) i) as [player| |]; cbn [mbind outcome_bind];
    [|done|done].
  destruct (slide _ _ _ _ _ _) as [[cl1 cur]| |]; cbn [mbind outcome_bind];
    [|done|done].
  case_bool_decide; cbn [mbind outcome_bind]; [done | by rewrite app_nil_r].
Qed.

Lemma game_at_app (σ ext : store) (self : GameObject) :
  state_ref self < length σ → game_at (σ ++ ext) self = game_at σ self.
Proof.
  intros Hs. unfold game_at. f_equal. by apply lookup_total_app_l.
Qed.

Lemma move_player_obj_eq (self : GameObject) (r_row c_col : Z) (cloned_state : ref)
    (i : nat) (refs : list ref) (σ : store) (cl : GameState) :
  σ !! cloned_state = Some cl →
  move_player_obj self r_row c_col cloned_state i refs σ
  = ('(cl', d) ← move_player (game_at σ self) r_row c_col i (cl, []);
     Ret (refs ++ seq (length σ) (length d), <[cloned_state := cl']> σ ++ d)).
Proof.
  intros Hcl. pose proof (lookup_lt_Some _ _ _ Hcl) as Hlt.
  unfold move_player_obj, move_player.
  unfold mbind at 1. unfold prog_bind, read.
  rewrite (list_lookup_total_correct _ _ _ Hcl).
  unfold mbind at 1. unfold prog_bind, lift.
  destruct (subscript (reached_goal cl) i) as [reached| |]; cbn [mbind outcome_bind];
    [|done|done].
  destruct reached; cbn [mbind outcome_bind].
  { unfold mret, prog_ret. by rewrite list_insert_id, !app_nil_r. }
  unfold mbind at 1. unfold prog_bind.
  destruct (subscript (players cl) i) as [player| |]; cbn [mbind outcome_bind];
    [|done|done].
  unfold mbind at 1. unfold prog_bind.
  rewrite (slide_loop_obj_eq _ _ _ _ _ _ _ _ cl Hcl). unfold slide, slide_fuel.
  cbn [rows cols game_at].
  destruct (slide_loop _ _ _ _ _ _ _) as [[cl1 cur]| |]; cbn [mbind outcome_bind];
    [|done|done].
  case_bool_decide; cbn [mbind outcome_bind].
  - unfold mbind, prog_bind, set_position, deepcopy, mret, prog_ret.
    rewrite !list_lookup_total_insert_eq, !list_insert_insert_eq, !length_insert by
      (rewrite ?length_insert; done).
    cbn [length seq]. done.
  - unfold mret, prog_ret. by rewrite !app_nil_r.
Qed.

Lemma for_each_move_player_obj_eq (self : GameObject) (r_row c_col : Z)
    (idx : list nat) (σ : store) (cl : GameState) (ns : list GameState) :
  state_ref self < length σ →
  for_each_obj (move_player_obj self r_row c_col (length σ)) idx
    (seq (S (length σ)) (length ns)) (σ ++ cl :: ns)
  = ('(cl', ns') ← for_each (move_player (game_at σ self) r_row c_col) idx (cl, ns);
     Ret (seq (S (length σ)) (length ns'), σ ++ cl' :: ns')).
Proof.
  intros Hself. revert cl ns. induction idx as [|i idx IH]; intros cl ns; [done|].
  cbn [for_each_obj for_each].
  unfold mbind at 1. unfold prog_bind.
  rewrite (move_player_obj_eq _ _ _ _ _ _ _ cl)
    by (by rewrite lookup_app_r, Nat.sub_diag).
  rewrite game_at_app by done.
  rewrite (move_player_acc _ _ _ _ cl ns).
  destruct (move_player _ _ _ _ (cl, [])) as [[cl1 d]| |]; cbn [mbind outcome_bind];
    [|done|done].
  rewrite insert_app_r_alt, Nat.sub_diag by done. cbn [insert list_insert].
  rewrite <- app_assoc. cbn [app]. rewrite <- (IH cl1 (ns ++ d)).
  rewrite !length_app. cbn [length].
  rewrite seq_app. do 3 f_equal. lia.
Qed.

Lemma simulate_move_obj_eq (self : GameObject) (current_state : ref) (r_row c_col : Z)
    (σ : store) :
  state_ref self < length σ →
  simulate_move_obj self current_state r_row c_col σ
  = ('(cl, ns) ← simulate_players (game_at σ self) (σ !!! current_state) r_row c_col;
     Ret (seq (S (length σ)) (length ns), σ ++ cl :: ns)).
Proof.
  intros Hself. unfold simulate_move_obj, simulate_players.
  unfold mbind at 1. unfold prog_bind, deepcopy.
  unfold mbind at 1. unfold prog_bind, read.
  rewrite lookup_total_app_r, Nat.sub_diag by done. cbn [lookup_total list_lookup_total].
  apply (for_each_move_player_obj_eq self r_row c_col _ σ _ []). done.
Qed.

(** ** The object-level searches do what the value-level ones say *)

Lemma lookup_total_prefix (σ σ' : store) (r : ref) :
  σ `prefix_of` σ' → r < length σ → σ' !!! r = σ !!! r.
Proof. intros [ext ->] Hr. by apply lookup_total_app_l. Qed.

Lemma game_at_prefix (σ σ' : store) (self : GameObject) :
  σ `prefix_of` σ' → state_ref self < length σ → game_at σ' self = game_at σ self.
Proof. intros [ext ->] Hr. by apply game_at_app. Qed.

Lemma prefix_length_le (σ σ' : store) : σ `prefix_of` σ' → length σ ≤ length σ'.
Proof. intros [ext ->]. rewrite length_app. lia. Qed.

Lemma allocated_prefix (σ σ' : store) (l : list ref) :
  σ `prefix_of` σ' → allocated σ l → allocated σ' l.
Proof.
  intros Hp Hl. eapply Forall_impl; [exact Hl|]. intros r Hr.
  apply prefix_length_le in Hp. simpl in *. lia.
Qed.

Lemma deref_prefix (σ σ' : store) (l : list ref) :
  σ `prefix_of` σ' → allocated σ l → deref σ' l = deref σ l.
Proof.
  intros Hp Hl. unfold deref. apply Forall_fmap_ext_1.
  eapply Forall_impl; [exact Hl|].
  intros r Hr. by apply lookup_total_prefix.
Qed.

Lemma allocated_frontier_prefix (σ σ' : store) (fr : frontier_obj) :
  σ `prefix_of` σ' → allocated_frontier σ fr → allocated_frontier σ' fr.
Proof.
  intros Hp Hfr. eapply Forall_impl; [exact Hfr|]. intros [r p] [Hr Hpath]. split.
  - apply prefix_length_le in Hp. simpl in *. lia.
  - by eapply allocated_prefix.
Qed.

Lemma deref_frontier_prefix (σ σ' : store) (fr : frontier_obj) :
  σ `prefix_of` σ' → allocated_frontier σ fr →
  deref_entry σ' <$> fr = deref_entry σ <$> fr.
Proof.
  intros Hp Hfr. apply Forall_fmap_ext_1.
  eapply Forall_impl; [exact Hfr|].
  intros [r p] [Hr Hpath]. unfold deref_entry. simpl in *.
  by rewrite (lookup_total_prefix σ σ'), (deref_prefix σ σ').
Qed.

Lemma refines_bind {A B A' B' : Type} (R : store → A → B → Prop)
    (R' : store → A' → B' → Prop) (σ : store) (m : prog A) (o : outcome B)
    (f : A → prog A') (g : B → outcome B') :
  refines R σ m o →
  (∀ a b σ', σ `prefix_of` σ' → R σ' a b → refines R' σ' (f a) (g b)) →
  refines R' σ (m ≫= f) (o ≫= g).
Proof.
  intros Hm Hf.
  assert (Hrun : (m ≫= f) σ = match m σ with
                             | Ret (a, σ') => f a σ'
                             | Raise e => Raise e
                             | Timeout => Timeout
                             end) by done.
  unfold refines in *. rewrite !Hrun. clear Hrun.
  destruct o as [b|e|]; cbn [mbind outcome_bind]; [|by rewrite Hm..].
  destruct Hm as (a & σ1 & -> & Hp & HR).
  specialize (Hf a b σ1 Hp HR).
  destruct (g b) as [b'|e|]; [|done..].
  destruct Hf as (a' & σ2 & -> & Hp' & HR').
  exists a', σ2. split; [done|]. split; [by etrans | done].
Qed.

Lemma for_each_refines {A S S' : Type} (R : store → S → S' → Prop) (σ0 : store)
    (body_obj : A → S → prog S) (body : A → S' → outcome S') (l : list A) :
  (∀ a σ s s', σ0 `prefix_of` σ → R σ s s' →
     refines R σ (body_obj a s) (body a s')) →
  ∀ σ s s', σ0 `prefix_of` σ → R σ s s' →
    refines R σ (for_each_obj body_obj l s) (for_each body l s').
Proof.
  intros Hbody. induction l as [|a l IH]; intros σ s s' Hp HR; cbn [for_each_obj for_each].
  - exists s, σ. by split.
  - eapply refines_bind; [by apply Hbody|].
    intros s1 s1' σ1 Hp1 HR1. apply IH; [by etrans | done].
Qed.

Lemma while_loop_refines {L L' R R' : Type} (RL : store → L → L' → Prop)
    (RR : store → R → R' → Prop) (σ0 : store) (fuel : nat)
    (body_obj : L → prog (step L R)) (body : L' → outcome (step L' R')) :
  (∀ σ l l', σ0 `prefix_of` σ → RL σ l l' →
     refines (λ σ', step_related (RL σ') (RR σ')) σ (body_obj l) (body l')) →
  ∀ σ l l', σ0 `prefix_of` σ → RL σ l l' →
    refines RR σ (while_loop_obj fuel body_obj l) (while_loop fuel body l').
Proof.
  intros Hbody. induction fuel as [|fuel IH]; intros σ l l' Hp HR;
    cbn [while_loop_obj while_loop]; [done|].
  eapply refines_bind; [by apply Hbody|].
  intros [l1|r1] [l1'|r1'] σ1 Hp1 HR1; simpl in HR1; try done.
  - apply IH; [by etrans | done].
  - exists r1, σ1. by split.
Qed.

Lemma simulate_move_refines (self : GameObject) (current_state : ref)
    (r_row c_col : Z) (σ : store) :
  state_ref self < length σ →
  refines (λ σ' refs ns, allocated σ' refs ∧ deref σ' refs = ns) σ
    (simulate_move_obj self current_state r_row c_col)
    (simulate_move (game_at σ self) (σ !!! current_state) r_row c_col).
Proof.
  intros Hself. unfold refines, simulate_move.
  rewrite simulate_move_obj_eq by done.
  destruct (simulate_players _ _ _ _) as [[cl ns]| |]; cbn [mbind outcome_bind];
    [|done|done].
  eexists _, _. split; [reflexivity|]. split; [by apply prefix_app_r|]. split.
  - apply Forall_forall. intros r Hr%elem_of_seq.
    rewrite length_app. simpl. lia.
  - apply list_eq. intros j. unfold deref. rewrite list_lookup_fmap.
    destruct (decide (j < length ns)) as [Hj|Hj].
    + rewrite lookup_seq_lt by done. simpl.
      rewrite lookup_total_app_r by lia.
      replace (S (length σ + j) - length σ) with (S j) by lia.
      destruct (lookup_lt_is_Some_2 ns j Hj) as [x Hx].
      rewrite Hx. f_equal. by apply list_lookup_total_correct.
    + rewrite lookup_seq_ge by lia. simpl. symmetry. apply lookup_ge_None. lia.
Qed.

Lemma list_pop_fmap {A B : Type} (f : A → B) (l : list A) :
  list_pop (f <$> l) = pop_map f (list_pop l).
Proof.
  unfold list_pop. rewrite <- fmap_reverse.
  destruct (reverse l) as [|a r]; [done|]. simpl. by rewrite fmap_reverse.
Qed.

Lemma popleft_fmap {A B : Type} (f : A → B) (l : list A) :
  popleft (f <$> l) = pop_map f (popleft l).
Proof. by destruct l. Qed.

Lemma refines_ret {A B : Type} (R : store → A → B → Prop) (σ : store) (a : A) (b : B) :
  R σ a b → refines R σ (mret a) (Ret b).
Proof. intros HR. exists a, σ. by split. Qed.

Lemma deref_app (σ : store) (l1 l2 : list ref) :
  deref σ (l1 ++ l2) = deref σ l1 ++ deref σ l2.
Proof. unfold deref. apply fmap_app. Qed.

Lemma push_successors_refines (self : GameObject) (current_state : ref)
    (path : list ref) (fr : frontier_obj) (σ : store) :
  state_ref self < length σ → current_state < length σ → allocated σ path →
  allocated_frontier σ fr →
  refines (λ σ' fr_obj fr_val,
             allocated_frontier σ' fr_obj ∧ deref_entry σ' <$> fr_obj = fr_val) σ
    (push_successors_obj self current_state path fr)
    (push_successors (game_at σ self) (σ !!! current_state) (deref σ path)
       (deref_entry σ <$> fr)).
Proof.
  intros Hself Hcur Hpath Hfr. unfold push_successors_obj, push_successors.
  apply (for_each_refines _ σ); [|done|done].
  intros [mr mc] σ1 fr1 frv1 Hp1 [Hfr1 Hd1].
  eapply refines_bind.
  { rewrite <- (game_at_prefix σ σ1), <- (lookup_total_prefix σ σ1) by done.
    apply simulate_move_refines. apply prefix_length_le in Hp1. lia. }
  intros refs ns σ2 Hp2 [Hrefs Hns]. apply refines_ret.
  rewrite !(foldl_snoc_map (λ r, (r, path ++ [current_state]))).
  rewrite (foldl_snoc_map (λ s, (s, deref σ path ++ [σ !!! current_state]))).
  assert (Hp : σ `prefix_of` σ2) by (by etrans).
  split.
  - unfold allocated_frontier. apply Forall_app.
    split; [exact (allocated_frontier_prefix σ1 σ2 fr1 Hp2 Hfr1)|].
    apply Forall_forall. intros e He. apply list_elem_of_fmap in He as (r & -> & Hr).
    cbn [fst snd]. split.
    + revert r Hr. by apply Forall_forall.
    + apply (allocated_prefix σ); [done|]. apply Forall_app. split; [done|].
      by repeat constructor.
  - rewrite fmap_app. f_equal.
    + rewrite <- Hd1. by apply deref_frontier_prefix.
    + rewrite <- Hns. change (map ?f ?l) with (f <$> l).
      unfold deref. rewrite <- !list_fmap_compose.
      apply list_fmap_ext. intros j r _. unfold deref_entry. cbn [fst snd compose].
      f_equal. unfold deref. rewrite fmap_app. f_equal.
      * exact (deref_prefix σ σ2 path Hp Hpath).
      * simpl. f_equal. by apply lookup_total_prefix.
Qed.

Lemma refines_step {A A' B' : Type} (R : store → A' → B' → Prop) (σ σ1 : store)
    (m : prog A) (a : A) (f : A → prog A') (o : outcome B') :
  m σ = Ret (a, σ1) → σ `prefix_of` σ1 → refines R σ1 (f a) o →
  refines R σ (m ≫= f) o.
Proof.
  intros Hm Hp Hf.
  assert (Hrun : (m ≫= f) σ = f a σ1).
  { unfold mbind, prog_bind. by rewrite Hm. }
  unfold refines in *. rewrite !Hrun.
  destruct o as [b|e|]; [|done..].
  destruct Hf as (a' & σ2 & -> & Hp' & HR).
  exists a', σ2. split; [done|]. split; [by etrans | done].
Qed.

Lemma search_body_refines
    (pop_obj : frontier_obj → option ((ref * list ref) * frontier_obj))
    (pop : frontier → option ((GameState * list GameState) * frontier))
    (self : GameObject) (ls : loop_state_obj) (σ : store) :
  (∀ σ fr, pop (deref_entry σ <$> fr) = pop_map (deref_entry σ) (pop_obj fr)) →
  (∀ fr e fr', pop_obj fr = Some (e, fr') → e :: fr' ≡ₚ fr) →
  state_ref self < length σ → allocated_loop σ ls →
  refines (λ σ', step_related
                   (λ l l', allocated_loop σ' l ∧ deref_loop σ' l = l')
                   (λ a a', deref_answer σ' a = a')) σ
    (search_body_obj pop_obj self ls)
    (search_body pop (game_at σ self) (deref_loop σ ls)).
Proof.
  intros Hnat Hperm Hself. destruct ls as [[[fr visited] vs] nv].
  intros [Hfr Hvs]. cbn [fst snd] in Hfr, Hvs.
  unfold search_body_obj, search_body, deref_loop. cbn [fst snd].
  rewrite Hnat. destruct (pop_obj fr) as [[[cur path] fr']|] eqn:Hpop; cbn [pop_map].
  2:{ by apply refines_ret. }
  apply Hperm in Hpop. unfold allocated_frontier in Hfr. rewrite <- Hpop in Hfr.
  apply Forall_cons in Hfr as [[Hcur Hpath] Hfr']. cbn [fst snd] in Hcur, Hpath.
  fold (allocated_frontier σ fr') in Hfr'.
  unfold deref_entry at 1 2 3 4. cbn [fst snd].
  set (σ1 := σ ++ [σ !!! cur]).
  assert (Hp1 : σ `prefix_of` σ1) by (by apply prefix_app_r).
  assert (Hlen1 : length σ1 = S (length σ)).
  { unfold σ1. rewrite length_app. simpl. lia. }
  assert (Hvs1 : deref σ1 (vs ++ [length σ]) = deref σ vs ++ [σ !!! cur]).
  { rewrite deref_app. f_equal; [by apply deref_prefix|].
    unfold deref, σ1. simpl. by rewrite lookup_total_app_r, Nat.sub_diag. }
  assert (Hvsa : allocated σ1 (vs ++ [length σ])).
  { apply Forall_app. split; [by eapply allocated_prefix|].
    repeat constructor. lia. }
  assert (Hcur1 : σ1 !!! cur = σ !!! cur) by (by apply lookup_total_prefix).
  apply (refines_step _ σ σ1 _ (length σ)); [done | done |].
  apply (refines_step _ σ1 σ1 _ (σ !!! cur));
    [unfold read; by rewrite Hcur1 | done |].
  destruct (all (reached_goal (σ !!! cur))).
  { apply refines_ret. unfold step_related, deref_answer.
    cbn [fst snd fmap option_fmap option_map].
    rewrite Hvs1, deref_app, (deref_prefix σ σ1) by done.
    unfold deref at 2. simpl. by rewrite Hcur1. }
  apply (refines_step _ σ1 σ1 _ (get_state (σ !!! cur)));
    [unfold get_state_obj, mbind, prog_bind, read, mret, prog_ret; by rewrite Hcur1
    | done |].
  case_bool_decide.
  { apply refines_ret. unfold step_related, deref_loop, allocated_loop. cbn [fst snd].
    split; [split; [by eapply allocated_frontier_prefix | done]|].
    by rewrite Hvs1, (deref_frontier_prefix σ σ1). }
  pose proof (push_successors_refines self cur path fr' σ1) as Hpush.
  rewrite (game_at_prefix σ σ1), Hcur1, (deref_prefix σ σ1),
    (deref_frontier_prefix σ σ1) in Hpush by done.
  eapply refines_bind.
  { apply Hpush; [lia | lia | by eapply allocated_prefix
                 | by eapply allocated_frontier_prefix]. }
  intros fr0 frv0 σ2 Hp2 [Ha2 Hd2]. apply refines_ret.
  unfold step_related, allocated_loop, deref_loop. cbn [fst snd].
  split; [split; [done | by eapply allocated_prefix]|].
  rewrite (deref_prefix σ1 σ2), Hvs1 by done. by rewrite <- Hd2.
Qed.

Lemma search_obj_refines
    (pop_obj : frontier_obj → option ((ref * list ref) * frontier_obj))
    (pop : frontier → option ((GameState * list GameState) * frontier))
    (fuel : nat) (self : GameObject) (σ : store) :
  (∀ σ fr, pop (deref_entry σ <$> fr) = pop_map (deref_entry σ) (pop_obj fr)) →
  (∀ fr e fr', pop_obj fr = Some (e, fr') → e :: fr' ≡ₚ fr) →
  state_ref self < length σ →
  refines (λ σ' a a', deref_answer σ' a = a') σ
    (initial_state ← deepcopy (state_ref self);
     while_loop_obj fuel (search_body_obj pop_obj self)
       ([(initial_state, [])], ∅, [], 0))
    (while_loop fuel (search_body pop (game_at σ self))
       ([(state (game_at σ self), [])], ∅, [], 0)).
Proof.
  intros Hnat Hperm Hself.
  set (σ1 := σ ++ [σ !!! state_ref self]).
  assert (Hp1 : σ `prefix_of` σ1) by (by apply prefix_app_r).
  apply (refines_step _ σ σ1 _ (length σ)); [done | done |].
  apply (while_loop_refines
           (λ σ' l l', allocated_loop σ' l ∧ deref_loop σ' l = l')
           (λ σ' a a', deref_answer σ' a = a') σ1); [ | done | ].
  - intros σ' l l' Hp' [Hal <-].
    rewrite <- (game_at_prefix σ σ') by (done || by etrans).
    apply search_body_refines; [done | done | | done].
    apply prefix_length_le in Hp', Hp1. lia.
  - split.
    + split; [|constructor]. repeat constructor. cbn [fst].
      unfold σ1. rewrite length_app. simpl. lia.
    + unfold deref_loop, deref_entry, deref. cbn [fst snd fmap list_fmap].
      unfold σ1. by rewrite lookup_total_app_r, Nat.sub_diag.
Qed.

Lemma dfs_obj_refines (fuel : nat) (self : GameObject) (σ : store) :
  state_ref self < length σ →
  refines (λ σ' a a', deref_answer σ' a = a') σ
    (dfs_obj fuel self) (dfs fuel (game_at σ self)).
Proof.
  intros Hself. apply search_obj_refines; [ | | done].
  - intros σ' fr. apply list_pop_fmap.
  - intros fr e fr' Hpop. apply list_pop_Some in Hpop as ->.
    by rewrite Permutation_app_comm.
Qed.

Lemma bfs_obj_refines (fuel : nat) (self : GameObject) (σ : store) :
  state_ref self < length σ →
  refines (λ σ' a a', deref_answer σ' a = a') σ
    (bfs_obj fuel self) (bfs fuel (game_at σ self)).
Proof.
  intros Hself. apply search_obj_refines; [ | | done].
  - intros σ' fr. apply popleft_fmap.
  - intros [|y fr] e fr' [=]. by subst.
Qed.

(** *** heapq on mapped items *)
Section heapq_fmap.
Context {A B : Type} (f : A → B) (lt : B → B → bool) (lt' : A → A → bool).
Hypothesis lt_f : ∀ a b, lt' a b = lt (f a) (f b).

Lemma siftdown_loop_fmap (fuel : nat) (heap : list A) (newitem : A)
    (startpos pos : nat) :
  f <$> siftdown_loop lt' fuel heap newitem startpos pos
  = siftdown_loop lt fuel (f <$> heap) (f newitem) startpos pos.
Proof.
  revert heap pos. induction fuel as [|fuel IH]; intros heap pos;
    cbn [siftdown_loop]; [by rewrite list_fmap_insert|].
  case_bool_decide; [|by rewrite list_fmap_insert].
  rewrite list_lookup_fmap.
  destruct (heap !! ((pos - 1) / 2)) as [parent|]; cbn [fmap option_fmap option_map];
    [|by rewrite list_fmap_insert].
  rewrite <- lt_f. destruct (lt' newitem parent); [|by rewrite list_fmap_insert].
  by rewrite IH, list_fmap_insert.
Qed.

Lemma siftdown_fmap (heap : list A) (startpos pos : nat) :
  f <$> siftdown lt' heap startpos pos = siftdown lt (f <$> heap) startpos pos.
Proof.
  unfold siftdown. rewrite list_lookup_fmap.
  destruct (heap !! pos) as [newitem|]; cbn [fmap option_fmap option_map]; [|done].
  apply siftdown_loop_fmap.
Qed.

Lemma heappush_fmap (heap : list A) (item : A) :
  f <$> heappush lt' heap item = heappush lt (f <$> heap) (f item).
Proof.
  unfold heappush. rewrite siftdown_fmap, fmap_app, !length_app, !length_fmap.
  done.
Qed.

Lemma siftup_loop_fmap (fuel : nat) (heap : list A) (endpos pos : nat) :
  siftup_loop lt fuel (f <$> heap) endpos pos
  = ((f <$> (siftup_loop lt' fuel heap endpos pos).1),
     (siftup_loop lt' fuel heap endpos pos).2).
Proof.
  revert heap pos. induction fuel as [|fuel IH]; intros heap pos;
    cbn [siftup_loop]; [done|].
  case_bool_decide; [|done].
  rewrite !list_lookup_fmap.
  set (childpos' := if bool_decide (2 * pos + 1 + 1 < endpos) then _ else _).
  set (childpos := if bool_decide (2 * pos + 1 + 1 < endpos) then _ else _).
  assert (Heq : childpos' = childpos).
  { unfold childpos', childpos. case_bool_decide; [|done].
    destruct (heap !! (2 * pos + 1)) as [lchild|];
      cbn [fmap option_fmap option_map]; [|done].
    destruct (heap !! (2 * pos + 1 + 1)) as [rchild|];
      cbn [fmap option_fmap option_map]; [|done].
    by rewrite <- lt_f. }
  rewrite Heq. clearbody childpos. clear Heq childpos'.
  destruct (heap !! childpos) as [child|]; cbn [fmap option_fmap option_map];
    [|done].
  by rewrite <- list_fmap_insert, IH.
Qed.

Lemma siftup_fmap (heap : list A) (pos : nat) :
  f <$> siftup lt' heap pos = siftup lt (f <$> heap) pos.
Proof.
  unfold siftup. rewrite list_lookup_fmap, length_fmap.
  destruct (heap !! pos) as [newitem|]; cbn [fmap option_fmap option_map]; [|done].
  rewrite siftup_loop_fmap.
  destruct (siftup_loop lt' _ heap _ pos) as [heap' pos']. cbn [fst snd].
  by rewrite siftdown_fmap, list_fmap_insert.
Qed.

Lemma heappop_fmap (heap : list A) :
  heappop lt (f <$> heap) = pop_map f (heappop lt' heap).
Proof.
  unfold heappop. rewrite list_pop_fmap.
  destruct (list_pop heap) as [[lastelt heap0]|]; cbn [pop_map]; [|done].
  destruct heap0 as [|returnitem heap1]; cbn [fmap list_fmap pop_map]; [done|].
  f_equal. f_equal. by rewrite siftup_fmap.
Qed.
End heapq_fmap.

Lemma entry_lt_obj_eq (σ : store) (a b : entry_obj) :
  entry_lt_obj σ a b = entry_lt (deref_queue_entry σ a) (deref_queue_entry σ b).
Proof. by destruct a as [[ca ra] pa], b as [[cb rb] pb]. Qed.

Lemma allocated_queue_prefix (σ σ' : store) (pq : list entry_obj) :
  σ `prefix_of` σ' → allocated_queue σ pq → allocated_queue σ' pq.
Proof.
  intros Hp Hpq. eapply Forall_impl; [exact Hpq|]. intros [[c r] p] [Hr Hpath]. split.
  - apply prefix_length_le in Hp. simpl in *. lia.
  - by eapply allocated_prefix.
Qed.

Lemma deref_queue_prefix (σ σ' : store) (pq : list entry_obj) :
  σ `prefix_of` σ' → allocated_queue σ pq →
  deref_queue_entry σ' <$> pq = deref_queue_entry σ <$> pq.
Proof.
  intros Hp Hpq. apply Forall_fmap_ext_1.
  eapply Forall_impl; [exact Hpq|].
  intros [[c r] p] [Hr Hpath]. unfold deref_queue_entry. simpl in *.
  by rewrite (lookup_total_prefix σ σ'), (deref_prefix σ σ').
Qed.

Lemma push_unvisited_obj_eq (visited : gset key) (cost : nat) (current_state : ref)
    (path : list ref) (pq : list entry_obj) (new_states : list ref) (σ : store) :
  current_state < length σ → allocated σ path → allocated σ new_states →
  allocated_queue σ pq →
  ∃ pq', push_unvisited_obj visited cost current_state path pq new_states σ
         = Ret (pq', σ)
    ∧ allocated_queue σ pq'
    ∧ deref_queue_entry σ <$> pq'
      = push_unvisited visited cost (σ !!! current_state) (deref σ path)
          (deref_queue_entry σ <$> pq) (deref σ new_states).
Proof.
  intros Hcur Hpath Hns. revert pq.
  induction new_states as [|r ns IH]; intros pq Hpq.
  { exists pq. by split. }
  apply Forall_cons in Hns as [Hr Hns].
  unfold push_unvisited_obj, push_unvisited. cbn [for_each_obj deref fmap list_fmap foldl].
  set (pq1 := if bool_decide (get_state (σ !!! r) ∉ visited)
              then heappush (entry_lt_obj σ) pq (cost + 1, r, path ++ [current_state])
              else pq).
  assert (Hpq1 : allocated_queue σ pq1).
  { unfold pq1. case_bool_decide; [|done].
    unfold allocated_queue. rewrite heappush_perm. constructor; [|done].
    cbn [fst snd]. split; [done|].
    apply Forall_app. split; [done | by repeat constructor]. }
  destruct (IH Hns pq1 Hpq1) as (pq' & Hrun & Hal & Hd).
  exists pq'. split; [|split; [done|]].
  - rewrite <- Hrun. unfold mbind at 1. unfold prog_bind.
    unfold get_state_obj, mbind, prog_bind, read, mret, prog_ret.
    unfold pq1. by case_bool_decide.
  - rewrite Hd. unfold push_unvisited. f_equal. unfold pq1.
    case_bool_decide; [|done].
    rewrite (heappush_fmap (deref_queue_entry σ) entry_lt (entry_lt_obj σ))
      by apply entry_lt_obj_eq.
    f_equal. unfold deref_queue_entry. cbn [fst snd]. by rewrite deref_app.
Qed.

Lemma push_unvisited_successors_refines (self : GameObject) (visited : gset key)
    (cost : nat) (current_state : ref) (path : list ref) (pq : list entry_obj)
    (σ : store) :
  state_ref self < length σ → current_state < length σ → allocated σ path →
  allocated_queue σ pq →
  refines (λ σ' pq_obj pq_val,
             allocated_queue σ' pq_obj ∧ deref_queue_entry σ' <$> pq_obj = pq_val) σ
    (push_unvisited_successors_obj self visited cost current_state path pq)
    (push_unvisited_successors (game_at σ self) visited cost (σ !!! current_state)
       (deref σ path) (deref_queue_entry σ <$> pq)).
Proof.
  intros Hself Hcur Hpath Hpq.
  unfold push_unvisited_successors_obj, push_unvisited_successors.
  apply (for_each_refines _ σ); [|done|done].
  intros [mr mc] σ1 pq1 pqv1 Hp1 [Hpq1 Hd1].
  eapply refines_bind.
  { rewrite <- (game_at_prefix σ σ1), <- (lookup_total_prefix σ σ1) by done.
    apply simulate_move_refines. apply prefix_length_le in Hp1. lia. }
  intros refs ns σ2 Hp2 [Hrefs Hns].
  assert (Hp : σ `prefix_of` σ2) by (by etrans).
  destruct (push_unvisited_obj_eq visited cost current_state path pq1 refs σ2)
    as (pq' & Hrun & Hal & Hd).
  - apply prefix_length_le in Hp. lia.
  - by eapply allocated_prefix.
  - done.
  - exact (allocated_queue_prefix σ1 σ2 pq1 Hp2 Hpq1).
  - exists pq', σ2. split; [done|]. split; [done|]. split; [done|].
    rewrite Hd, Hns, <- Hd1.
    by rewrite (lookup_total_prefix σ σ2), (deref_prefix σ σ2),
      (deref_queue_prefix σ1 σ2).
Qed.

Lemma ucs_body_refines (self : GameObject) (ls : ucs_state_obj) (σ : store) :
  state_ref self < length σ → allocated_ucs σ ls →
  refines (λ σ', step_related
                   (λ l l', allocated_ucs σ' l ∧ deref_ucs σ' l = l')
                   (λ a a', deref_answer σ' a = a')) σ
    (ucs_body_obj self ls)
    (ucs_body (game_at σ self) (deref_ucs σ ls)).
Proof.
  intros Hself. destruct ls as [[[pq visited] vs] nv].
  intros [Hpq Hvs]. cbn [fst snd] in Hpq, Hvs.
  unfold ucs_body_obj, ucs_body, deref_ucs. cbn [fst snd].
  rewrite (heappop_fmap (deref_queue_entry σ) entry_lt (entry_lt_obj σ))
    by apply entry_lt_obj_eq.
  apply (refines_step _ σ σ _ (heappop (entry_lt_obj σ) pq)); [done | done |].
  destruct (heappop (entry_lt_obj σ) pq) as [[[[cost cur] path] pq']|] eqn:Hpop;
    cbn [pop_map].
  2:{ by apply refines_ret. }
  apply heappop_perm in Hpop. unfold allocated_queue in Hpq. rewrite <- Hpop in Hpq.
  apply Forall_cons in Hpq as [[Hcur Hpath] Hpq']. cbn [fst snd] in Hcur, Hpath.
  fold (allocated_queue σ pq') in Hpq'.
  change (deref_queue_entry σ (cost, cur, path)) with (cost, σ !!! cur, deref σ path).
  cbv iota beta.
  set (σ1 := σ ++ [σ !!! cur]).
  assert (Hp1 : σ `prefix_of` σ1) by (by apply prefix_app_r).
  assert (Hlen1 : length σ1 = S (length σ)).
  { unfold σ1. rewrite length_app. simpl. lia. }
  assert (Hvs1 : deref σ1 (vs ++ [length σ]) = deref σ vs ++ [σ !!! cur]).
  { rewrite deref_app. f_equal; [by apply deref_prefix|].
    unfold deref, σ1. simpl. by rewrite lookup_total_app_r, Nat.sub_diag. }
  assert (Hvsa : allocated σ1 (vs ++ [length σ])).
  { apply Forall_app. split; [by eapply allocated_prefix|].
    repeat constructor. lia. }
  assert (Hcur1 : σ1 !!! cur = σ !!! cur) by (by apply lookup_total_prefix).
  apply (refines_step _ σ σ1 _ (length σ)); [done | done |].
  apply (refines_step _ σ1 σ1 _ (σ !!! cur));
    [unfold read; by rewrite Hcur1 | done |].
  destruct (all (reached_goal (σ !!! cur))).
  { apply refines_ret. unfold step_related, deref_answer.
    cbn [fst snd fmap option_fmap option_map].
    rewrite Hvs1, deref_app, (deref_prefix σ σ1) by done.
    unfold deref at 2. simpl. by rewrite Hcur1. }
  apply (refines_step _ σ1 σ1 _ (get_state (σ !!! cur)));
    [unfold get_state_obj, mbind, prog_bind, read, mret, prog_ret; by rewrite Hcur1
    | done |].
  case_bool_decide.
  { apply refines_ret. unfold step_related, deref_ucs, allocated_ucs. cbn [fst snd].
    split; [split; [by eapply allocated_queue_prefix | done]|].
    by rewrite Hvs1, (deref_queue_prefix σ σ1). }
  pose proof (push_unvisited_successors_refines self
                (visited ∪ {[get_state (σ !!! cur)]}) cost cur path pq' σ1) as Hpush.
  rewrite (game_at_prefix σ σ1), Hcur1, (deref_prefix σ σ1),
    (deref_queue_prefix σ σ1) in Hpush by done.
  eapply refines_bind.
  { apply Hpush; [lia | lia | by eapply allocated_prefix
                 | by eapply allocated_queue_prefix]. }
  intros pq0 pqv0 σ2 Hp2 [Ha2 Hd2]. apply refines_ret.
  unfold step_related, allocated_ucs, deref_ucs. cbn [fst snd].
  split; [split; [done | by eapply allocated_prefix]|].
  rewrite (deref_prefix σ1 σ2), Hvs1 by done. by rewrite <- Hd2.
Qed.

Lemma ucs_obj_refines (fuel : nat) (self : GameObject) (σ : store) :
  state_ref self < length σ →
  refines (λ σ' a a', deref_answer σ' a = a') σ
    (ucs_obj fuel self) (ucs fuel (game_at σ self)).
Proof.
  intros Hself. unfold ucs_obj, ucs.
  set (σ1 := σ ++ [σ !!! state_ref self]).
  assert (Hp1 : σ `prefix_of` σ1) by (by apply prefix_app_r).
  apply (refines_step _ σ σ1 _ (length σ)); [done | done |].
  apply (while_loop_refines
           (λ σ' l l', allocated_ucs σ' l ∧ deref_ucs σ' l = l')
           (λ σ' a a', deref_answer σ' a = a') σ1); [ | done | ].
  - intros σ' l l' Hp' [Hal <-].
    rewrite <- (game_at_prefix σ σ') by (done || by etrans).
    apply ucs_body_refines; [|done].
    apply prefix_length_le in Hp', Hp1. lia.
  - split.
    + split; [|constructor]. repeat constructor. cbn [fst snd].
      unfold σ1. rewrite length_app. simpl. lia.
    + unfold deref_ucs, deref_queue_entry, deref. cbn [fst snd fmap list_fmap].
      unfold σ1. by rewrite lookup_total_app_r, Nat.sub_diag.
Qed.

(** With the three termination lemmas: on a store whose game is well formed, the
    object-level searches return, on an extension of the store, an answer
    whose states are those of the value-level answer. *)
Lemma searches_obj_return (self : GameObject) (σ : store) :
  state_ref self < length σ → wf_game (game_at σ self) →
  ∃ n, ∀ fuel, n ≤ fuel →
    (∃ a σ', dfs_obj fuel self σ = Ret (a, σ') ∧ σ `prefix_of` σ'
             ∧ dfs fuel (game_at σ self) = Ret (deref_answer σ' a)
             ∧ answer_ok (deref_answer σ' a))
    ∧ (∃ a σ', bfs_obj fuel self σ = Ret (a, σ') ∧ σ `prefix_of` σ'
               ∧ bfs fuel (game_at σ self) = Ret (deref_answer σ' a)
               ∧ answer_ok (deref_answer σ' a))
    ∧ (∃ a σ', ucs_obj fuel self σ = Ret (a, σ') ∧ σ `prefix_of` σ'
               ∧ ucs fuel (game_at σ self) = Ret (deref_answer σ' a)
               ∧ answer_ok (deref_answer σ' a)).
Proof.
  intros Hself Hwf.
  destruct (dfs_terminates (game_at σ self) Hwf) as (ad & nd & Hokd & Hd).
  destruct (bfs_terminates (game_at σ self) Hwf) as (ab & nb & Hokb & Hb).
  destruct (ucs_terminates (game_at σ self) Hwf) as (au & nu & Hoku & Hu).
  exists (nd + nb + nu). intros fuel Hfuel. split; [|split].
  - pose proof (dfs_obj_refines fuel self σ Hself) as Href.
    rewrite Hd in Href |- * by lia.
    destruct Href as (a & σ' & Hrun & Hp & <-). by exists a, σ'.
  - pose proof (bfs_obj_refines fuel self σ Hself) as Href.
    rewrite Hb in Href |- * by lia.
    destruct Href as (a & σ' & Hrun & Hp & <-). by exists a, σ'.
  - pose proof (ucs_obj_refines fuel self σ Hself) as Href.
    rewrite Hu in Href |- * by lia.
    destruct Href as (a & σ' & Hrun & Hp & <-). by exists a, σ'.
Qed.

(** ** The iteration budgets are never the reason a loop stops *)

Lemma slide_loop_more_fuel (n k : nat) (self : Game) (r_row c_col : Z) (i : nat)
    (cl : GameState) (cur : cell) :
  slide_loop n self r_row c_col i cl cur ≠ Timeout →
  slide_loop (n + k) self r_row c_col i cl cur = slide_loop n self r_row c_col i cl cur.
Proof.
  revert cur. induction n as [|n IH]; intros cur Hn; [done|].
  cbn [slide_loop Nat.add] in Hn |- *.
  destruct (is_valid_move _ _ _ _) as [valid| |]; cbn [mbind outcome_bind] in *;
    [|done|done].
  destruct valid; cbn [negb] in *; [|done].
  destruct (subscript _ _) as [goal| |]; cbn [mbind outcome_bind] in *; [|done|done].
  case_bool_decide; [done|]. by apply IH.
Qed.

Lemma subscript_comes_back {A : Type} (l : list A) (i : nat) : subscript l i ≠ Timeout.
Proof. unfold subscript. by destruct (l !! i). Qed.

Lemma is_valid_move_comes_back (self : Game) (row col : Z) (i : nat) :
  is_valid_move self row col i ≠ Timeout.
Proof.
  unfold is_valid_move. destruct (_ || _); [done|].
  case_bool_decide; [done|]. destruct (occupied_by_other _ _ _ _); [done|].
  pose proof (subscript_comes_back (reached_goal (state self)) i) as Hr.
  pose proof (subscript_comes_back (goals (state self)) i) as Hg.
  destruct (subscript (reached_goal (state self)) i) as [[|]| |];
    cbn [mbind outcome_bind]; [|done..].
  destruct (subscript (goals (state self)) i) as [goal| |];
    cbn [mbind outcome_bind]; [|done..]. by case_bool_decide.
Qed.

Lemma slide_loop_comes_back (fuel : nat) (self : Game) (r_row c_col : Z) (i : nat)
    (cl : GameState) (cur : cell) :
  (r_row ≠ 0 ∨ c_col ≠ 0)%Z →
  1 ≤ fuel →
  (in_bounds self (cur.1 + r_row, cur.2 + c_col)%Z →
   room self r_row c_col (cur.1 + r_row, cur.2 + c_col)%Z + 2 ≤ Z.of_nat fuel)%Z →
  slide_loop fuel self r_row c_col i cl cur ≠ Timeout.
Proof.
  intros Hdir. revert cur.
  induction fuel as [|fuel IH]; intros cur Hone Hroom; [lia|].
  cbn [slide_loop fst snd].
  pose proof (is_valid_move_comes_back self (cur.1 + r_row) (cur.2 + c_col) i) as Hv.
  destruct (is_valid_move _ _ _ _) as [valid| |] eqn:Hvalid; cbn [mbind outcome_bind];
    [|done|done].
  destruct valid; cbn [negb]; [|done].
  pose proof (subscript_comes_back (goals cl) i) as Hs.
  destruct (subscript _ _) as [goal| |]; cbn [mbind outcome_bind]; [|done|done].
  case_bool_decide; [done|].
  apply is_valid_move_true in Hvalid as [[Hb _] _].
  specialize (Hroom Hb).
  unfold in_bounds in Hb. cbn [fst snd] in Hb.
  apply IH.
  - unfold room in Hroom. cbn [fst snd] in Hroom.
    repeat case_bool_decide; lia.
  - intros Hb'. unfold in_bounds in Hb'. cbn [fst snd] in Hb'.
    unfold room in *. cbn [fst snd] in *.
    repeat case_bool_decide; lia.
Qed.

(** Along a direction other than (0, 0), [slide] is the Python loop: more
    rounds change nothing. *)
Lemma slide_fuel_enough (k : nat) (self : Game) (r_row c_col : Z) (i : nat)
    (cl : GameState) (cur : cell) :
  (r_row ≠ 0 ∨ c_col ≠ 0)%Z →
  slide_loop (slide_fuel self + k) self r_row c_col i cl cur
  = slide self r_row c_col i cl cur.
Proof.
  intros Hdir. apply slide_loop_more_fuel, slide_loop_comes_back; [done | | ].
  - unfold slide_fuel. lia.
  - intros Hb. unfold in_bounds in Hb. cbn [fst snd] in Hb.
    unfold room, slide_fuel. cbn [fst snd]. repeat case_bool_decide; lia.
Qed.

Lemma slide_loop_S (fuel : nat) (self : Game) (r_row c_col : Z) (i : nat)
    (cl : GameState) (cur : cell) :
  slide_loop (S fuel) self r_row c_col i cl cur
  = (valid ← is_valid_move self (cur.1 + r_row) (cur.2 + c_col) i;
     if negb valid then Ret (cl, cur)
     else
       goal ← subscript (goals cl) i;
       if bool_decide ((cur.1 + r_row, cur.2 + c_col)%Z = position goal) then
         Ret (mkGameState (walls cl) (goals cl) (players cl)
                (<[i := true]> (reached_goal cl)),
              (cur.1 + r_row, cur.2 + c_col)%Z)
       else slide_loop fuel self r_row c_col i cl (cur.1 + r_row, cur.2 + c_col)%Z).
Proof. reflexivity. Qed.

(** Along (0, 0) the Python loop stops in its first round or never: [slide]
    says [Timeout] exactly when the player's own cell is valid for it and
    is not its goal. *)
Lemma slide_zero (self : Game) (i : nat) (cl : GameState) (cur : cell) :
  slide self 0 0 i cl cur
  = (valid ← is_valid_move self cur.1 cur.2 i;
     if negb valid then Ret (cl, cur)
     else
       goal ← subscript (goals cl) i;
       if bool_decide (cur = position goal) then
         Ret (mkGameState (walls cl) (goals cl) (players cl)
                (<[i := true]> (reached_goal cl)), cur)
       else Timeout).
Proof.
  unfold slide, slide_fuel. generalize (Z.to_nat (Z.max (rows self) (cols self))).
  destruct cur as [r c]. cbn [fst snd].
  induction n as [|n IH].
  - cbn [slide_loop fst snd]. by rewrite !Z.add_0_r.
  - rewrite (slide_loop_S (S n)). cbn [fst snd]. rewrite !Z.add_0_r.
    destruct (is_valid_move self r c i) as [valid| |] eqn:Hvalid;
      cbn [mbind outcome_bind]; [|done|done].
    destruct valid; cbn [negb]; [|done].
    destruct (subscript (goals cl) i) as [goal| |] eqn:Hgoal;
      cbn [mbind outcome_bind]; [|done|done].
    case_bool_decide as Hne; [by rewrite bool_decide_true|].
    rewrite bool_decide_false by done.
    rewrite IH. cbn [mbind outcome_bind negb]. by rewrite bool_decide_false.
Qed.

Section heapq_fuel.
Context {A : Type} (lt : A → A → bool).

(** [pos] rounds are all that the loop of [_siftdown] can make. *)
Lemma siftdown_loop_fuel (fuel fuel' : nat) (heap : list A) (newitem : A)
    (startpos pos : nat) :
  pos ≤ fuel → pos ≤ fuel' →
  siftdown_loop lt fuel heap newitem startpos pos
  = siftdown_loop lt fuel' heap newitem startpos pos.
Proof.
  revert fuel' heap pos. induction fuel as [|fuel IH]; intros fuel' heap pos Hf Hf'.
  - destruct fuel' as [|fuel']; [done|]. cbn [siftdown_loop].
    rewrite bool_decide_false by lia. done.
  - destruct fuel' as [|fuel']; cbn [siftdown_loop].
    { rewrite bool_decide_false by lia. done. }
    case_bool_decide; [|done].
    destruct (heap !! ((pos - 1) / 2)) as [parent|]; [|done].
    destruct (lt newitem parent); [|done].
    apply IH; div_lia.
Qed.

(** [endpos - pos] rounds are all that the first loop of [_siftup] can make. *)
Lemma siftup_loop_fuel (fuel fuel' : nat) (heap : list A) (endpos pos : nat) :
  endpos - pos ≤ fuel → endpos - pos ≤ fuel' →
  siftup_loop lt fuel heap endpos pos = siftup_loop lt fuel' heap endpos pos.
Proof.
  revert fuel' heap pos. induction fuel as [|fuel IH]; intros fuel' heap pos Hf Hf'.
  - destruct fuel' as [|fuel']; [done|]. cbn [siftup_loop].
    rewrite bool_decide_false by lia. done.
  - destruct fuel' as [|fuel']; cbn [siftup_loop].
    { rewrite bool_decide_false by lia. done. }
    case_bool_decide; [|done].
    set (childpos := if bool_decide (2 * pos + 1 + 1 < endpos) then _ else _).
    assert (Hcp : pos < childpos).
    { unfold childpos. case_bool_decide; [|lia].
      destruct (heap !! (2 * pos + 1)); [|lia].
      destruct (heap !! (2 * pos + 1 + 1)); [|lia].
      destruct (negb _); lia. }
    clearbody childpos.
    destruct (heap !! childpos) as [child|]; [|done].
    apply IH; lia.
Qed.
End heapq_fuel.

(** * More properties of the searches *)

Lemma while_loop_inv {L R : Type} (Inv : L → Prop) (Q : R → Prop)
    (body : L → outcome (step L R)) (fuel : nat) (l : L) (r : R) :
  (∀ l l', Inv l → body l = Ret (Continue l') → Inv l') →
  (∀ l r, Inv l → body l = Ret (Return r) → Q r) →
  Inv l → while_loop fuel body l = Ret r → Q r.
Proof.
  intros Hcont Hret. revert l. induction fuel as [|fuel IH]; intros l Hl Hrun.
  - discriminate.
  - simpl in Hrun. inv_bind Hrun as s Hs. destruct s as [l'|r'].
    + apply (IH l'); [by eapply Hcont | done].
    + injection Hrun as <-. by eapply Hret.
Qed.

(** ** Walks *)

Lemma move_of_tied (self : Game) (s s' : GameState) :
  move_of self s s' → walls s' = walls s ∧ goals s' = goals s.
Proof.
  intros (d & ns & _ & Hsim & Hin).
  assert (Forall (λ x, walls x = walls s ∧ goals x = goals s) ns) as Hall.
  { eapply simulate_move_inv; [ | | exact Hsim]; [done|].
    intros i cl0 ns0 cl1 ns1 _ [Hw Hg] Hmp.
    apply move_player_spec in Hmp as (Hw' & Hg' & _). split; congruence. }
  rewrite Forall_forall in Hall. by apply Hall.
Qed.

Lemma walk_tied (self : Game) (p : list GameState) (s : GameState) :
  walk self p s → walls s = walls (state self) ∧ goals s = goals (state self).
Proof.
  induction 1 as [|path s s' _ [IHw IHg] Hmove]; [done|].
  apply move_of_tied in Hmove as [Hw Hg]. split; congruence.
Qed.

Lemma key_inj (a b : GameState) :
  get_state a = get_state b → walls a = walls b → goals a = goals b → a = b.
Proof.
  destruct a as [wa ga pa fa], b as [wb gb pb fb]. unfold get_state. simpl.
  intros [= Hp Hf] -> ->. f_equal; [|done].
  revert pb Hp. induction pa as [|[x] pa IH]; intros [|[y] pb]; simpl; try done.
  intros [= -> Hp]. f_equal. by apply IH.
Qed.

Lemma walk_key_inj (self : Game) (p q : list GameState) (a b : GameState) :
  walk self p a → walk self q b → get_state a = get_state b → a = b.
Proof.
  intros [Hwa Hga]%walk_tied [Hwb Hgb]%walk_tied Hk.
  apply key_inj; congruence.
Qed.

Lemma walk_line (self : Game) (p : list GameState) (s : GameState) :
  walk self p s → line self (p ++ [s]).
Proof.
  induction 1 as [|path s s' Hwalk [IHh IHl] Hmove].
  - split; [done|]. intros [|i] a b; simpl; [|done]. done.
  - split.
    + destruct path; simpl in *; done.
    + intros i a b Ha Hb.
      destruct (decide (S i < length (path ++ [s]))) as [Hlt|Hge].
      * rewrite lookup_app_l in Ha by lia. rewrite lookup_app_l in Hb by done.
        by eapply IHl.
      * assert (length (path ++ [s]) = S (length path)) as Hlen
          by (rewrite length_app; simpl; lia).
        assert (is_Some (((path ++ [s]) ++ [s']) !! S i)) as Hsome by eauto.
        apply lookup_lt_is_Some in Hsome. rewrite length_app in Hsome. simpl in Hsome.
        assert (i = length path) as -> by lia.
        rewrite lookup_app_l in Ha by lia.
        rewrite lookup_app_r in Ha by lia. rewrite Nat.sub_diag in Ha.
        rewrite lookup_app_r in Hb by lia.
        replace (S (length path) - length (path ++ [s])) with 0 in Hb by lia.
        simpl in Ha, Hb. congruence.
Qed.

Lemma line_walk (self : Game) (p : list GameState) (s : GameState) :
  line self (p ++ [s]) → walk self p s.
Proof.
  revert s. induction p as [|x p IH] using rev_ind; intros s [Hh Hl].
  - simpl in Hh. injection Hh as ->. constructor.
  - constructor.
    + apply IH. split.
      * destruct p; simpl in *; done.
      * intros i a b Ha Hb. apply (Hl i).
        -- rewrite lookup_app_l; [done|]. by eapply lookup_lt_Some.
        -- rewrite lookup_app_l; [done|]. by eapply lookup_lt_Some.
    + apply (Hl (length p)).
      * rewrite lookup_app_l by (rewrite length_app; simpl; lia).
        by rewrite lookup_app_r, Nat.sub_diag by lia.
      * rewrite lookup_app_r by (rewrite length_app; simpl; lia).
        rewrite length_app. simpl. by replace (S (length p) - (length p + 1)) with 0 by lia.
Qed.

(** ** What the rounds keep *)

Lemma search_inv_start (self : Game) (lvl : bool) :
  search_inv self lvl [(state self, [])] ∅.
Proof.
  split.
  - repeat constructor.
  - right. by left.
  - intros p d d' _ Hin. set_solver.
  - set_solver.
Qed.

(** A state that a walk reaches and whose key is not marked has an entry of
    the frontier before it. *)
Lemma search_inv_cover (self : Game) (lvl : bool) (fr : frontier) (visited : gset key)
    (p : list GameState) (d : GameState) :
  search_inv self lvl fr visited → walk self p d → get_state d ∉ visited →
  ∃ e, e ∈ fr ∧ (lvl = true → length e.2 ≤ length p).
Proof.
  intros Hinv Hwalk. induction Hwalk as [|path s s' Hwalk IH Hmove]; intros Hnew.
  - destruct (inv_start _ _ _ _ Hinv) as [Hin|Hin]; [done|].
    exists (state self, []). split; [done|]. simpl. lia.
  - destruct (decide (get_state s ∈ visited)) as [Hs|Hs].
    + destruct (inv_closed _ _ _ _ Hinv path s s' Hwalk Hs Hmove)
        as [Hin|(p' & Hin & Hlen)]; [done|].
      exists (s', p'). split; [done|]. simpl. rewrite length_app. simpl.
      intros Hl. specialize (Hlen Hl). lia.
    + destruct (IH Hs) as (e & Hin & Hlen). exists e. split; [done|].
      rewrite length_app. simpl. intros Hl. specialize (Hlen Hl). lia.
Qed.

Lemma round_continue (self : Game) (lvl : bool) (fr : frontier) (visited : gset key)
    (vs : list GameState) (nv : nat) (fr2 : frontier) (visited2 : gset key)
    (vs2 : list GameState) (nv2 : nat) :
  search_inv self lvl fr visited →
  round self lvl fr visited vs nv (Continue (fr2, visited2, vs2, nv2)) →
  search_inv self lvl fr2 visited2.
Proof.
  intros Hinv [[_ ?]|(st & path & fr' & Hperm & Hmin & Hcase)]; [done|].
  assert (walk self path st ∧ Forall (λ e, walk self e.2 e.1) fr') as [Hst Hfr'].
  { pose proof (inv_walks _ _ _ _ Hinv) as Hw. rewrite <- Hperm in Hw.
    by apply Forall_cons in Hw. }
  assert (∀ e, e ∈ fr → e = (st, path) ∨ e ∈ fr') as Hsplit.
  { intros e He. rewrite <- Hperm in He. by apply elem_of_cons in He. }
  destruct Hcase as [[_ ?]|[(Hnot & Hseen & Heq)|(Hnot & Hnew & Hexp)]]; [done| |].
  - injection Heq as -> -> -> ->. split.
    + done.
    + destruct (inv_start _ _ _ _ Hinv) as [Hin|Hin]; [by left|].
      apply Hsplit in Hin as [[= <- <-]|Hin]; [by left | by right].
    + intros p d d' Hwalk Hd Hmove.
      destruct (inv_closed _ _ _ _ Hinv p d d' Hwalk Hd Hmove)
        as [Hin|(p' & Hin & Hlen)]; [by left|].
      apply Hsplit in Hin as [[= -> ->]|Hin]; [by left|]. right. eauto.
    + apply (inv_open _ _ _ _ Hinv).
  - destruct Hexp as (pushed & fr'' & Hsound & Hall & Hperm' & Heq).
    injection Heq as -> -> -> ->. split.
    + rewrite Hperm'. apply Forall_app. split; [done|].
      apply Forall_forall. intros e (s' & -> & Hin)%list_elem_of_fmap. simpl.
      constructor; [done|]. by apply Hsound.
    + destruct (inv_start _ _ _ _ Hinv) as [Hin|Hin]; [left; set_solver|].
      apply Hsplit in Hin as [[= <- <-]|Hin]; [left; set_solver|].
      right. rewrite Hperm'. apply elem_of_app. by left.
    + intros p d d' Hwalk Hd Hmove.
      apply elem_of_union in Hd as [Hd|Hd%elem_of_singleton].
      * destruct (inv_closed _ _ _ _ Hinv p d d' Hwalk Hd Hmove)
          as [Hin|(p' & Hin & Hlen)]; [left; set_solver|].
        apply Hsplit in Hin as [[= -> ->]|Hin]; [left; set_solver|].
        right. exists p'. split; [|done]. rewrite Hperm'. apply elem_of_app. by left.
      * assert (d = st) as -> by (by eapply walk_key_inj).
        destruct (Hall d' Hmove) as [Hin|Hin]; [|by left].
        right. exists (path ++ [st]). split.
        -- rewrite Hperm'. apply elem_of_app. right.
           apply list_elem_of_fmap. by exists d'.
        -- intros Hl. rewrite length_app. simpl.
           destruct (search_inv_cover self lvl fr visited p st Hinv Hwalk Hnew)
             as (e & He & Hlen).
           specialize (Hlen Hl). specialize (Hmin Hl).
           apply Hsplit in He as [->|He]; [simpl in Hlen; lia|].
           rewrite Forall_forall in Hmin. specialize (Hmin e He). lia.
    + intros k [Hk|Hk%elem_of_singleton]%elem_of_union.
      * by apply (inv_open _ _ _ _ Hinv).
      * by subst k.
Qed.

Lemma round_return (self : Game) (lvl : bool) (fr : frontier) (visited : gset key)
    (vs : list GameState) (nv : nat) (a : answer) :
  search_inv self lvl fr visited →
  round self lvl fr visited vs nv (Return a) →
  search_ok self lvl a.
Proof.
  intros Hinv [[-> Heq]|(st & path & fr' & Hperm & Hmin & Hcase)].
  - injection Heq as ->. unfold search_ok. simpl. intros p d Hwalk.
    destruct (decide (get_state d ∈ visited)) as [Hd|Hd].
    + by apply (inv_open _ _ _ _ Hinv) in Hd.
    + destruct (search_inv_cover self lvl [] visited p d Hinv Hwalk Hd) as (e & He & _).
      by apply elem_of_nil in He.
  - destruct Hcase as [[Hwon Heq]|[(_ & _ & ?)|(_ & _ & ? & ? & _ & _ & _ & ?)]];
      [|done|done].
    injection Heq as ->. unfold search_ok. simpl. exists path, st.
    assert (walk self path st) as Hst.
    { pose proof (inv_walks _ _ _ _ Hinv) as Hw. rewrite <- Hperm in Hw.
      by apply Forall_cons in Hw as [? _]. }
    repeat split; [done..|].
    intros Hl p' w Hwalk Hw.
    assert (get_state w ∉ visited) as Hnew.
    { intros Hin%(inv_open _ _ _ _ Hinv). simpl in Hin. congruence. }
    destruct (search_inv_cover self lvl fr visited p' w Hinv Hwalk Hnew)
      as (e & He & Hlen).
    specialize (Hlen Hl). specialize (Hmin Hl).
    rewrite <- Hperm in He. apply elem_of_cons in He as [->|He]; [done|].
    rewrite Forall_forall in Hmin. specialize (Hmin e He). lia.
Qed.

(** ** Each search loop makes such rounds *)

Lemma push_successors_inv (self : Game) (st : GameState) (path : list GameState)
    (fr fr2 : frontier) :
  push_successors self st path fr = Ret fr2 →
  ∃ up down left right,
    simulate_move self st (-1) 0 = Ret up ∧ simulate_move self st 1 0 = Ret down
    ∧ simulate_move self st 0 (-1) = Ret left ∧ simulate_move self st 0 1 = Ret right
    ∧ fr2 = fr ++ map (λ s, (s, path ++ [st])) (up ++ down ++ left ++ right).
Proof.
  intros H. unfold push_successors, moves in H. cbn [for_each] in H.
  inv_bind H as fr_u H1. inv_bind H1 as up Hu.
  inv_bind H as fr_d H2. inv_bind H2 as down Hd.
  inv_bind H as fr_l H3. inv_bind H3 as left Hl.
  inv_bind H as fr_r H4. inv_bind H4 as right Hr.
  exists up, down, left, right. repeat split; [done..|].
  pose proof (push_successors_all self st path fr up down left right Hu Hd Hl Hr) as Hall.
  unfold push_successors, moves in Hall. cbn [for_each] in Hall.
  rewrite Hu, Hd, Hl, Hr in Hall. cbn [mbind outcome_bind] in Hall.
  congruence.
Qed.

Lemma push_unvisited_successors_inv (self : Game) (visited : gset key) (cost : nat)
    (st : GameState) (path : list GameState) (pq pq2 : list entry) :
  push_unvisited_successors self visited cost st path pq = Ret pq2 →
  ∃ up down left right,
    simulate_move self st (-1) 0 = Ret up ∧ simulate_move self st 1 0 = Ret down
    ∧ simulate_move self st 0 (-1) = Ret left ∧ simulate_move self st 0 1 = Ret right
    ∧ pq2 ≡ₚ pq ++ map (λ s, (cost + 1, s, path ++ [st]))
                    (filter (λ s, get_state s ∉ visited)
                       (up ++ down ++ left ++ right)).
Proof.
  intros H.
  assert (∃ up down left right,
    simulate_move self st (-1) 0 = Ret up ∧ simulate_move self st 1 0 = Ret down
    ∧ simulate_move self st 0 (-1) = Ret left ∧ simulate_move self st 0 1 = Ret right)
    as (up & down & left & right & Hu & Hd & Hl & Hr).
  { unfold push_unvisited_successors, moves in H. cbn [for_each] in H.
    inv_bind H as fr_u H1. inv_bind H1 as up Hu.
    inv_bind H as fr_d H2. inv_bind H2 as down Hd.
    inv_bind H as fr_l H3. inv_bind H3 as left Hl.
    inv_bind H as fr_r H4. inv_bind H4 as right Hr.
    by exists up, down, left, right. }
  exists up, down, left, right. repeat split; [done..|].
  destruct (push_unvisited_successors_all self visited cost st path pq
              up down left right Hu Hd Hl Hr) as (pq' & Hrun & Hperm).
  congruence.
Qed.

Lemma move_of_generated (self : Game) (st : GameState)
    (up down left right : list GameState) (s' : GameState) :
  simulate_move self st (-1) 0 = Ret up → simulate_move self st 1 0 = Ret down →
  simulate_move self st 0 (-1) = Ret left → simulate_move self st 0 1 = Ret right →
  s' ∈ up ++ down ++ left ++ right ↔ move_of self st s'.
Proof.
  intros Hu Hd Hl Hr. split.
  - rewrite !elem_of_app. intros [Hin|[Hin|[Hin|Hin]]].
    + exists (-1, 0)%Z, up. split; [|done]. unfold moves. set_solver.
    + exists (1, 0)%Z, down. split; [|done]. unfold moves. set_solver.
    + exists (0, -1)%Z, left. split; [|done]. unfold moves. set_solver.
    + exists (0, 1)%Z, right. split; [|done]. unfold moves. set_solver.
  - intros (d & ns & Hin & Hsim & Hs'). unfold moves in Hin.
    rewrite !elem_of_app.
    repeat (apply elem_of_cons in Hin as [->|Hin]); simpl in Hsim.
    + left. congruence.
    + right; left. congruence.
    + right; right; left. congruence.
    + right; right; right. congruence.
    + by apply elem_of_nil in Hin.
Qed.

Lemma search_body_round
    (pop : frontier → option ((GameState * list GameState) * frontier))
    (self : Game) (lvl : bool) (fr : frontier) (visited : gset key)
    (vs : list GameState) (nv : nat) (s : step loop_state answer) :
  (∀ x fr', pop fr = Some (x, fr') → x :: fr' ≡ₚ fr) →
  (pop fr = None → fr = []) →
  (lvl = true → ∀ st path fr', pop fr = Some ((st, path), fr') →
     Forall (λ e, length path ≤ length e.2) fr') →
  search_body pop self (fr, visited, vs, nv) = Ret s →
  round self lvl fr visited vs nv s.
Proof.
  intros Hperm Hnone Hmin Hrun. unfold search_body in Hrun.
  destruct (pop fr) as [[[st path] fr']|] eqn:Hpop.
  - right. exists st, path, fr'. split; [by apply Hperm|]. split; [eauto|].
    destruct (all (reached_goal st)) eqn:Hwon.
    + left. split; [done|]. by injection Hrun as <-.
    + right. case_bool_decide as Hseen.
      * left. split; [done|]. split; [done|]. by injection Hrun as <-.
      * right. split; [done|]. split; [done|].
        inv_bind Hrun as fr2 Hpush.
        apply push_successors_inv in Hpush
          as (up & down & left & right & Hu & Hd & Hl & Hr & ->).
        exists (up ++ down ++ left ++ right). eexists. split; [|split; [|split]].
        -- intros s'. by apply move_of_generated.
        -- intros s' Hm. left. by apply (move_of_generated self st up down left right).
        -- reflexivity.
        -- by injection Hrun as <-.
  - left. split; [by apply Hnone | by injection Hrun as <-].
Qed.

Lemma dfs_body_round (self : Game) (fr : frontier) (visited : gset key)
    (vs : list GameState) (nv : nat) (s : step loop_state answer) :
  dfs_body self (fr, visited, vs, nv) = Ret s → round self false fr visited vs nv s.
Proof.
  apply search_body_round.
  - intros x fr' ->%list_pop_Some. by rewrite Permutation_app_comm.
  - apply list_pop_None.
  - done.
Qed.

Lemma level_queue_tail (e : GameState * list GameState) (fr : frontier) :
  level_queue (e :: fr) → level_queue fr.
Proof. intros H i j a b Hij Ha Hb. apply (H (S i) (S j)); [lia|exact Ha|exact Hb]. Qed.

Lemma level_queue_push (st : GameState) (path : list GameState) (fr : frontier)
    (new : list GameState) :
  level_queue ((st, path) :: fr) →
  level_queue (fr ++ map (λ s', (s', path ++ [st])) new).
Proof.
  intros H i j a b Hij Ha Hb.
  assert (∀ k e, (fr ++ map (λ s', (s', path ++ [st])) new) !! k = Some e →
            (fr !! k = Some e ∧ k < length fr)
            ∨ (length fr ≤ k ∧ length e.2 = S (length path))) as Hwhere.
  { intros k e He. destruct (decide (k < length fr)) as [Hk|Hk].
    - left. by rewrite lookup_app_l in He.
    - right. split; [lia|]. rewrite lookup_app_r in He by lia.
      apply list_lookup_fmap_Some in He as (s' & -> & _). simpl.
      rewrite length_app. simpl. lia. }
  destruct (Hwhere i a Ha) as [[Ha' Hi]|[Hi Hla]],
           (Hwhere j b Hb) as [[Hb' Hj]|[Hj Hlb]].
  - apply (H (S i) (S j)); [lia|exact Ha'|exact Hb'].
  - destruct (H 0 (S i) (st, path) a) as [H1 H2]; [lia|done|exact Ha'|].
    simpl in H1, H2. lia.
  - lia.
  - lia.
Qed.

Lemma bfs_body_round (self : Game) (fr : frontier) (visited : gset key)
    (vs : list GameState) (nv : nat) (s : step loop_state answer) :
  level_queue fr →
  bfs_body self (fr, visited, vs, nv) = Ret s →
  round self true fr visited vs nv s
  ∧ ∀ fr2 visited2 vs2 nv2, s = Continue (fr2, visited2, vs2, nv2) → level_queue fr2.
Proof.
  intros Hlevel Hrun. split.
  - revert Hrun. apply search_body_round.
    + by intros x fr' Hpop; destruct fr; simplify_eq/=.
    + by destruct fr.
    + intros _ st path fr' Hpop. destruct fr as [|e fr0]; simplify_eq/=.
      apply Forall_forall. intros e [k Hk]%list_elem_of_lookup.
      by destruct (Hlevel 0 (S k) (st, path) e) as [? _]; [lia|done|exact Hk|].
  - intros fr2 visited2 vs2 nv2 ->. unfold bfs_body, search_body in Hrun.
    destruct fr as [|[st path] fr']; simpl in Hrun; [done|].
    destruct (all (reached_goal st)); [done|].
    case_bool_decide.
    + injection Hrun as <- _ _ _. by eapply level_queue_tail.
    + inv_bind Hrun as fr3 Hpush. injection Hrun as <- _ _ _.
      apply push_successors_inv in Hpush as (up & down & left & right & _ & _ & _ & _ & ->).
      by apply level_queue_push.
Qed.

Lemma entry_min_cost (cost : nat) (st : GameState) (path : list GameState) (y : entry) :
  entry_lt y (cost, st, path) = false → cost ≤ y.1.1.
Proof.
  destruct y as [[cy sy] py]. simpl. case_bool_decide; [lia|].
  intros ?%bool_decide_eq_false. lia.
Qed.

Lemma ucs_body_round (self : Game) (pq : list entry) (visited : gset key)
    (vs : list GameState) (nv : nat) (s : step ucs_state answer) :
  heap_ordered entry_lt pq → Forall (λ e : entry, e.1.1 = length e.2) pq →
  ucs_body self (pq, visited, vs, nv) = Ret s →
  round self true (frontier_of pq) visited vs nv (forget_costs s)
  ∧ ∀ pq2 visited2 vs2 nv2, s = Continue (pq2, visited2, vs2, nv2) →
      heap_ordered entry_lt pq2 ∧ Forall (λ e : entry, e.1.1 = length e.2) pq2.
Proof.
  intros Hord Hcost Hrun. split.
  - unfold ucs_body in Hrun.
    destruct (heappop entry_lt pq) as [[[[cost st] path] pq']|] eqn:Hpop.
    + destruct (entry_heappop_spec pq _ pq' Hord Hpop) as (_ & Hperm & _).
      pose proof (entry_heappop_min pq _ pq' Hord Hpop) as Hmin.
      assert (cost = length path ∧ Forall (λ e : entry, e.1.1 = length e.2) pq')
        as [Hc Hcost'].
      { rewrite <- Hperm in Hcost. by apply Forall_cons in Hcost. }
      right. exists st, path, (frontier_of pq'). split; [|split].
      * unfold frontier_of. by rewrite <- Hperm.
      * intros _. unfold frontier_of. apply Forall_fmap, Forall_forall.
        intros y Hy. simpl. rewrite Forall_forall in Hcost'.
        rewrite <- (Hcost' y Hy), <- Hc. apply (entry_min_cost _ st path). by apply Hmin.
      * destruct (all (reached_goal st)) eqn:Hwon.
        -- left. split; [done|]. by injection Hrun as <-.
        -- right. case_bool_decide as Hseen.
           ++ left. split; [done|]. split; [done|]. by injection Hrun as <-.
           ++ right. split; [done|]. split; [done|].
              inv_bind Hrun as pq2 Hpush. injection Hrun as <-.
              apply push_unvisited_successors_inv in Hpush
                as (up & down & left & right & Hu & Hd & Hl & Hr & Hperm').
              exists (filter (λ s, get_state s ∉ visited ∪ {[get_state st]})
                        (up ++ down ++ left ++ right)), (frontier_of pq2).
              split; [|split; [|split]].
              ** intros s' [_ Hin]%list_elem_of_filter.
                 by apply (move_of_generated self st up down left right).
              ** intros s' Hin%(move_of_generated self st up down left right);
                   [|done..].
                 destruct (decide (get_state s' ∈ visited ∪ {[get_state st]}));
                   [by right|]. left. by apply list_elem_of_filter.
              ** unfold frontier_of. rewrite Hperm', fmap_app.
                 apply Permutation_app; [done|].
                 change (map ?f ?l) with (f <$> l). by rewrite <- list_fmap_compose.
              ** done.
    + apply heappop_None in Hpop as ->. left. split; [done|]. by injection Hrun as <-.
  - intros pq2 visited2 vs2 nv2 ->. split.
    + by apply (ucs_body_ordered self (pq, visited, vs, nv) (pq2, visited2, vs2, nv2)).
    + unfold ucs_body in Hrun.
      destruct (heappop entry_lt pq) as [[[[cost st] path] pq']|] eqn:Hpop; [|done].
      destruct (entry_heappop_spec pq _ pq' Hord Hpop) as (_ & Hperm & _).
      assert (cost = length path ∧ Forall (λ e : entry, e.1.1 = length e.2) pq')
        as [Hc Hcost'].
      { rewrite <- Hperm in Hcost. by apply Forall_cons in Hcost. }
      destruct (all (reached_goal st)); [done|]. case_bool_decide.
      * by injection Hrun as <- _ _ _.
      * inv_bind Hrun as pq3 Hpush. injection Hrun as <- _ _ _.
        apply push_unvisited_successors_inv in Hpush
          as (up & down & left & right & _ & _ & _ & _ & Hperm').
        rewrite Hperm'. apply Forall_app. split; [done|].
        apply Forall_forall. intros e (s' & -> & _)%list_elem_of_fmap. simpl.
        rewrite length_app. simpl. lia.
Qed.

(** ** The trace *)

Lemma trace_continue (self : Game) (lvl : bool) (fr : frontier) (visited : gset key)
    (vs : list GameState) (nv : nat) (fr2 : frontier) (visited2 : gset key)
    (vs2 : list GameState) (nv2 : nat) :
  search_inv self lvl fr visited → trace_inv self fr vs nv →
  round self lvl fr visited vs nv (Continue (fr2, visited2, vs2, nv2)) →
  trace_inv self fr2 vs2 nv2.
Proof.
  intros Hinv (Hnv & Hsub & Hreach & Hhead)
    [[_ ?]|(st & path & fr' & Hperm & _ & Hcase)]; [done|].
  pose proof (inv_walks _ _ _ _ Hinv) as Hw. rewrite <- Hperm in Hw, Hsub.
  apply Forall_cons in Hw as [Hst _]. apply Forall_cons in Hsub as [Hpath Hsub].
  simpl in Hst, Hpath.
  assert (head (vs ++ [st]) = Some (state self)) as Hhead'.
  { destruct Hhead as [[-> ->]|Hhead].
    - apply Permutation_singleton_r in Hperm. by injection Hperm as -> _ _.
    - destruct vs; simpl in *; done. }
  assert (Forall (λ e, sublist e.2 (vs ++ [st])) fr') as Hsub'.
  { eapply Forall_impl; [exact Hsub|]. intros e He. by apply sublist_inserts_r. }
  assert (Forall (λ s, ∃ p, walk self p s) (vs ++ [st])) as Hreach'.
  { apply Forall_app. split; [done|]. repeat constructor. by exists path. }
  assert (S nv = length (vs ++ [st])) as Hnv'.
  { rewrite length_app. simpl. lia. }
  destruct Hcase as [[_ ?]|[(_ & _ & Heq)|(_ & _ & pushed & fr'' & _ & _ & Hperm' & Heq)]];
    [done| |]; injection Heq as -> -> -> ->.
  - split; [done|]. split; [done|]. split; [done|]. by right.
  - split; [done|]. split; [|split; [done|by right]].
    rewrite Hperm'. apply Forall_app. split; [done|].
    apply Forall_forall. intros e (s' & -> & _)%list_elem_of_fmap. simpl.
    by apply sublist_app.
Qed.

Lemma trace_return (self : Game) (lvl : bool) (fr : frontier) (visited : gset key)
    (vs : list GameState) (nv : nat) (a : answer) :
  search_inv self lvl fr visited → trace_inv self fr vs nv →
  round self lvl fr visited vs nv (Return a) →
  trace_ok self a.
Proof.
  intros Hinv (Hnv & Hsub & Hreach & Hhead) [[-> Heq]|(st & path & fr' & Hperm & _ & Hcase)].
  - injection Heq as ->. unfold trace_ok. simpl.
    destruct Hhead as [[_ ?]|Hhead]; done.
  - destruct Hcase as [[Hwon Heq]|[(_ & _ & ?)|(_ & _ & ? & ? & _ & _ & _ & ?)]];
      [|done|done].
    injection Heq as ->. unfold trace_ok. simpl.
    pose proof (inv_walks _ _ _ _ Hinv) as Hw. rewrite <- Hperm in Hw, Hsub.
    apply Forall_cons in Hw as [Hst _]. apply Forall_cons in Hsub as [Hpath Hsub].
    simpl in Hst, Hpath. split; [|split; [|split; [|split]]].
    + rewrite length_app. simpl. lia.
    + destruct Hhead as [[-> ->]|Hhead].
      * apply Permutation_singleton_r in Hperm. by injection Hperm as -> _ _.
      * destruct vs; simpl in *; done.
    + apply Forall_app. split; [done|]. repeat constructor. by exists path.
    + by apply sublist_app.
    + by rewrite !last_snoc.
Qed.

(** ** What the three searches answer *)

Lemma dfs_answer (self : Game) (fuel : nat) (a : answer) :
  dfs fuel self = Ret a → search_ok self false a ∧ trace_ok self a.
Proof.
  unfold dfs.
  apply (while_loop_inv
           (λ ls : loop_state,
              search_inv self false ls.1.1.1 ls.1.1.2
              ∧ trace_inv self ls.1.1.1 ls.1.2 ls.2)
           (λ a, search_ok self false a ∧ trace_ok self a)).
  - intros [[[fr v] vs] nv] [[[fr2 v2] vs2] nv2] [Hinv Htr] Hbody%dfs_body_round.
    simpl in *. split; [by eapply round_continue | by eapply trace_continue].
  - intros [[[fr v] vs] nv] r [Hinv Htr] Hbody%dfs_body_round.
    simpl in *. split; [by eapply round_return | by eapply trace_return].
  - split; [apply search_inv_start|]. simpl. repeat split; [by repeat constructor|done|].
    by left.
Qed.

Lemma bfs_answer (self : Game) (fuel : nat) (a : answer) :
  bfs fuel self = Ret a → search_ok self true a ∧ trace_ok self a.
Proof.
  unfold bfs.
  apply (while_loop_inv
           (λ ls : loop_state,
              search_inv self true ls.1.1.1 ls.1.1.2
              ∧ trace_inv self ls.1.1.1 ls.1.2 ls.2
              ∧ level_queue ls.1.1.1)
           (λ a, search_ok self true a ∧ trace_ok self a)).
  - intros [[[fr v] vs] nv] [[[fr2 v2] vs2] nv2] (Hinv & Htr & Hlev) Hbody.
    simpl in *. apply bfs_body_round in Hbody as [Hround Hlev']; [|done].
    split; [by eapply round_continue|]. split; [by eapply trace_continue|].
    by eapply Hlev'.
  - intros [[[fr v] vs] nv] r (Hinv & Htr & Hlev) Hbody.
    simpl in *. apply bfs_body_round in Hbody as [Hround _]; [|done].
    split; [by eapply round_return | by eapply trace_return].
  - split; [apply search_inv_start|]. simpl. split.
    + repeat split; [by repeat constructor|done|]. by left.
    + intros [|i] [|j] x y Hij Hx Hy; simplify_eq/=; lia.
Qed.

Lemma ucs_answer (self : Game) (fuel : nat) (a : answer) :
  ucs fuel self = Ret a → search_ok self true a ∧ trace_ok self a.
Proof.
  unfold ucs.
  apply (while_loop_inv
           (λ ls : ucs_state,
              search_inv self true (frontier_of ls.1.1.1) ls.1.1.2
              ∧ trace_inv self (frontier_of ls.1.1.1) ls.1.2 ls.2
              ∧ heap_ordered entry_lt ls.1.1.1
              ∧ Forall (λ e : entry, e.1.1 = length e.2) ls.1.1.1)
           (λ a, search_ok self true a ∧ trace_ok self a)).
  - intros [[[pq v] vs] nv] [[[pq2 v2] vs2] nv2] (Hinv & Htr & Hord & Hcost) Hbody.
    simpl in *. apply ucs_body_round in Hbody as [Hround Hkeep]; [|done..].
    simpl in Hround.
    split; [by eapply round_continue|]. split; [by eapply trace_continue|].
    by eapply Hkeep.
  - intros [[[pq v] vs] nv] r (Hinv & Htr & Hord & Hcost) Hbody.
    simpl in *. apply ucs_body_round in Hbody as [Hround _]; [|done..].
    simpl in Hround.
    split; [by eapply round_return | by eapply trace_return].
  - split; [apply search_inv_start|]. simpl. split; [|split].
    + repeat split; [by repeat constructor|done|]. by left.
    + apply heap_ordered_singleton.
    + by repeat constructor.
Qed.

Lemma line_last_walk (self : Game) (l : list GameState) (final : GameState) :
  line self l → last l = Some final → ∃ p, l = p ++ [final] ∧ walk self p final.
Proof.
  intros Hline Hlast. destruct l as [|x l _] using rev_ind; [done|].
  rewrite last_snoc in Hlast. injection Hlast as ->.
  exists l. split; [done|]. by apply line_walk.
Qed.

Lemma search_ok_some (self : Game) (lvl : bool) (sol : list GameState) (n : nat)
    (trace : list GameState) :
  search_ok self lvl (Some sol, n, trace) →
  line self sol
  ∧ (∃ final, last sol = Some final ∧ all (reached_goal final) = true)
  ∧ (lvl = true → ∀ l final, line self l → last l = Some final →
       all (reached_goal final) = true → length sol ≤ length l).
Proof.
  unfold search_ok. simpl. intros (p & st & -> & Hwalk & Hwon & Hmin).
  split; [by apply walk_line|]. split.
  - exists st. by rewrite last_snoc.
  - intros Hl l final Hline Hlast Hfinal.
    destruct (line_last_walk self l final Hline Hlast) as (p' & -> & Hwalk').
    rewrite !length_app. simpl. specialize (Hmin Hl p' final Hwalk' Hfinal). lia.
Qed.

Lemma search_ok_none (self : Game) (lvl : bool) (n : nat) (trace : list GameState) :
  search_ok self lvl (None, n, trace) →
  ∀ l final, line self l → last l = Some final → all (reached_goal final) = false.
Proof.
  unfold search_ok. simpl. intros Hnone l final Hline Hlast.
  destruct (line_last_walk self l final Hline Hlast) as (p & -> & Hwalk). eauto.
Qed.

(** X1: The path that a search returns can be played: it starts with the stored
    state of the game, each of its states is one of the states that
    simulate_move returns for the state before it in one of the four
    directions, and all reached flags of its last state are true. *)
Theorem solution_is_playable (self : Game) (fuel : nat) (sol : list GameState)
    (n : nat) (trace : list GameState) :
  dfs fuel self = Ret (Some sol, n, trace) ∨ bfs fuel self = Ret (Some sol, n, trace)
  ∨ ucs fuel self = Ret (Some sol, n, trace) →
  head sol = Some (state self)
  ∧ (∀ i s s', sol !! i = Some s → sol !! S i = Some s' → move_of self s s')
  ∧ ∃ final, last sol = Some final ∧ all (reached_goal final) = true.
Proof.
  intros [[H _]%dfs_answer|[[H _]%bfs_answer|[H _]%ucs_answer]];
    apply search_ok_some in H as ([Hhead Hline] & Hfinal & _); done.
Qed.

Lemma solution_is_playable_witness :
  head [A_start; A_won] = Some (state scenario_A)
  ∧ (∀ i s s', [A_start; A_won] !! i = Some s → [A_start; A_won] !! S i = Some s' →
       move_of scenario_A s s')
  ∧ ∃ final, last [A_start; A_won] = Some final ∧ all (reached_goal final) = true.
Proof.
  apply (solution_is_playable scenario_A 3 [A_start; A_won] 3 [A_start; A_down; A_won]).
  right; left. vm_compute. reflexivity.
Defined.

(** X2: A search that returns no path has looked everywhere: no sequence of
    moves from the stored state ends in a state with all reached flags
    true. *)
Theorem no_path_means_no_solution (self : Game) (fuel : nat) (n : nat)
    (trace : list GameState) :
  dfs fuel self = Ret (None, n, trace) ∨ bfs fuel self = Ret (None, n, trace)
  ∨ ucs fuel self = Ret (None, n, trace) →
  ∀ l final, line self l → last l = Some final → all (reached_goal final) = false.
Proof.
  intros [[H _]%dfs_answer|[[H _]%bfs_answer|[H _]%ucs_answer]];
    by eapply search_ok_none.
Qed.

Lemma no_path_means_no_solution_witness :
  dfs 2 stuck_game = Ret (None, 1, [state stuck_game])
  ∧ ∀ l final, line stuck_game l → last l = Some final →
      all (reached_goal final) = false.
Proof.
  assert (dfs 2 stuck_game = Ret (None, 1, [state stuck_game])) as Hrun
    by (vm_compute; reflexivity).
  split; [exact Hrun|].
  apply (no_path_means_no_solution stuck_game 2 1 [state stuck_game]).
  left. exact Hrun.
Defined.

(** X3: The path that bfs returns is a shortest one: no sequence of moves from
    the stored state to a state with all reached flags true has fewer
    states. *)
Theorem bfs_shortest (self : Game) (fuel : nat) (sol : list GameState) (n : nat)
    (trace : list GameState) :
  bfs fuel self = Ret (Some sol, n, trace) →
  ∀ l final, line self l → last l = Some final → all (reached_goal final) = true →
    length sol ≤ length l.
Proof.
  intros [H _]%bfs_answer. apply search_ok_some in H as (_ & _ & Hmin). by apply Hmin.
Qed.

Lemma bfs_shortest_witness :
  ∃ n trace,
    bfs 17 main_game
    = Ret (Some [main_at (2, 3)%Z false; main_at (6, 3)%Z false;
                 main_at (6, 1)%Z false; main_at (4, 1)%Z false;
                 main_at (4, 6)%Z true], n, trace)
    ∧ ∀ l final, line main_game l → last l = Some final →
        all (reached_goal final) = true → 5 ≤ length l.
Proof.
  assert (∃ n trace,
            bfs 17 main_game
            = Ret (Some [main_at (2, 3)%Z false; main_at (6, 3)%Z false;
                         main_at (6, 1)%Z false; main_at (4, 1)%Z false;
                         main_at (4, 6)%Z true], n, trace)) as (n & trace & Hrun)
    by (vm_compute; eexists; eexists; reflexivity).
  exists n, trace. split; [exact Hrun|].
  exact (bfs_shortest main_game 17 _ n trace Hrun).
Defined.

(** X4: The same for ucs: every move costs 1, and the path returned is a
    shortest one. *)
Theorem ucs_shortest (self : Game) (fuel : nat) (sol : list GameState) (n : nat)
    (trace : list GameState) :
  ucs fuel self = Ret (Some sol, n, trace) →
  ∀ l final, line self l → last l = Some final → all (reached_goal final) = true →
    length sol ≤ length l.
Proof.
  intros [H _]%ucs_answer. apply search_ok_some in H as (_ & _ & Hmin). by apply Hmin.
Qed.

Lemma ucs_shortest_witness :
  ∃ n trace,
    ucs 12 main_game
    = Ret (Some [main_at (2, 3)%Z false; main_at (6, 3)%Z false;
                 main_at (6, 1)%Z false; main_at (4, 1)%Z false;
                 main_at (4, 6)%Z true], n, trace)
    ∧ ∀ l final, line main_game l → last l = Some final →
        all (reached_goal final) = true → 5 ≤ length l.
Proof.
  assert (∃ n trace,
            ucs 12 main_game
            = Ret (Some [main_at (2, 3)%Z false; main_at (6, 3)%Z false;
                         main_at (6, 1)%Z false; main_at (4, 1)%Z false;
                         main_at (4, 6)%Z true], n, trace)) as (n & trace & Hrun)
    by (vm_compute; eexists; eexists; reflexivity).
  exists n, trace. split; [exact Hrun|].
  exact (ucs_shortest main_game 12 _ n trace Hrun).
Defined.

Lemma trace_ok_line (self : Game) (a : answer) :
  trace_ok self a →
  a.1.2 = length a.2
  ∧ head a.2 = Some (state self)
  ∧ (∀ s, s ∈ a.2 → ∃ l, line self l ∧ last l = Some s)
  ∧ ∀ sol, a.1.1 = Some sol → sublist sol a.2 ∧ last sol = last a.2.
Proof.
  destruct a as [[o n] tr]. unfold trace_ok. simpl.
  intros (Hn & Hhead & Hreach & Hsol). split; [done|]. split; [done|]. split.
  - intros s Hs. rewrite Forall_forall in Hreach. destruct (Hreach s Hs) as [p Hp].
    exists (p ++ [s]). split; [by apply walk_line | by rewrite last_snoc].
  - intros sol ->. done.
Qed.

(** X5: nodes_visited is the length of the trace [visited_states]; the trace
    starts with the stored state, every state in it is reached by a sequence
    of moves, and a returned path lies within the trace, in the same order
    and with the same last state. *)
Theorem trace_records_pops (self : Game) (fuel : nat) (a : answer) :
  dfs fuel self = Ret a ∨ bfs fuel self = Ret a ∨ ucs fuel self = Ret a →
  a.1.2 = length a.2
  ∧ head a.2 = Some (state self)
  ∧ (∀ s, s ∈ a.2 → ∃ l, line self l ∧ last l = Some s)
  ∧ ∀ sol, a.1.1 = Some sol → sublist sol a.2 ∧ last sol = last a.2.
Proof.
  intros [[_ H]%dfs_answer|[[_ H]%bfs_answer|[_ H]%ucs_answer]];
    by apply trace_ok_line.
Qed.

Lemma trace_records_pops_witness :
  3 = length [A_start; A_down; A_won]
  ∧ head [A_start; A_down; A_won] = Some (state scenario_A)
  ∧ (∀ s, s ∈ [A_start; A_down; A_won] → ∃ l, line scenario_A l ∧ last l = Some s)
  ∧ ∀ sol, Some [A_start; A_won] = Some sol →
      sublist sol [A_start; A_down; A_won] ∧ last sol = last [A_start; A_down; A_won].
Proof.
  apply (trace_records_pops scenario_A 3
           (Some [A_start; A_won], 3, [A_start; A_down; A_won])).
  right; left. vm_compute. reflexivity.
Defined.

Lemma search_ok_agree (self : Game) (lvl lvl' : bool) (a b : answer) :
  search_ok self lvl a → search_ok self lvl' b →
  (a.1.1 = None ↔ b.1.1 = None)
  ∧ (lvl' = true → ∀ sol_a sol_b, a.1.1 = Some sol_a → b.1.1 = Some sol_b →
       length sol_b ≤ length sol_a).
Proof.
  destruct a as [[[sa|] na] ta], b as [[[sb|] nb] tb]; unfold search_ok; simpl.
  - intros (pa & sta & -> & Hwa & Hwona & _) (pb & stb & -> & Hwb & Hwonb & Hmin).
    split; [done|]. intros Hl ? ? [= <-] [= <-]. rewrite !length_app. simpl.
    specialize (Hmin Hl pa sta Hwa Hwona). lia.
  - intros (pa & sta & -> & Hwa & Hwona & _) Hnone.
    specialize (Hnone pa sta Hwa). congruence.
  - intros Hnone (pb & stb & -> & Hwb & Hwonb & _).
    specialize (Hnone pb stb Hwb). congruence.
  - done.
Qed.

(** X6: On a game that pairs every player with a goal the three searches agree
    on whether there is a solution; the paths of bfs and ucs have the same
    length, and the path of dfs is not shorter. *)
Theorem searches_agree (self : Game) :
  wf_game self →
  ∃ n, ∀ fuel, n ≤ fuel →
    ∃ a_dfs a_bfs a_ucs,
      dfs fuel self = Ret a_dfs ∧ bfs fuel self = Ret a_bfs ∧ ucs fuel self = Ret a_ucs
      ∧ (a_dfs.1.1 = None ↔ a_bfs.1.1 = None)
      ∧ (a_bfs.1.1 = None ↔ a_ucs.1.1 = None)
      ∧ ∀ sol_dfs sol_bfs sol_ucs,
          a_dfs.1.1 = Some sol_dfs → a_bfs.1.1 = Some sol_bfs →
          a_ucs.1.1 = Some sol_ucs →
          length sol_bfs = length sol_ucs ∧ length sol_bfs ≤ length sol_dfs.
Proof.
  intros Hwf.
  destruct (dfs_terminates self Hwf) as (ad & nd & _ & Hd).
  destruct (bfs_terminates self Hwf) as (ab & nb & _ & Hb).
  destruct (ucs_terminates self Hwf) as (au & nu & _ & Hu).
  exists (nd + nb + nu). intros fuel Hfuel. exists ad, ab, au.
  specialize (Hd fuel ltac:(lia)). specialize (Hb fuel ltac:(lia)).
  specialize (Hu fuel ltac:(lia)). split; [done|]. split; [done|]. split; [done|].
  apply dfs_answer in Hd as [Hd _]. apply bfs_answer in Hb as [Hb _].
  apply ucs_answer in Hu as [Hu _].
  destruct (search_ok_agree self _ _ _ _ Hd Hb) as [Hdb Hlen_db].
  destruct (search_ok_agree self _ _ _ _ Hb Hu) as [Hbu Hlen_bu].
  destruct (search_ok_agree self _ _ _ _ Hu Hb) as [_ Hlen_ub].
  split; [done|]. split; [done|].
  intros sd sb su Hsd Hsb Hsu. split.
  - apply Nat.le_antisymm; eauto.
  - eauto.
Qed.

Lemma searches_agree_witness :
  ∃ n, ∀ fuel, n ≤ fuel →
    ∃ a_dfs a_bfs a_ucs,
      dfs fuel main_game = Ret a_dfs ∧ bfs fuel main_game = Ret a_bfs
      ∧ ucs fuel main_game = Ret a_ucs
      ∧ (a_dfs.1.1 = None ↔ a_bfs.1.1 = None)
      ∧ (a_bfs.1.1 = None ↔ a_ucs.1.1 = None)
      ∧ ∀ sol_dfs sol_bfs sol_ucs,
          a_dfs.1.1 = Some sol_dfs → a_bfs.1.1 = Some sol_bfs →
          a_ucs.1.1 = Some sol_ucs →
          length sol_bfs = length sol_ucs ∧ length sol_bfs ≤ length sol_dfs.
Proof.
  apply (searches_agree main_game). split; simpl; lia.
Defined.

(** * More properties of the moves *)

(** ** How far a player slides *)

Lemma ahead_0 (c : cell) (r_row c_col : Z) : ahead c r_row c_col 0 = c.
Proof. destruct c. unfold ahead. simpl. f_equal; lia. Qed.

Lemma ahead_S (c : cell) (r_row c_col : Z) (j : nat) :
  ahead (c.1 + r_row, c.2 + c_col)%Z r_row c_col j = ahead c r_row c_col (S j).
Proof. unfold ahead. simpl. f_equal; lia. Qed.

Lemma ahead_moves (c : cell) (r_row c_col : Z) (j : nat) :
  (r_row ≠ 0 ∨ c_col ≠ 0)%Z → ahead c r_row c_col j = c → j = 0.
Proof.
  destruct c as [x y]. unfold ahead. simpl. intros Hd [= Hx Hy].
  destruct j; [done|]. destruct Hd; nia.
Qed.

Lemma slide_loop_run (fuel : nat) (self : Game) (r_row c_col : Z) (i : nat)
    (cl : GameState) (cur : cell) (cl' : GameState) (cur' : cell) :
  slide_loop fuel self r_row c_col i cl cur = Ret (cl', cur') →
  ∃ k : nat,
    cur' = ahead cur r_row c_col k
    ∧ (∀ j, 1 ≤ j ≤ k →
         is_valid_move self (ahead cur r_row c_col j).1 (ahead cur r_row c_col j).2 i
         = Ret true)
    ∧ (∀ j g, 1 ≤ j < k → goals cl !! i = Some g →
         position g ≠ ahead cur r_row c_col j)
    ∧ ((1 ≤ k ∧ (∃ g, goals cl !! i = Some g ∧ position g = cur')
        ∧ cl' = mkGameState (walls cl) (goals cl) (players cl)
                  (<[i := true]> (reached_goal cl)))
       ∨ (is_valid_move self (ahead cur r_row c_col (S k)).1
            (ahead cur r_row c_col (S k)).2 i = Ret false
          ∧ cl' = cl)).
Proof.
  revert cur. induction fuel as [|fuel IH]; intros cur H; [done|].
  rewrite slide_loop_S in H. inv_bind H as valid Hvalid.
  assert (ahead cur r_row c_col 1 = (cur.1 + r_row, cur.2 + c_col)%Z) as H1.
  { unfold ahead. f_equal; lia. }
  destruct valid; simpl in H.
  - inv_bind H as goal Hgoal. apply subscript_Ret in Hgoal. case_bool_decide as Hg.
    + injection H as <- <-. exists 1. rewrite H1. split; [done|]. split; [|split].
      * intros j Hj. assert (j = 1) as -> by lia. by rewrite H1.
      * intros j g Hj. lia.
      * left. split; [lia|]. split; [|done]. by exists goal.
    + apply IH in H as (k & -> & Hval & Hgoals & Hend). exists (S k).
      split; [apply ahead_S|]. split; [|split].
      * intros j Hj. destruct (decide (j = 1)) as [->|Hne]; [by rewrite H1|].
        destruct j as [|j]; [lia|]. rewrite <- ahead_S. apply Hval. lia.
      * intros j g Hj Hgl. destruct (decide (j = 1)) as [->|Hne].
        -- rewrite H1. congruence.
        -- destruct j as [|j]; [lia|]. rewrite <- ahead_S. apply Hgoals; [lia|done].
      * destruct Hend as [(Hk & Hgl & ->)|[Hstop ->]].
        -- left. split; [lia|]. done.
        -- right. split; [|done]. by rewrite <- ahead_S.
  - injection H as <- <-. exists 0. rewrite ahead_0. split; [done|].
    split; [intros; lia|]. split; [intros; lia|]. right. by rewrite H1.
Qed.

(** X7: One player's turn in simulate_move: a player whose flag is false slides
    along the direction, cell by cell, over cells that is_valid_move
    accepts, and stops on the first cell that is its goal (its flag is then
    set) or before the first cell that is_valid_move refuses; a snapshot is
    appended exactly when it has left its cell. *)
Theorem slide_stops_where_it_must (self : Game) (r_row c_col : Z) (i : nat)
    (cl : GameState) (ns : list GameState) (cl' : GameState) (ns' : list GameState)
    (p : Piece) :
  (r_row ≠ 0 ∨ c_col ≠ 0)%Z →
  reached_goal cl !! i = Some false → players cl !! i = Some p →
  move_player self r_row c_col i (cl, ns) = Ret (cl', ns') →
  ∃ k : nat,
    players cl' !! i = Some (mkPiece (ahead (position p) r_row c_col k))
    ∧ (∀ j, 1 ≤ j ≤ k →
         is_valid_move self (ahead (position p) r_row c_col j).1
           (ahead (position p) r_row c_col j).2 i = Ret true)
    ∧ (∀ j g, 1 ≤ j < k → goals cl !! i = Some g →
         position g ≠ ahead (position p) r_row c_col j)
    ∧ ((1 ≤ k
        ∧ (∃ g, goals cl !! i = Some g
                ∧ position g = ahead (position p) r_row c_col k)
        ∧ reached_goal cl' = <[i := true]> (reached_goal cl))
       ∨ (is_valid_move self (ahead (position p) r_row c_col (S k)).1
            (ahead (position p) r_row c_col (S k)).2 i = Ret false
          ∧ reached_goal cl' = reached_goal cl))
    ∧ ns' = (if decide (k = 0) then ns else ns ++ [cl']).
Proof.
  intros Hd Hflag Hp H. unfold move_player in H.
  apply subscript_Ret in Hflag, Hp.
  rewrite Hflag in H. cbn [mbind outcome_bind] in H.
  rewrite Hp in H. cbn [mbind outcome_bind] in H.
  inv_bind H as [cl1 cur] Hslide. unfold slide in Hslide.
  apply subscript_Ret in Hp.
  apply slide_loop_run in Hslide as (k & -> & Hval & Hgoals & Hend).
  exists k.
  assert (reached_goal cl1 = <[i := true]> (reached_goal cl) ∧ 1 ≤ k
          ∧ (∃ g, goals cl !! i = Some g
                  ∧ position g = ahead (position p) r_row c_col k)
          ∨ reached_goal cl1 = reached_goal cl
            ∧ is_valid_move self (ahead (position p) r_row c_col (S k)).1
                (ahead (position p) r_row c_col (S k)).2 i = Ret false) as Hflags.
  { destruct Hend as [(Hk & Hg & ->)|[Hstop ->]]; [left|right]; done. }
  assert (players cl1 = players cl) as Hplayers.
  { by destruct Hend as [(_ & _ & ->)|[_ ->]]. }
  assert ((1 ≤ k
           ∧ (∃ g, goals cl !! i = Some g
                   ∧ position g = ahead (position p) r_row c_col k)
           ∧ reached_goal cl1 = <[i := true]> (reached_goal cl))
          ∨ (is_valid_move self (ahead (position p) r_row c_col (S k)).1
               (ahead (position p) r_row c_col (S k)).2 i = Ret false
             ∧ reached_goal cl1 = reached_goal cl)) as Hend'.
  { destruct Hflags as [(? & ? & ?)|[? ?]]; [by left | by right]. }
  case_bool_decide as Hmoved; injection H as <- <-; cbn [players reached_goal].
  - rewrite Hplayers. split.
    { apply list_lookup_insert_eq. by eapply lookup_lt_Some. }
    split; [done|]. split; [done|]. split; [done|].
    destruct (decide (k = 0)) as [->|_]; [|done]. by rewrite ahead_0 in Hmoved.
  - apply ahead_moves in Hmoved as Hk; [|done]. subst k.
    rewrite Hplayers. split; [rewrite ahead_0; by destruct p|].
    split; [done|]. split; [done|]. split; [done|]. by destruct (decide (0 = 0)).
Qed.

Lemma slide_stops_where_it_must_witness :
  ∃ k : nat,
    players A_won !! 0 = Some (mkPiece (ahead (0, 0)%Z 0 1 k))
    ∧ (∀ j, 1 ≤ j ≤ k →
         is_valid_move scenario_A (ahead (0, 0)%Z 0 1 j).1 (ahead (0, 0)%Z 0 1 j).2 0
         = Ret true)
    ∧ (∀ j g, 1 ≤ j < k → goals A_start !! 0 = Some g →
         position g ≠ ahead (0, 0)%Z 0 1 j)
    ∧ ((1 ≤ k
        ∧ (∃ g, goals A_start !! 0 = Some g ∧ position g = ahead (0, 0)%Z 0 1 k)
        ∧ reached_goal A_won = <[0 := true]> (reached_goal A_start))
       ∨ (is_valid_move scenario_A (ahead (0, 0)%Z 0 1 (S k)).1
            (ahead (0, 0)%Z 0 1 (S k)).2 0 = Ret false
          ∧ reached_goal A_won = reached_goal A_start))
    ∧ [A_won] = (if decide (k = 0) then [] else [] ++ [A_won]).
Proof.
  apply (slide_stops_where_it_must scenario_A 0 1 0 A_start [] A_won [A_won]
           (mkPiece (0, 0)%Z)).
  - right. lia.
  - reflexivity.
  - reflexivity.
  - vm_compute. reflexivity.
Defined.

(** ** What simulate_move returns *)

Lemma fmap_position_inj (l1 l2 : list Piece) :
  position <$> l1 = position <$> l2 → l1 = l2.
Proof.
  revert l2. induction l1 as [|[x] l1 IH]; intros [|[y] l2]; simpl; try done.
  intros [= -> Hp]. f_equal. by apply IH.
Qed.

Lemma move_player_moved (self : Game) (r_row c_col : Z) (i : nat)
    (cl : GameState) (ns : list GameState) (cl' : GameState) (ns' : list GameState) :
  move_player self r_row c_col i (cl, ns) = Ret (cl', ns') →
  ns' = ns ∨ (ns' = ns ++ [cl'] ∧ players cl' !! i ≠ players cl !! i).
Proof.
  unfold move_player. intros H. inv_bind H as reached Hreached.
  destruct reached; [injection H as <- <-; by left|].
  inv_bind H as player Hplayer. apply subscript_Ret in Hplayer.
  inv_bind H as [cl1 cur] Hslide. unfold slide in Hslide.
  apply slide_loop_spec in Hslide as (_ & _ & Hp & _).
  case_bool_decide as Hmoved; injection H as <- <-; [|by left].
  right. split; [done|]. simpl. rewrite Hp, Hplayer.
  rewrite list_lookup_insert_eq by (by eapply lookup_lt_Some).
  intros [= <-]. done.
Qed.

Lemma simulate_players_upto (self : Game) (st : GameState) (r_row c_col : Z) (n : nat)
    (cl : GameState) (ns : list GameState) :
  for_each (move_player self r_row c_col) (seq 0 n) (st, []) = Ret (cl, ns) →
  (∀ j, n ≤ j → players cl !! j = players st !! j)
  ∧ (∀ s, s ∈ ns → ∀ j, n ≤ j → players s !! j = players st !! j)
  ∧ (∀ s, s ∈ ns → players s ≠ players st)
  ∧ NoDup ns ∧ length ns ≤ n.
Proof.
  revert cl ns. induction n as [|n IH]; intros cl ns H.
  - injection H as <- <-. repeat split; [intros s Hs; by apply elem_of_nil in Hs..| |done].
    constructor.
  - rewrite seq_S in H. apply for_each_app_inv in H as ([cl0 ns0] & H0 & H).
    destruct (IH cl0 ns0 H0) as (Hcl & Hns & Hne & Hnd & Hlen).
    simpl in H. inv_bind H as [cl1 ns1] Hmp. injection H as -> ->.
    pose proof (move_player_spec _ _ _ _ _ _ _ _ Hmp)
      as (_ & _ & _ & Hframe & _).
    assert (∀ j, S n ≤ j → players cl !! j = players st !! j) as Hcl'.
    { intros j Hj. rewrite Hframe by lia. apply Hcl. lia. }
    split; [done|].
    apply move_player_moved in Hmp as [->|[-> Hmoved]].
    + split; [intros s Hs j Hj; apply Hns; [done|lia]|]. split; [done|].
      split; [done|lia].
    + rewrite (Hcl n) in Hmoved by lia. split; [|split; [|split]].
      * intros s [Hs|Hs%list_elem_of_singleton]%elem_of_app j Hj;
          [apply Hns; [done|lia] | subst s; by apply Hcl'].
      * intros s [Hs|Hs%list_elem_of_singleton]%elem_of_app; [by apply Hne|].
        subst s. intros Heq. by rewrite Heq in Hmoved.
      * apply NoDup_app. split; [done|]. split; [|apply NoDup_singleton].
        intros s Hs Hs'%list_elem_of_singleton. subst s. apply Hmoved. by apply Hns.
      * rewrite length_app. simpl. lia.
Qed.

(** X8: simulate_move returns at most one state per player; each of them
    differs from the input state in where some player stands (so does its
    key), and no two of them are the same. *)
Theorem successors_are_changes (self : Game) (st : GameState) (r_row c_col : Z)
    (new_states : list GameState) :
  simulate_move self st r_row c_col = Ret new_states →
  length new_states ≤ length (players st)
  ∧ NoDup new_states
  ∧ ∀ s, s ∈ new_states →
      position <$> players s ≠ position <$> players st
      ∧ get_state s ≠ get_state st.
Proof.
  unfold simulate_move, simulate_players. intros H. inv_bind H as [cl ns] Hrun.
  injection H as <-.
  apply simulate_players_upto in Hrun as (_ & _ & Hne & Hnd & Hlen).
  split; [done|]. split; [done|]. intros s Hs.
  assert (position <$> players s ≠ position <$> players st) as Hpos.
  { intros Heq%fmap_position_inj. by apply (Hne s). }
  split; [done|]. unfold get_state. congruence.
Qed.

Lemma successors_are_changes_witness :
  length [A_won] ≤ length (players A_start)
  ∧ NoDup [A_won]
  ∧ ∀ s, s ∈ [A_won] →
      position <$> players s ≠ position <$> players A_start
      ∧ get_state s ≠ get_state A_start.
Proof.
  apply (successors_are_changes scenario_A A_start 0 1 [A_won]).
  vm_compute. reflexivity.
Defined.

(** ** Flags and goals *)

Lemma move_player_flags_sound (self : Game) (r_row c_col : Z) (i : nat)
    (cl : GameState) (ns : list GameState) (cl' : GameState) (ns' : list GameState) :
  flags_sound cl →
  move_player self r_row c_col i (cl, ns) = Ret (cl', ns') →
  flags_sound cl'.
Proof.
  intros Hsound H. unfold move_player in H. inv_bind H as reached Hreached.
  apply subscript_Ret in Hreached.
  destruct reached; [by injection H as <- <-|].
  inv_bind H as player Hplayer. apply subscript_Ret in Hplayer.
  inv_bind H as [cl1 cur] Hslide. unfold slide in Hslide.
  apply slide_loop_run in Hslide as (k & Hcur & _ & _ & Hend).
  assert (i < length (reached_goal cl)) as Hi by (by eapply lookup_lt_Some).
  assert (i < length (players cl)) as Hi' by (by eapply lookup_lt_Some).
  assert (flags_sound cl1 ∨ (players cl1 = players cl ∧ goals cl1 = goals cl
            ∧ reached_goal cl1 = <[i := true]> (reached_goal cl)
            ∧ ∃ g, goals cl !! i = Some g ∧ position g = cur)) as Hcl1.
  { destruct Hend as [(_ & Hg & ->)|[_ ->]]; [right|left]; done. }
  assert (players cl1 = players cl ∧ goals cl1 = goals cl
          ∧ ∀ j, j ≠ i → reached_goal cl1 !! j = reached_goal cl !! j)
    as (Hp1 & Hg1 & Hf1).
  { destruct Hend as [(_ & _ & ->)|[_ ->]]; simpl; [|done].
    split; [done|]. split; [done|]. intros j Hj. by rewrite list_lookup_insert_ne. }
  assert (∀ j, j ≠ i → reached_goal cl1 !! j = Some true →
            ∃ p g, players cl !! j = Some p ∧ goals cl !! j = Some g
                   ∧ position p = position g) as Hother.
  { intros j Hj Hflag. rewrite Hf1 in Hflag by done. by apply Hsound. }
  case_bool_decide as Hmoved; injection H as <- <-.
  - intros j Hflag. simpl in *. rewrite Hg1. destruct (decide (j = i)) as [->|Hne].
    + destruct Hcl1 as [Hs1|(_ & _ & _ & g & Hg & Hpos)].
      * destruct (Hs1 i Hflag) as (p & g & Hp & Hg & Hpos).
        destruct Hend as [(_ & (g' & Hg' & Hpos') & _)|[_ ->]];
          [|congruence].
        exists (mkPiece cur), g'. rewrite Hp1.
        by rewrite list_lookup_insert_eq.
      * exists (mkPiece cur), g. rewrite Hp1. by rewrite list_lookup_insert_eq.
    + rewrite Hp1, list_lookup_insert_ne by done. by apply Hother.
  - intros j Hflag. rewrite Hp1, Hg1. destruct (decide (j = i)) as [->|Hne].
    + destruct Hend as [(_ & (g & Hg & Hpos) & _)|[_ ->]]; [|congruence].
      exists player, g. repeat split; [done..|]. congruence.
    + by apply Hother.
Qed.

Lemma move_of_flags_sound (self : Game) (s s' : GameState) :
  flags_sound s → move_of self s s' → flags_sound s'.
Proof.
  intros Hs (d & ns & _ & Hsim & Hin).
  assert (Forall flags_sound ns) as Hall.
  { eapply simulate_move_inv; [exact Hs| |exact Hsim].
    intros i cl0 ns0 cl1 ns1 _. apply move_player_flags_sound. }
  rewrite Forall_forall in Hall. by apply Hall.
Qed.

Lemma move_of_shape (self : Game) (s s' : GameState) :
  move_of self s s' →
  length (players s') = length (players s)
  ∧ length (reached_goal s') = length (reached_goal s).
Proof.
  intros (d & ns & _ & Hsim & Hin).
  assert (Forall (λ x, length (players x) = length (players s)
                       ∧ length (reached_goal x) = length (reached_goal s)) ns)
    as Hall.
  { eapply simulate_move_inv; [ | |exact Hsim]; [done|].
    intros i cl0 ns0 cl1 ns1 _ [Hp Hf] Hmp.
    apply move_player_spec in Hmp as (_ & _ & _ & _ & _ & Hp' & Hf' & _).
    split; congruence. }
  rewrite Forall_forall in Hall. by apply Hall.
Qed.

Lemma walk_fresh (n_rows n_cols : Z) (bd : BoardDetails) (p : list GameState)
    (s : GameState) :
  walk (Game_init n_rows n_cols bd) p s →
  flags_sound s ∧ goals s = bd_goals bd
  ∧ length (reached_goal s) = length (players s).
Proof.
  intros Hwalk. split; [|split].
  - induction Hwalk as [|path s s' _ IH Hmove].
    + intros i Hi. simpl in Hi. by apply lookup_replicate in Hi as [? _].
    + by eapply move_of_flags_sound.
  - by apply walk_tied in Hwalk as [_ ->].
  - induction Hwalk as [|path s s' _ IH Hmove].
    + simpl. by rewrite length_replicate.
    + apply move_of_shape in Hmove as [-> ->]. done.
Qed.

Lemma all_lookup (l : list bool) (i : nat) (b : bool) :
  all l = true → l !! i = Some b → b = true.
Proof.
  unfold all. revert i. induction l as [|x l IH]; intros i Hall Hi; [done|].
  simpl in Hall. apply andb_prop in Hall as [Hx Hl].
  destruct i as [|i]; simpl in Hi; [|by eapply IH].
  injection Hi as <-. by destruct x.
Qed.

Lemma search_ok_on_goals (n_rows n_cols : Z) (bd : BoardDetails) (lvl : bool)
    (sol : list GameState) (n : nat) (trace : list GameState) :
  search_ok (Game_init n_rows n_cols bd) lvl (Some sol, n, trace) →
  ∃ final, last sol = Some final
    ∧ ∀ i p, players final !! i = Some p →
        ∃ g, bd_goals bd !! i = Some g ∧ position p = position g.
Proof.
  unfold search_ok. simpl. intros (path & st & -> & Hwalk & Hwon & _).
  exists st. split; [by rewrite last_snoc|]. intros i p Hp.
  apply walk_fresh in Hwalk as (Hsound & Hgoals & Hlen).
  assert (is_Some (reached_goal st !! i)) as [b Hb].
  { apply lookup_lt_is_Some. rewrite Hlen. by eapply lookup_lt_Some. }
  assert (b = true) as -> by (by eapply all_lookup).
  destruct (Hsound i Hb) as (p' & g & Hp' & Hg & Hpos).
  exists g. rewrite <- Hgoals. split; [done|]. congruence.
Qed.

(** X9: On a game made by [Game.__init__] from a board whose players stand on
    different cells, so that each of them has a dict of its own, the path
    that a search returns ends with every player on the cell of the goal that
    has its index. *)
Theorem won_means_on_goals (n_rows n_cols : Z) (bd : BoardDetails) (fuel : nat)
    (sol : list GameState) (n : nat) (trace : list GameState) :
  NoDup (position <$> bd_players bd) →
  dfs fuel (Game_init n_rows n_cols bd) = Ret (Some sol, n, trace)
  ∨ bfs fuel (Game_init n_rows n_cols bd) = Ret (Some sol, n, trace)
  ∨ ucs fuel (Game_init n_rows n_cols bd) = Ret (Some sol, n, trace) →
  ∃ final, last sol = Some final
    ∧ ∀ i p, players final !! i = Some p →
        ∃ g, bd_goals bd !! i = Some g ∧ position p = position g.
Proof.
  intros _ [[H _]%dfs_answer|[[H _]%bfs_answer|[H _]%ucs_answer]];
    by eapply search_ok_on_goals.
Qed.

Lemma won_means_on_goals_witness :
  NoDup (position <$> bd_players two_rows_board)
  ∧ ∃ final,
      last [mkGameState [] [mkPiece (0, 2)%Z; mkPiece (1, 2)%Z]
              [mkPiece (0, 0)%Z; mkPiece (1, 0)%Z] [false; false];
            mkGameState [] [mkPiece (0, 2)%Z; mkPiece (1, 2)%Z]
              [mkPiece (0, 2)%Z; mkPiece (1, 2)%Z] [true; true]]
      = Some final
      ∧ ∀ i p, players final !! i = Some p →
          ∃ g, bd_goals two_rows_board !! i = Some g ∧ position p = position g.
Proof.
  assert (NoDup (position <$> bd_players two_rows_board)) as Hapart
    by (apply (bool_decide_unpack _); vm_compute; exact I).
  assert (∃ n trace,
            bfs 3 (Game_init 2 3 two_rows_board)
            = Ret (Some [mkGameState [] [mkPiece (0, 2)%Z; mkPiece (1, 2)%Z]
                           [mkPiece (0, 0)%Z; mkPiece (1, 0)%Z] [false; false];
                         mkGameState [] [mkPiece (0, 2)%Z; mkPiece (1, 2)%Z]
                           [mkPiece (0, 2)%Z; mkPiece (1, 2)%Z] [true; true]],
                   n, trace))
    as (n & trace & Hrun) by (vm_compute; eexists; eexists; reflexivity).
  split; [exact Hapart|].
  apply (won_means_on_goals 2 3 two_rows_board 3 _ n trace Hapart).
  right. left. exact Hrun.
Defined.

(** ** What is_valid_move answers *)

Lemma occupied_by_other_true (j0 : nat) (others : list Piece) (i : nat) (c : cell) :
  occupied_by_other j0 others i c = true
  ↔ ∃ k p, others !! k = Some p ∧ j0 + k ≠ i ∧ position p = c.
Proof.
  revert j0. induction others as [|q others IH]; intros j0; simpl.
  - split; [done|]. by intros (k & p & ? & _).
  - destruct (bool_decide (j0 ≠ i) && bool_decide (position q = c)) eqn:Hq.
    + split; [intros _|done]. apply andb_prop in Hq as [H1 H2].
      apply bool_decide_eq_true in H1, H2. exists 0, q. rewrite Nat.add_0_r. done.
    + rewrite IH. split.
      * intros (k & p & Hk & Hne & Hp). exists (S k), p. split; [done|].
        split; [lia|done].
      * intros ([|k] & p & Hk & Hne & Hp); simpl in Hk.
        -- injection Hk as ->. rewrite Nat.add_0_r in Hne.
           rewrite bool_decide_true, bool_decide_true in Hq by done. done.
        -- exists k, p. split; [done|]. split; [lia|done].
Qed.

(** X10: is_valid_move answers True for a cell that is inside the grid, is no
    wall, holds no other player of the stored state and, if the player's
    flag is true, is the player's goal; it raises IndexError for a cell that
    passes the first three tests when the player has no flag, or has a true
    flag and no goal; in every other case it answers False. *)
Theorem is_valid_move_spec (self : Game) (row col : Z) (i : nat) :
  let free :=
    in_bounds self (row, col) ∧ ((row, col) ∉ walls (state self))
    ∧ ∀ j p, j ≠ i → players (state self) !! j = Some p → position p ≠ (row, col) in
  (is_valid_move self row col i = Ret true
   ↔ free ∧ (reached_goal (state self) !! i = Some false
             ∨ (reached_goal (state self) !! i = Some true
                ∧ ∃ g, goals (state self) !! i = Some g ∧ position g = (row, col))))
  ∧ (is_valid_move self row col i = Raise IndexError
     ↔ free ∧ (reached_goal (state self) !! i = None
               ∨ (reached_goal (state self) !! i = Some true
                  ∧ goals (state self) !! i = None)))
  ∧ (is_valid_move self row col i = Ret false
     ∨ is_valid_move self row col i = Ret true
     ∨ is_valid_move self row col i = Raise IndexError).
Proof.
  intros free. subst free. unfold is_valid_move, in_bounds, subscript. simpl.
  destruct (bool_decide (row < 0)%Z || bool_decide (row >= rows self)%Z
            || bool_decide (col < 0)%Z || bool_decide (col >= cols self)%Z) eqn:Hout.
  { assert (¬ ((0 ≤ row < rows self)%Z ∧ (0 ≤ col < cols self)%Z)) as Hno.
    { repeat (apply orb_prop in Hout as [Hout|Hout]);
        apply bool_decide_eq_true in Hout; lia. }
    split; [|split]; [split; [done|intros [[Hb _] _]; by destruct Hno]..|by left]. }
  assert ((0 ≤ row < rows self)%Z ∧ (0 ≤ col < cols self)%Z) as Hin.
  { repeat (apply orb_false_elim in Hout as [Hout ?]).
    repeat match goal with H : bool_decide _ = false |- _ =>
      apply bool_decide_eq_false in H end. lia. }
  clear Hout.
  destruct (bool_decide ((row, col) ∈ walls (state self))) eqn:Hwall.
  { apply bool_decide_eq_true in Hwall.
    split; [|split]; [split; [done|by intros [(_ & Hw & _) _]]..|by left]. }
  apply bool_decide_eq_false in Hwall.
  destruct (occupied_by_other 0 (players (state self)) i (row, col)) eqn:Hocc.
  { apply occupied_by_other_true in Hocc as (k & p & Hk & Hne & Hp).
    split; [|split]; [split; [done|]..|by left];
      intros [(_ & _ & Hfree) _]; by destruct (Hfree k p). }
  assert (∀ j p, j ≠ i → players (state self) !! j = Some p →
            position p ≠ (row, col)) as Hfree.
  { intros j p Hj Hp Hpos.
    assert (occupied_by_other 0 (players (state self)) i (row, col) = true)
      as Hyes by (apply occupied_by_other_true; by exists j, p).
    congruence. }
  destruct (reached_goal (state self) !! i) as [[|]|] eqn:Hflag; simpl.
  - destruct (goals (state self) !! i) as [g|] eqn:Hgoal; simpl.
    + case_bool_decide as Hg.
      * split; [|split]; [split; [done|]..|by left].
        -- intros [_ [?|[_ (g' & [= <-] & Hpos)]]]; [done|]. by destruct Hg.
        -- by intros [_ [?|[_ ?]]].
      * split; [|split]; [| |by right; left].
        -- split; [intros _|done]. split; [done|]. right. split; [done|].
           exists g. split; [done|].
           destruct (decide (position g = (row, col))); [done|]. by destruct Hg.
        -- split; [done|]. by intros [_ [?|[_ ?]]].
    + split; [|split]; [| |by right; right].
      * split; [done|]. by intros [_ [?|[_ (g' & ? & _)]]].
      * split; [intros _|done]. split; [done|]. by right.
  - split; [|split]; [| |by right; left].
    + split; [intros _|done]. split; [done|]. by left.
    + split; [done|]. by intros [_ [?|[? _]]].
  - split; [|split]; [| |by right; right].
    + split; [done|]. by intros [_ [?|[? _]]].
    + split; [intros _|done]. split; [done|]. by left.
Qed.

(** ** The queue of ucs *)

Lemma ucs_reachable_costs (self : Game) (ls : ucs_state) :
  ucs_reachable self ls →
  heap_ordered entry_lt ls.1.1.1 ∧ Forall (λ e : entry, e.1.1 = length e.2) ls.1.1.1.
Proof.
  induction 1 as [|[[[pq v] vs] nv] [[[pq2 v2] vs2] nv2] _ [IHo IHc] Hbody].
  - split; [apply heap_ordered_singleton|]. by repeat constructor.
  - simpl in *. apply ucs_body_round in Hbody as [_ Hkeep]; [|done..].
    by eapply Hkeep.
Qed.

Lemma rounds_ucs_reachable (self : Game) (n : nat) (ls ls' : ucs_state) :
  ucs_reachable self ls → rounds n (ucs_body self) ls = Some ls' →
  ucs_reachable self ls'.
Proof.
  revert ls. induction n as [|n IH]; intros ls Hls Hrounds; simpl in Hrounds.
  - by injection Hrounds as <-.
  - destruct (ucs_body self ls) as [[ls1|a]| |] eqn:Hbody; try done.
    apply (IH ls1); [by eapply ucs_next | done].
Qed.

(** X11: In every round of ucs the cost of a queue entry is the number of moves
    on its path, and the entry that heappop hands out has the least cost in
    the queue. *)
Theorem ucs_pops_cheapest (self : Game) (pq : list entry) (visited : gset key)
    (vs : list GameState) (nv : nat) :
  ucs_reachable self (pq, visited, vs, nv) →
  Forall (λ e : entry, e.1.1 = length e.2) pq
  ∧ ∀ cost st path rest, heappop entry_lt pq = Some ((cost, st, path), rest) →
      ∀ y, y ∈ rest → cost ≤ y.1.1.
Proof.
  intros [Hord Hcost]%ucs_reachable_costs. simpl in *. split; [done|].
  intros cost st path rest Hpop y Hy. apply (entry_min_cost cost st path).
  by eapply entry_heappop_min.
Qed.

Lemma ucs_pops_cheapest_witness :
  let start := main_at (2, 3)%Z false in
  let down := main_at (6, 3)%Z false in
  let pq : list entry :=
    [(1, main_at (2, 11)%Z false, [start]);
     (2, main_at (6, 1)%Z false, [start; down]);
     (2, main_at (6, 11)%Z false, [start; down])] in
  (∃ visited vs nv,
     rounds 2 (ucs_body main_game) ([(0, state main_game, [])], ∅, [], 0)
     = Some (pq, visited, vs, nv))
  ∧ heappop entry_lt pq
    = Some ((1, main_at (2, 11)%Z false, [start]),
            [(2, main_at (6, 1)%Z false, [start; down]);
             (2, main_at (6, 11)%Z false, [start; down])])
  ∧ Forall (λ e : entry, e.1.1 = length e.2) pq
  ∧ ∀ cost st path rest, heappop entry_lt pq = Some ((cost, st, path), rest) →
      ∀ y, y ∈ rest → cost ≤ y.1.1.
Proof.
  intros start down pq.
  assert (∃ visited vs nv,
            rounds 2 (ucs_body main_game) ([(0, state main_game, [])], ∅, [], 0)
            = Some (pq, visited, vs, nv)) as Hrounds
    by (vm_compute; eexists; eexists; eexists; reflexivity).
  split; [exact Hrounds|]. split; [vm_compute; reflexivity|].
  destruct Hrounds as (visited & vs & nv & Hrounds).
  apply (ucs_pops_cheapest main_game pq visited vs nv).
  apply (rounds_ucs_reachable main_game 2 _ _ (ucs_start main_game) Hrounds).
Defined.

(** ** A board without players *)

(** X12: With no player on the board every flag list is empty, so the first state
    that a search pops passes the goal test: each search returns the
    one-state path after one pop. *)
Theorem no_players_wins_at_once (n_rows n_cols : Z) (bd : BoardDetails) (fuel : nat) :
  bd_players bd = [] →
  let game := Game_init n_rows n_cols bd in
  is_won game = true
  ∧ dfs (S fuel) game = Ret (Some [state game], 1, [state game])
  ∧ bfs (S fuel) game = Ret (Some [state game], 1, [state game])
  ∧ ucs (S fuel) game = Ret (Some [state game], 1, [state game]).
Proof.
  intros Hnone game. subst game. unfold is_won, dfs, bfs, ucs, Game_init.
  rewrite Hnone. simpl. done.
Qed.

Lemma no_players_wins_at_once_witness :
  let game := Game_init 2 2 {| bd_walls := []; bd_players := []; bd_goals := [] |} in
  is_won game = true
  ∧ dfs 1 game = Ret (Some [state game], 1, [state game])
  ∧ bfs 1 game = Ret (Some [state game], 1, [state game])
  ∧ ucs 1 game = Ret (Some [state game], 1, [state game]).
Proof.
  apply (no_players_wins_at_once 2 2
           {| bd_walls := []; bd_players := []; bd_goals := [] |} 0).
  reflexivity.
Defined.

(** ** The key of a state *)

(** X13: Among the states that moves lead to from the stored state, the key that
    get_state makes tells states apart: two of them have the same key only
    if they are the same state. So the visited set never takes one
    configuration for another. *)
Theorem key_identifies_state (self : Game) (p q : list GameState) (a b : GameState) :
  walk self p a → walk self q b → (get_state a = get_state b ↔ a = b).
Proof.
  intros Ha Hb. split; [by eapply walk_key_inj | by intros ->].
Qed.

Lemma key_identifies_state_witness :
  get_state (state main_game) = get_state (main_at (6, 3)%Z false)
  ↔ state main_game = main_at (6, 3)%Z false.
Proof.
  apply (key_identifies_state main_game [] [state main_game]).
  - apply walk_start.
  - apply (walk_step main_game [] (state main_game)); [apply walk_start|].
    exists (1, 0)%Z, [main_at (6, 3)%Z false]. split; [|split].
    + unfold moves. right; left.
    + vm_compute. reflexivity.
    + left.
Defined.

(** ** The direction (0, 0) *)

(** X21: With the direction (0, 0) the [while True] loop of a player never ends,
    if the player stands on a cell that is_valid_move accepts and that is
    not its goal: no number of rounds is enough, and the model of
    simulate_move does not come back. *)
Theorem zero_direction_never_stops (self : Game) (i : nat) (cl : GameState)
    (cur : cell) (g : Piece) :
  is_valid_move self cur.1 cur.2 i = Ret true →
  goals cl !! i = Some g → position g ≠ cur →
  (∀ fuel, slide_loop fuel self 0 0 i cl cur = Timeout)
  ∧ slide self 0 0 i cl cur = Timeout.
Proof.
  intros Hvalid Hg Hne.
  assert (∀ fuel, slide_loop fuel self 0 0 i cl cur = Timeout) as Hloop.
  { induction fuel as [|fuel IH]; [done|]. rewrite slide_loop_S.
    replace (cur.1 + 0, cur.2 + 0)%Z with cur by (destruct cur; simpl; f_equal; lia).
    rewrite !Z.add_0_r, Hvalid. cbn [mbind outcome_bind negb].
    apply subscript_Ret in Hg. rewrite Hg. cbn [mbind outcome_bind].
    by rewrite bool_decide_false by done. }
  split; [done|]. apply Hloop.
Qed.

Lemma zero_direction_never_stops_witness :
  (∀ fuel, slide_loop fuel scenario_A 0 0 0 A_start (0, 0)%Z = Timeout)
  ∧ slide scenario_A 0 0 0 A_start (0, 0)%Z = Timeout.
Proof.
  apply (zero_direction_never_stops scenario_A 0 A_start (0, 0)%Z (mkPiece (0, 1)%Z)).
  - vm_compute. reflexivity.
  - reflexivity.
  - discriminate.
Defined.

(** ** A player without a goal *)










(** ** What the searches hand back are objects of their own *)

Lemma keeps_for_each_inv {A S : Type} (n : nat) (I : S → Prop) (body : A → S → prog S)
    (l : list A) (s : S) :
  (∀ a s, I s → keeps n (body a s) I) → I s →
  keeps n (for_each_obj body l s) I.
Proof.
  intros Hbody. revert s. induction l as [|a l IH]; intros s Hs; cbn [for_each_obj].
  - by apply keeps_ret.
  - eapply keeps_bind; [by apply Hbody | intros s' Hs'; by apply IH].
Qed.

Lemma keeps_while_inv {L R : Type} (n fuel : nat) (I : L → Prop) (Q : R → Prop)
    (body : L → prog (step L R)) (l : L) :
  (∀ l, I l → keeps n (body l)
                (λ s, match s with Continue l' => I l' | Return r => Q r end)) →
  I l → keeps n (while_loop_obj fuel body l) Q.
Proof.
  intros Hbody. revert l. induction fuel as [|fuel IH]; intros l Hl;
    cbn [while_loop_obj].
  - intros σ a σ' _ Hrun. done.
  - eapply keeps_bind; [by apply Hbody|].
    intros [l'|r] Hs; [by apply IH | by apply keeps_ret].
Qed.

Lemma keeps_move_player_fresh (n : nat) (self : GameObject) (r_row c_col : Z)
    (cloned_state : ref) (i : nat) (new_states : list ref) :
  n ≤ cloned_state → fresh n new_states →
  keeps n (move_player_obj self r_row c_col cloned_state i new_states) (fresh n).
Proof.
  intros Hc Hns. unfold move_player_obj.
  eapply keeps_bind; [apply keeps_read|]. intros cl _.
  eapply keeps_bind; [apply keeps_lift|]. intros reached _.
  destruct reached; [by apply keeps_ret|].
  eapply keeps_bind; [apply keeps_lift|]. intros player _.
  eapply keeps_bind; [by apply keeps_slide_loop|]. intros current _.
  case_bool_decide; [|by apply keeps_ret].
  eapply keeps_bind; [by apply keeps_set_position|]. intros _ _.
  eapply keeps_bind; [apply keeps_deepcopy|]. intros snapshot Hsnap.
  apply keeps_ret. apply Forall_app. split; [done|]. by repeat constructor.
Qed.

Lemma keeps_simulate_move_fresh (n : nat) (self : GameObject) (current_state : ref)
    (r_row c_col : Z) :
  keeps n (simulate_move_obj self current_state r_row c_col) (fresh n).
Proof.
  unfold simulate_move_obj.
  eapply keeps_bind; [apply keeps_deepcopy|]. intros cloned_state Hc.
  eapply keeps_bind; [apply keeps_read|]. intros cl _.
  apply keeps_for_each_inv; [|constructor].
  intros i ns Hns. by apply keeps_move_player_fresh.
Qed.

Lemma keeps_push_successors_fresh (n : nat) (self : GameObject) (current_state : ref)
    (path : list ref) (fr : frontier_obj) :
  n ≤ current_state → fresh n path → fresh_frontier n fr →
  keeps n (push_successors_obj self current_state path fr) (fresh_frontier n).
Proof.
  intros Hcur Hpath Hfr. unfold push_successors_obj.
  apply keeps_for_each_inv; [|done]. intros [mr mc] fr' Hfr'.
  eapply keeps_bind; [apply keeps_simulate_move_fresh|]. intros ns Hns.
  apply keeps_ret. rewrite (foldl_snoc_map (λ s, (s, path ++ [current_state]))).
  apply Forall_app. split; [done|]. apply Forall_forall.
  intros e (s & -> & Hs)%list_elem_of_fmap. simpl. split.
  - unfold fresh in Hns. rewrite Forall_forall in Hns. by apply Hns.
  - apply Forall_app. split; [done|]. by repeat constructor.
Qed.

Lemma keeps_search_body_fresh (n : nat)
    (pop : frontier_obj → option ((ref * list ref) * frontier_obj))
    (self : GameObject) (ls : loop_state_obj) :
  (∀ fr e fr', pop fr = Some (e, fr') → e :: fr' ≡ₚ fr) →
  fresh_frontier n ls.1.1.1 → fresh n ls.1.2 →
  keeps n (search_body_obj pop self ls)
    (λ s, match s with
          | Continue ls' => fresh_frontier n ls'.1.1.1 ∧ fresh n ls'.1.2
          | Return a => fresh_answer n a
          end).
Proof.
  intros Hpop. destruct ls as [[[fr visited] vs] nv]. simpl. intros Hfr Hvs.
  unfold search_body_obj.
  destruct (pop fr) as [[[current_state path] fr']|] eqn:Hp.
  - apply Hpop in Hp. unfold fresh_frontier in Hfr. rewrite <- Hp in Hfr.
    apply Forall_cons in Hfr as [[Hcur Hpath] Hfr']. simpl in Hcur, Hpath.
    eapply keeps_bind; [apply keeps_deepcopy|]. intros snapshot Hsnap.
    assert (fresh n (vs ++ [snapshot])) as Hvs'.
    { apply Forall_app. split; [done|]. by repeat constructor. }
    eapply keeps_bind; [apply keeps_read|]. intros cur _.
    destruct (all _).
    + apply keeps_ret. split; [|done]. simpl. intros sol [= <-].
      apply Forall_app. split; [done|]. by repeat constructor.
    + eapply keeps_bind; [apply keeps_get_state|]. intros state_hash _.
      case_bool_decide; [by apply keeps_ret|].
      eapply keeps_bind; [by apply keeps_push_successors_fresh|]. intros fr'' Hfr''.
      by apply keeps_ret.
  - apply keeps_ret. split; [done|]. done.
Qed.

Lemma keeps_push_unvisited_successors_fresh (n : nat) (self : GameObject)
    (visited : gset key) (cost : nat) (current_state : ref) (path : list ref)
    (pq : list entry_obj) :
  n ≤ current_state → fresh n path → fresh_queue n pq →
  keeps n (push_unvisited_successors_obj self visited cost current_state path pq)
    (fresh_queue n).
Proof.
  intros Hcur Hpath Hpq. unfold push_unvisited_successors_obj.
  apply keeps_for_each_inv; [|done]. intros [mr mc] pq' Hpq'.
  eapply keeps_bind; [apply keeps_simulate_move_fresh|]. intros ns Hns.
  unfold push_unvisited_obj.
  assert (∀ (l : list ref) (q : list entry_obj), fresh n l → fresh_queue n q →
            keeps n
              (for_each_obj (λ new_state priority_queue,
                   new_state_hash ← get_state_obj new_state;
                   if bool_decide (new_state_hash ∉ visited)
                   then heappush_obj priority_queue
                          (cost + 1, new_state, path ++ [current_state])
                   else mret priority_queue) l q)
              (fresh_queue n)) as Hloop.
  { induction l as [|s l IH]; intros q Hl Hq; cbn [for_each_obj].
    - by apply keeps_ret.
    - apply Forall_cons in Hl as [Hs Hl].
      eapply keeps_bind; [|intros q' Hq'; by apply IH].
      eapply keeps_bind; [apply keeps_get_state|]. intros new_state_hash _.
      case_bool_decide; [|by apply keeps_ret].
      intros σ a σ' _ [= <- <-]. split; [apply untouched_refl|].
      unfold fresh_queue. rewrite heappush_perm. constructor; [|done]. simpl.
      split; [done|]. apply Forall_app. split; [done|]. by repeat constructor. }
  by apply Hloop.
Qed.

Lemma keeps_ucs_body_fresh (n : nat) (self : GameObject) (ls : ucs_state_obj) :
  fresh_queue n ls.1.1.1 → fresh n ls.1.2 →
  keeps n (ucs_body_obj self ls)
    (λ s, match s with
          | Continue ls' => fresh_queue n ls'.1.1.1 ∧ fresh n ls'.1.2
          | Return a => fresh_answer n a
          end).
Proof.
  destruct ls as [[[pq visited] vs] nv]. simpl. intros Hpq Hvs.
  unfold ucs_body_obj.
  eapply (keeps_bind n _ _
            (λ popped, ∀ e pq', popped = Some (e, pq') → e :: pq' ≡ₚ pq)).
  { intros σ a σ' _ [= <- <-]. split; [apply untouched_refl|].
    intros e pq' Hp. by apply heappop_perm in Hp. }
  intros popped Hpopped.
  destruct popped as [[[[cost current_state] path] pq']|].
  - specialize (Hpopped _ _ eq_refl). unfold fresh_queue in Hpq.
    rewrite <- Hpopped in Hpq.
    apply Forall_cons in Hpq as [[Hcur Hpath] Hpq']. simpl in Hcur, Hpath.
    eapply keeps_bind; [apply keeps_deepcopy|]. intros snapshot Hsnap.
    assert (fresh n (vs ++ [snapshot])) as Hvs'.
    { apply Forall_app. split; [done|]. by repeat constructor. }
    eapply keeps_bind; [apply keeps_read|]. intros cur _.
    destruct (all _).
    + apply keeps_ret. split; [|done]. simpl. intros sol [= <-].
      apply Forall_app. split; [done|]. by repeat constructor.
    + eapply keeps_bind; [apply keeps_get_state|]. intros state_hash _.
      case_bool_decide; [by apply keeps_ret|].
      eapply keeps_bind; [by apply keeps_push_unvisited_successors_fresh|].
      intros pq'' Hpq''. by apply keeps_ret.
  - apply keeps_ret. split; [done|]. done.
Qed.

Lemma keeps_searches_fresh (n fuel : nat) (self : GameObject) :
  keeps n (dfs_obj fuel self) (fresh_answer n)
  ∧ keeps n (bfs_obj fuel self) (fresh_answer n)
  ∧ keeps n (ucs_obj fuel self) (fresh_answer n).
Proof.
  split; [|split].
  - unfold dfs_obj. eapply keeps_bind; [apply keeps_deepcopy|]. intros r Hr.
    apply (keeps_while_inv n fuel
             (λ ls : loop_state_obj, fresh_frontier n ls.1.1.1 ∧ fresh n ls.1.2)).
    + intros ls [Hfr Hvs]. apply keeps_search_body_fresh; [|done..].
      intros fr e fr' ->%list_pop_Some. by rewrite Permutation_app_comm.
    + simpl. split; [|constructor]. by repeat constructor.
  - unfold bfs_obj. eapply keeps_bind; [apply keeps_deepcopy|]. intros r Hr.
    apply (keeps_while_inv n fuel
             (λ ls : loop_state_obj, fresh_frontier n ls.1.1.1 ∧ fresh n ls.1.2)).
    + intros ls [Hfr Hvs]. apply keeps_search_body_fresh; [|done..].
      intros [|x fr] e fr' Hp; simplify_eq/=. done.
    + simpl. split; [|constructor]. by repeat constructor.
  - unfold ucs_obj. eapply keeps_bind; [apply keeps_deepcopy|]. intros r Hr.
    apply (keeps_while_inv n fuel
             (λ ls : ucs_state_obj, fresh_queue n ls.1.1.1 ∧ fresh n ls.1.2)).
    + intros ls [Hpq Hvs]. by apply keeps_ucs_body_fresh.
    + simpl. split; [|constructor]. by repeat constructor.
Qed.

(** X20: The states that a search hands back, in the path and in the trace, are
    objects that it has made itself: none of them is the object that
    [self.state] refers to, nor any other object that existed before the
    call. A caller may change them without changing the game. *)
Theorem searches_return_own_objects (self : GameObject) (fuel : nat) (σ σ' : store)
    (a : answer_obj) :
  state_ref self < length σ →
  dfs_obj fuel self σ = Ret (a, σ') ∨ bfs_obj fuel self σ = Ret (a, σ')
  ∨ ucs_obj fuel self σ = Ret (a, σ') →
  (∀ sol r, a.1.1 = Some sol → r ∈ sol → length σ ≤ r ∧ r ≠ state_ref self)
  ∧ ∀ r, r ∈ a.2 → length σ ≤ r ∧ r ≠ state_ref self.
Proof.
  intros Hself Hrun.
  destruct (keeps_searches_fresh (length σ) fuel self) as (Hdfs & Hbfs & Hucs).
  assert (fresh_answer (length σ) a) as [Hsol Htrace].
  { destruct Hrun as [Hrun|[Hrun|Hrun]].
    - by destruct (Hdfs σ a σ').
    - by destruct (Hbfs σ a σ').
    - by destruct (Hucs σ a σ'). }
  split.
  - intros sol r Ha Hr. specialize (Hsol sol Ha). unfold fresh in Hsol.
    rewrite Forall_forall in Hsol. specialize (Hsol r Hr). lia.
  - intros r Hr. unfold fresh in Htrace. rewrite Forall_forall in Htrace.
    specialize (Htrace r Hr). lia.
Qed.

Lemma searches_return_own_objects_witness :
  ∃ a σ', bfs_obj 3 A_obj [A_start] = Ret (a, σ')
    ∧ (∀ sol r, a.1.1 = Some sol → r ∈ sol → 1 ≤ r ∧ r ≠ 0)
    ∧ ∀ r, r ∈ a.2 → 1 ≤ r ∧ r ≠ 0.
Proof.
  assert (Hrun : ∃ a σ', bfs_obj 3 A_obj [A_start] = Ret (a, σ'))
    by (vm_compute; eexists; eexists; reflexivity).
  destruct Hrun as (a & σ' & Hrun).
  exists a, σ'. split; [exact Hrun|].
  apply (searches_return_own_objects A_obj 3 [A_start] σ' a);
    [simpl; lia | right; left; exact Hrun].
Defined.

(** * The console program *)

(** ** The console *)

Lemma ui_bind_unfold {A B : Type} (m : ui A) (f : A → ui B) (c : console) :
  (m ≫= f) c
  = match m c with
    | (Done a, c') => f a c'
    | (Fails e, c') => (Fails e, c')
    | (Hangs, c') => (Hangs, c')
    end.
Proof. done. Qed.

Lemma ui_for_each_print {A : Type} (f : A → string) (l : list A) (c : console) :
  ui_for_each (λ a, print (f a)) l c
  = (Done (), mkConsole (stdin c) (stdout c ++ (Line <$> (f <$> l)))).
Proof.
  revert c. induction l as [|a l IH]; intros [ins out]; simpl.
  - by rewrite app_nil_r.
  - rewrite ui_bind_unfold. unfold print at 1. simpl. rewrite IH. simpl.
    by rewrite <- app_assoc.
Qed.

Lemma print_state_eq (self : GameUI) (state : GameState) (c : console) :
  print_state self state c = (Done (), mkConsole (stdin c) (stdout c ++ board self state)).
Proof.
  unfold print_state, board. rewrite ui_bind_unfold, ui_for_each_print.
  unfold print. simpl. by rewrite <- app_assoc.
Qed.

(** ** print_state *)

Lemma append_cons (x : Ascii.ascii) (s t : string) :
  String x s +:+ t = String x (s +:+ t).
Proof. done. Qed.

Lemma append_nil (t : string) : "" +:+ t = t.
Proof. done. Qed.

Lemma string_length_app (s t : string) :
  String.length (s +:+ t) = String.length s + String.length t.
Proof.
  induction s as [|a s IH]; [done|]. rewrite append_cons. simpl. by rewrite IH.
Qed.

Lemma substring_app_skip (a b : string) (n m : nat) :
  String.substring (String.length a + n) m (a +:+ b) = String.substring n m b.
Proof. induction a as [|x a IH]; [done|]. rewrite append_cons. simpl. done. Qed.

Lemma substring_app_take (a b : string) :
  String.substring 0 (String.length a) (a +:+ b) = a.
Proof.
  induction a as [|x a IH]; [by destruct b|]. rewrite append_cons. simpl.
  by rewrite IH.
Qed.

Lemma string_app_assoc (a b c : string) : (a +:+ b) +:+ c = a +:+ (b +:+ c).
Proof.
  induction a as [|x a IH]; [done|]. rewrite !append_cons. by rewrite IH.
Qed.

Lemma string_app_nil_r (a : string) : a +:+ "" = a.
Proof. induction a as [|x a IH]; [done|]. rewrite append_cons. by rewrite IH. Qed.

Lemma foldl_append {A : Type} (f : A → string) (acc : string) (l : list A) :
  foldl (λ line a, line +:+ f a) acc l = acc +:+ foldr (λ a s, f a +:+ s) "" l.
Proof.
  revert acc. induction l as [|a l IH]; intros acc; simpl.
  - by rewrite string_app_nil_r.
  - by rewrite IH, string_app_assoc.
Qed.

Lemma pieces_length {A : Type} (f : A → string) (l : list A) :
  (∀ a, String.length (f a) = 2) →
  String.length (foldr (λ a s, f a +:+ s) "" l) = 2 * length l.
Proof.
  intros Hf. induction l as [|a l IH]; simpl; [done|].
  rewrite string_length_app, Hf, IH. lia.
Qed.

Lemma pieces_substring {A : Type} (f : A → string) (l : list A) (k : nat) (a : A) :
  (∀ a, String.length (f a) = 2) → l !! k = Some a →
  String.substring (2 * k) 2 (foldr (λ a s, f a +:+ s) "" l) = f a.
Proof.
  intros Hf. revert k. induction l as [|x l IH]; intros k Hk; [done|].
  destruct k as [|k]; simpl in Hk.
  - injection Hk as ->. simpl foldr. rewrite <- (Hf a) at 2.
    apply substring_app_take.
  - simpl foldr. replace (2 * S k) with (String.length (f x) + 2 * k) by (rewrite Hf; lia).
    rewrite substring_app_skip. by apply IH.
Qed.

Lemma cell_text_length (state : GameState) (row col : Z) :
  String.length (cell_text state row col) = 2.
Proof. unfold cell_text. repeat case_match; done. Qed.

Lemma existsb_position (c : cell) (l : list Piece) :
  existsb (λ piece, bool_decide (c = position piece)) l
  = bool_decide (c ∈ position <$> l).
Proof.
  induction l as [|x l IH]; cbn [existsb].
  - symmetry. apply bool_decide_eq_false. rewrite fmap_nil. apply not_elem_of_nil.
  - rewrite IH. destruct (decide (c = position x)) as [->|Hne].
    + rewrite (bool_decide_true (position x = position x)) by done. simpl.
      symmetry. apply bool_decide_eq_true. rewrite ?fmap_cons. by left.
    + rewrite (bool_decide_false (c = position x)) by done. simpl.
      apply bool_decide_ext. rewrite ?fmap_cons, elem_of_cons.
      split; [by right | by intros [?|?]].
Qed.

(** X14: print_state writes one line per row and an empty line, reads nothing and
    does not fail. Each line has two characters per column: for column
    [col] of row [row] they are "X " on a wall, else "G " on the cell of a
    goal, else "P " on the cell of a player, else ". ". So a player that stands
    on the cell of a goal is not shown. *)
Theorem print_state_shape (self : GameUI) (state : GameState) (c : console) :
  ∃ lines,
    print_state self state c
    = (Done (), mkConsole (stdin c) (stdout c ++ (Line <$> lines) ++ [Line ""]))
    ∧ length lines = Z.to_nat (ui_rows self)
    ∧ ∀ (row : nat) (text : string), lines !! row = Some text →
        String.length text = 2 * Z.to_nat (ui_cols self)
        ∧ ∀ col : nat, (Z.of_nat col < ui_cols self)%Z →
            let here := (Z.of_nat row, Z.of_nat col) in
            String.substring (2 * col) 2 text
            = if bool_decide (here ∈ walls state) then "X "
              else if bool_decide (here ∈ position <$> goals state) then "G "
              else if bool_decide (here ∈ position <$> players state) then "P "
              else ". ".
Proof.
  exists (row_text self state <$> seqZ 0 (ui_rows self)).
  split; [apply print_state_eq|]. split; [by rewrite length_fmap, length_seqZ|].
  intros row text Hrow. apply list_lookup_fmap_Some in Hrow as (r & -> & Hr).
  apply lookup_seqZ in Hr as [-> Hlt]. unfold row_text.
  rewrite foldl_append, append_nil. split.
  - rewrite pieces_length by apply cell_text_length. by rewrite length_seqZ.
  - intros col Hcol. cbv zeta.
    rewrite (pieces_substring _ _ col (Z.of_nat col)).
    + unfold cell_text. by rewrite Z.add_0_l, !existsb_position.
    + apply cell_text_length.
    + apply lookup_seqZ. split; lia.
Qed.

(** ** One key press in manual play *)

Lemma move_player_cases (self : Game) (r_row c_col : Z) (i : nat)
    (cl : GameState) (ns : list GameState) (cl' : GameState) (ns' : list GameState) :
  (r_row ≠ 0 ∨ c_col ≠ 0)%Z →
  move_player self r_row c_col i (cl, ns) = Ret (cl', ns') →
  (cl' = cl ∧ ns' = ns) ∨ ns' = ns ++ [cl'].
Proof.
  intros Hd H. unfold move_player in H. inv_bind H as reached Hr.
  destruct reached; [injection H as <- <-; by left|].
  inv_bind H as player Hp. inv_bind H as [cl1 cur] Hslide. unfold slide in Hslide.
  apply slide_loop_run in Hslide as (k & -> & _ & _ & Hend).
  case_bool_decide as Hmoved; injection H as <- <-; [by right|]. left.
  apply ahead_moves in Hmoved; [|done]. subst k.
  destruct Hend as [(Hk & _)|[_ ->]]; [lia|done].
Qed.

Lemma first_successor_upto (self : Game) (st : GameState) (r_row c_col : Z) (n : nat)
    (cl : GameState) (ns : list GameState) :
  (r_row ≠ 0 ∨ c_col ≠ 0)%Z →
  for_each (move_player self r_row c_col) (seq 0 n) (st, []) = Ret (cl, ns) →
  match ns with
  | [] => cl = st ∧ ∀ j, j < n → move_player self r_row c_col j (st, []) = Ret (st, [])
  | s :: _ =>
      ∃ i, i < n ∧ move_player self r_row c_col i (st, []) = Ret (s, [s])
        ∧ ∀ j, j < i → move_player self r_row c_col j (st, []) = Ret (st, [])
  end.
Proof.
  intros Hd. revert cl ns. induction n as [|n IH]; intros cl ns H.
  - injection H as <- <-. split; [done|]. intros; lia.
  - rewrite seq_S in H. apply for_each_app_inv in H as ([cl0 ns0] & H0 & H).
    specialize (IH cl0 ns0 H0).
    simpl in H. inv_bind H as [cl1 ns1] Hmp. injection H as -> ->.
    pose proof (move_player_cases _ _ _ _ _ _ _ _ Hd Hmp) as Hcases.
    destruct ns0 as [|s rest].
    + destruct IH as [-> Hbefore]. destruct Hcases as [[-> ->]| ->].
      * split; [done|]. intros j Hj. destruct (decide (j = n)) as [->|?]; [done|].
        apply Hbefore. lia.
      * exists n. split; [lia|]. split; [done|]. done.
    + destruct IH as (i & Hi & Hfirst & Hbefore).
      assert (∃ rest', ns = s :: rest') as [rest' ->].
      { destruct Hcases as [[_ ->]| ->]; simpl; eauto. }
      exists i. split; [lia|]. done.
Qed.

Lemma key_press_eq (self : GameUI) (r_row c_col : Z) (c : console) :
  key_press self r_row c_col c
  = match simulate_move (game self) (state (game self)) r_row c_col with
    | Ret (s :: _) => (Done (set_state self s), c)
    | Ret [] => (Fails (Core IndexError), c)
    | Raise e => (Fails (Core e), c)
    | Timeout => (Hangs, c)
    end.
Proof.
  unfold key_press. rewrite ui_bind_unfold. unfold core at 1.
  destruct (simulate_move _ _ _ _) as [[|s rest]| |]; done.
Qed.

(** X15: With the players of the stored state on different cells, so that
    each of them has a dict of its own, a key press in manual play replaces
    the stored state by the first state that simulate_move returns, which is
    the state after the turn of one player alone: the first player in the
    list whose turn changes anything. The players before it stay because
    they cannot move; the players after it stay even if they could. Nothing
    is read or written. *)
Theorem key_press_takes_first_mover (self : GameUI) (r_row c_col : Z) (c : console)
    (self' : GameUI) (c' : console) :
  NoDup (position <$> players (state (game self))) →
  (r_row ≠ 0 ∨ c_col ≠ 0)%Z →
  key_press self r_row c_col c = (Done self', c') →
  c' = c
  ∧ self' = set_state self (state (game self'))
  ∧ ∃ i, i < length (players (state (game self)))
      ∧ move_player (game self) r_row c_col i (state (game self), [])
        = Ret (state (game self'), [state (game self')])
      ∧ (∀ j, j < i →
           move_player (game self) r_row c_col j (state (game self), [])
           = Ret (state (game self), []))
      ∧ ∀ j, j ≠ i →
          players (state (game self')) !! j = players (state (game self)) !! j
          ∧ reached_goal (state (game self')) !! j
            = reached_goal (state (game self)) !! j.
Proof.
  intros _ Hd H. rewrite key_press_eq in H.
  destruct (simulate_move _ _ _ _) as [[|s rest]| |] eqn:Hsim; try done.
  injection H as <- <-. split; [done|]. split; [done|]. simpl.
  unfold simulate_move, simulate_players in Hsim. inv_bind Hsim as [cl ns] Hrun.
  injection Hsim as ->.
  apply first_successor_upto in Hrun as (i & Hi & Hfirst & Hbefore); [|done].
  exists i. split; [done|]. split; [done|]. split; [done|].
  intros j Hj.
  apply move_player_spec in Hfirst as (_ & _ & _ & Hp & Hf & _). split; eauto.
Qed.

Lemma key_press_takes_first_mover_witness :
  let self := GameUI_init 2 4 {| bd_walls := [];
                                 bd_players := [mkPiece (0, 3)%Z; mkPiece (0, 0)%Z];
                                 bd_goals := [mkPiece (1, 3)%Z; mkPiece (1, 0)%Z] |} in
  let self' := set_state self
                 (mkGameState [] [mkPiece (1, 3)%Z; mkPiece (1, 0)%Z]
                    [mkPiece (0, 3)%Z; mkPiece (0, 2)%Z] [false; false]) in
  let c := mkConsole [] [] in
  NoDup (position <$> players (state (game self)))
  ∧ c = c
  ∧ self' = set_state self (state (game self'))
  ∧ ∃ i, i < length (players (state (game self)))
      ∧ move_player (game self) 0 1 i (state (game self), [])
        = Ret (state (game self'), [state (game self')])
      ∧ (∀ j, j < i →
           move_player (game self) 0 1 j (state (game self), [])
           = Ret (state (game self), []))
      ∧ ∀ j, j ≠ i →
          players (state (game self')) !! j = players (state (game self)) !! j
          ∧ reached_goal (state (game self')) !! j
            = reached_goal (state (game self)) !! j.
Proof.
  intros self self' c.
  assert (NoDup (position <$> players (state (game self)))) as Hapart
    by (apply (bool_decide_unpack _); vm_compute; exact I).
  split; [exact Hapart|].
  apply (key_press_takes_first_mover self 0 1 c self' c Hapart).
  - right. lia.
  - vm_compute. reflexivity.
Defined.

Lemma for_each_fixed {A S : Type} (body : A → S → outcome S) (l : list A) (s : S) :
  (∀ a, a ∈ l → body a s = Ret s) → for_each body l s = Ret s.
Proof.
  induction l as [|a l IH]; intros Hbody; simpl; [done|].
  rewrite (Hbody a) by left. cbn [mbind outcome_bind]. apply IH.
  intros b Hb. apply Hbody. by right.
Qed.

Lemma move_player_blocked (self : Game) (r_row c_col : Z) (i : nat) (st : GameState)
    (p : Piece) :
  players st !! i = Some p →
  reached_goal st !! i = Some true
  ∨ (reached_goal st !! i = Some false
     ∧ is_valid_move self ((position p).1 + r_row) ((position p).2 + c_col) i
       = Ret false) →
  move_player self r_row c_col i (st, []) = Ret (st, []).
Proof.
  intros Hp Hcase. unfold move_player.
  destruct Hcase as [Hflag|[Hflag Hno]]; apply subscript_Ret in Hflag; rewrite Hflag;
    cbn [mbind outcome_bind]; [done|].
  apply subscript_Ret in Hp. rewrite Hp. cbn [mbind outcome_bind].
  unfold slide, slide_fuel. rewrite slide_loop_S, Hno. cbn [mbind outcome_bind negb].
  by rewrite bool_decide_false by (intros Hne; by apply Hne).
Qed.

(** X16: If every player is flagged or has a first step that is_valid_move
    refuses, simulate_move returns the empty list and the key press raises
    IndexError (the subscript [0] of the empty list), with nothing read or
    written. *)
Theorem key_press_blocked (self : GameUI) (r_row c_col : Z) (c : console) :
  (∀ i p, players (state (game self)) !! i = Some p →
     reached_goal (state (game self)) !! i = Some true
     ∨ (reached_goal (state (game self)) !! i = Some false
        ∧ is_valid_move (game self) ((position p).1 + r_row)
            ((position p).2 + c_col) i = Ret false)) →
  simulate_move (game self) (state (game self)) r_row c_col = Ret []
  ∧ key_press self r_row c_col c = (Fails (Core IndexError), c).
Proof.
  intros Hblocked.
  assert (simulate_move (game self) (state (game self)) r_row c_col = Ret []) as Hsim.
  { unfold simulate_move, simulate_players. rewrite for_each_fixed; [done|].
    intros i [_ Hi]%elem_of_seq. simpl in Hi.
    apply lookup_lt_is_Some in Hi as [p Hp].
    apply (move_player_blocked _ _ _ _ _ p); [done|]. by apply Hblocked. }
  split; [done|]. by rewrite key_press_eq, Hsim.
Qed.

Lemma key_press_blocked_witness :
  simulate_move main_game (state main_game) (-1) 0 = Ret []
  ∧ key_press (GameUI_init 15 15 main_board) (-1) 0 (mkConsole [] [])
    = (Fails (Core IndexError), mkConsole [] []).
Proof.
  apply (key_press_blocked (GameUI_init 15 15 main_board) (-1) 0 (mkConsole [] [])).
  intros [|i] p Hp; simpl in Hp; [|done]. injection Hp as <-.
  right. split; [done|]. vm_compute. reflexivity.
Defined.

(** ** Manual play comes to an end *)

Lemma manual_direction_nonzero (move : string) (r_row c_col : Z) :
  manual_direction move = Some (r_row, c_col) → (r_row ≠ 0 ∨ c_col ≠ 0)%Z.
Proof.
  unfold manual_direction. repeat case_bool_decide; intros [= <- <-]; lia.
Qed.

Lemma play_manually_S (upper : string → string) (fuel : nat) (self : GameUI)
    (ins : list string) (out : list write) :
  play_manually upper (S fuel) self (mkConsole ins out)
  = let out := out ++ board self (state (game self))
                 ++ [Prompt "Enter your move (WASD): "] in
    match ins with
    | [] => (Fails EOFError, mkConsole [] out)
    | move :: more =>
        match manual_direction (upper move) with
        | Some (r_row, c_col) =>
            (self ← key_press self r_row c_col;
             if is_won (game self) then
               print_state self (state (game self));; print "You won!";; mret self
             else play_manually upper fuel self) (mkConsole more out)
        | None =>
            play_manually upper fuel self
              (mkConsole more (out ++ [Line "Invalid! enter W, A, S, or D."]))
        end
    end.
Proof.
  cbn [play_manually]. rewrite ui_bind_unfold, print_state_eq. simpl.
  rewrite ui_bind_unfold. unfold input. simpl. rewrite <- app_assoc.
  destruct ins as [|move more]; [done|].
  destruct (manual_direction (upper move)) as [[r_row c_col]|]; [done|].
  rewrite ui_bind_unfold. unfold print. simpl. done.
Qed.

Lemma goes_with_wf (self : Game) (s : GameState) :
  wf_game self → goes_with self s → wf_game (mkGame (rows self) (cols self) s).
Proof.
  intros [Hf Hg] (Hgoals & Hp & Hflags & _). split; simpl; [congruence|].
  rewrite Hgoals, Hp. done.
Qed.

(** X17: Manual play on a game that pairs every player with a goal ends in one of
    three ways: a key press finds nothing to move and raises IndexError; the
    input runs out and [input] raises EOFError; or the game is won, and then
    the last line written is "You won!". Every round takes one line
    of input, so more rounds than lines are never made. *)
Theorem manual_play_ends (upper : string → string) (fuel : nat) (self : GameUI)
    (c : console) :
  wf_game (game self) → length (stdin c) < fuel →
  ∃ c',
    play_manually upper fuel self c = (Fails (Core IndexError), c')
    ∨ (play_manually upper fuel self c = (Fails EOFError, c') ∧ stdin c' = [])
    ∨ ∃ self', play_manually upper fuel self c = (Done self', c')
        ∧ is_won (game self') = true
        ∧ last (stdout c') = Some (Line "You won!").
Proof.
  revert self c. induction fuel as [|fuel IH]; intros self [ins out] Hwf Hlen;
    [simpl in Hlen; lia|].
  rewrite play_manually_S. cbv zeta. simpl in Hlen.
  destruct ins as [|move more]; [eexists; right; left; done|].
  simpl in Hlen.
  destruct (manual_direction (upper move)) as [[r_row c_col]|] eqn:Hdir.
  - apply manual_direction_nonzero in Hdir.
    rewrite ui_bind_unfold, key_press_eq.
    destruct (simulate_move_goes_with (game self) (state (game self)) r_row c_col)
      as (ns & Hsim & Hns); [done|by apply goes_with_start|done|].
    rewrite Hsim. destruct ns as [|s rest]; [eexists; left; done|].
    apply Forall_cons in Hns as [Hs _].
    destruct (is_won (game (set_state self s))) eqn:Hwon.
    + eexists. right; right. eexists. rewrite ui_bind_unfold, print_state_eq. simpl.
      split; [reflexivity|]. split; [done|]. simpl. by rewrite !last_snoc.
    + apply IH; [|simpl; lia]. simpl. by apply goes_with_wf.
  - apply IH; [done|simpl; lia].
Qed.


Lemma manual_play_ends_witness :
  ∃ c',
    play_manually ascii_upper 6 (GameUI_init 15 15 main_board)
      (mkConsole ["s"; "x"; "a"; "w"; "d"] [])
    = (Fails (Core IndexError), c')
    ∨ (play_manually ascii_upper 6 (GameUI_init 15 15 main_board)
         (mkConsole ["s"; "x"; "a"; "w"; "d"] [])
       = (Fails EOFError, c') ∧ stdin c' = [])
    ∨ ∃ self', play_manually ascii_upper 6 (GameUI_init 15 15 main_board)
                 (mkConsole ["s"; "x"; "a"; "w"; "d"] [])
               = (Done self', c')
        ∧ is_won (game self') = true
        ∧ last (stdout c') = Some (Line "You won!").
Proof.
  apply (manual_play_ends ascii_upper 6 (GameUI_init 15 15 main_board)
           (mkConsole ["s"; "x"; "a"; "w"; "d"] [])).
  - split; simpl; lia.
  - simpl. lia.
Defined.

(** The keys s, x, a, w, d win the shipped board: x is refused, the four
    others are the moves of the path that bfs finds. *)
Example manual_play_wins :
  ∃ self' c',
    play_manually ascii_upper 6 (GameUI_init 15 15 main_board)
      (mkConsole ["s"; "x"; "a"; "w"; "d"] [])
    = (Done self', c')
    ∧ state (game self') = main_at (4, 6)%Z true ∧ stdin c' = [].
Proof. vm_compute. eexists; eexists. split; [reflexivity|]. done. Qed.

(** ** What solve_with_algorithm writes *)

Lemma ui_for_each_board {A : Type} (self : GameUI) (f : A → list write)
    (body : A → ui unit) (l : list A) (c : console) :
  (∀ a c, body a c = (Done (), mkConsole (stdin c) (stdout c ++ f a))) →
  ui_for_each body l c = (Done (), mkConsole (stdin c) (stdout c ++ (l ≫= f))).
Proof.
  intros Hbody. revert c. induction l as [|a l IH]; intros [ins out]; simpl.
  - by rewrite app_nil_r.
  - rewrite ui_bind_unfold, Hbody. simpl. rewrite IH. simpl.
    by rewrite <- app_assoc.
Qed.

Lemma search_ok_nonempty (self : Game) (lvl : bool) (sol : list GameState) (n : nat)
    (trace : list GameState) :
  search_ok self lvl (Some sol, n, trace) → ∃ first rest, sol = first :: rest.
Proof.
  unfold search_ok. simpl. intros (p & st & -> & _).
  destruct p as [|x p]; simpl; eauto.
Qed.

Lemma print_eq (text : string) (c : console) :
  print text c = (Done (), mkConsole (stdin c) (stdout c ++ [Line text])).
Proof. done. Qed.

Lemma ui_seq_writes {B : Type} (m : ui unit) (f : unit → ui B) (c : console)
    (w : list write) :
  m c = (Done (), mkConsole (stdin c) (stdout c ++ w)) →
  (m ≫= f) c = f () (mkConsole (stdin c) (stdout c ++ w)).
Proof. intros Hm. by rewrite ui_bind_unfold, Hm. Qed.

Lemma solve_with_algorithm_eq (fuel : nat) (self : GameUI) (algorithm : string)
    (c : console) (a : answer) :
  run_algorithm fuel self algorithm c = (Done (Some a), c) →
  (∀ sol, a.1.1 = Some sol → ∃ first rest, sol = first :: rest) →
  solve_with_algorithm fuel self algorithm c
  = (Done (),
     mkConsole (stdin c)
       (stdout c
        ++ [Line ("Total nodes visited: " +:+ pretty a.1.2)]
        ++ match a.1.1 with
           | Some sol =>
               Line ("Solution " +:+ pretty (length sol) +:+ " steps:")
               :: (sol ≫= board self)
           | None => [Line "No solution"]
           end
        ++ [Line (newline +:+ "Visited states :")]
        ++ (enumerate a.2 ≫= λ '(i, visited_state),
              Line ("State " +:+ pretty (i + 1) +:+ ":") :: board self visited_state))).
Proof.
  intros Hrun Hsol. unfold solve_with_algorithm. rewrite ui_bind_unfold, Hrun.
  destruct a as [[solution nodes_visited] visited_states]. cbn [fst snd] in *.
  rewrite (ui_seq_writes _ _ _ [Line ("Total nodes visited: " +:+ pretty nodes_visited)])
    by apply print_eq.
  set (found := match solution with
                | Some sol =>
                    Line ("Solution " +:+ pretty (length sol) +:+ " steps:")
                    :: (sol ≫= board self)
                | None => [Line "No solution"]
                end).
  rewrite (ui_seq_writes _ _ _ found).
  2:{ subst found. destruct solution as [sol|]; [|apply print_eq].
      destruct (Hsol sol eq_refl) as (first & rest & ->).
      rewrite (ui_seq_writes _ _ _ [Line ("Solution " +:+ pretty (length (first :: rest))
                                          +:+ " steps:")]) by apply print_eq.
      rewrite (ui_for_each_board self (board self)); [|intros; apply print_state_eq].
      cbn [stdin stdout]. by rewrite <- app_assoc. }
  cbn [stdin stdout].
  rewrite (ui_seq_writes _ _ _ [Line (newline +:+ "Visited states :")])
    by apply print_eq.
  rewrite (ui_for_each_board self
             (λ '(i, visited_state),
                Line ("State " +:+ pretty (i + 1) +:+ ":") :: board self visited_state)).
  - cbn [stdin stdout]. by rewrite <- !app_assoc.
  - intros [i st] c0.
    rewrite (ui_seq_writes _ _ _ [Line ("State " +:+ pretty (i + 1) +:+ ":")])
      by apply print_eq.
    rewrite print_state_eq. cbn [stdin stdout]. by rewrite <- app_assoc.
Qed.



(** ** The menu *)

Lemma run_eq (upper : string → string) (fuel : nat) (self : GameUI)
    (ins : list string) (out : list write) :
  run upper fuel self (mkConsole ins out)
  = match ins with
    | [] => (Fails EOFError, mkConsole [] (out ++ menu))
    | choice :: rest =>
        let c := mkConsole rest (out ++ menu) in
        if bool_decide (choice = "1") then play_manually upper fuel self c
        else if bool_decide (choice = "2")
        then (solve_with_algorithm fuel self "DFS";; mret self) c
        else if bool_decide (choice = "3")
        then (solve_with_algorithm fuel self "BFS";; mret self) c
        else if bool_decide (choice = "4")
        then (solve_with_algorithm fuel self "UCS";; mret self) c
        else (Done self, mkConsole rest (out ++ menu ++ [Line "Invalid!! "]))
    end.
Proof.
  unfold run.
  do 5 (rewrite (ui_seq_writes _ _ _ [Line _]) by apply print_eq;
        cbn [stdin stdout]).
  rewrite ui_bind_unfold. unfold input. cbn [stdin stdout].
  replace ((((((out ++ [Line "Choose:"]) ++ [Line "1. Play manually"])
                ++ [Line "2. DFS"]) ++ [Line "3. BFS"]) ++ [Line "4. UCS"])
            ++ [Prompt "Enter your choice: "])
    with (out ++ menu) by (unfold menu; by rewrite <- !app_assoc).
  destruct ins as [|choice rest]; [done|]. cbv zeta.
  repeat case_bool_decide; try done.
  rewrite (ui_seq_writes _ _ _ [Line "Invalid!! "]) by apply print_eq.
  cbn [stdin stdout]. by rewrite <- app_assoc.
Qed.

(** X19: [run] writes the menu and reads one line. On a game that pairs every
    player with a goal, the choices 2, 3 and 4 run a search to its end and
    write its report; a line that is none of 1, 2, 3, 4 is answered with
    "Invalid!! ". Either way [run] returns with the game as it was and the
    rest of the input unread. *)
Theorem run_reports (upper : string → string) (self : GameUI) :
  wf_game (game self) →
  ∃ n, ∀ fuel, n ≤ fuel → ∀ choice rest out,
    (choice ∈ ["2"; "3"; "4"] →
       ∃ report, run upper fuel self (mkConsole (choice :: rest) out)
                 = (Done self, mkConsole rest (out ++ menu ++ report))
         ∧ ∃ count, head report = Some (Line ("Total nodes visited: " +:+ count)))
    ∧ (choice ∉ ["1"; "2"; "3"; "4"] →
         run upper fuel self (mkConsole (choice :: rest) out)
         = (Done self, mkConsole rest (out ++ menu ++ [Line "Invalid!! "]))).
Proof.
  intros Hwf.
  destruct (dfs_terminates (game self) Hwf) as (ad & nd & _ & Hd).
  destruct (bfs_terminates (game self) Hwf) as (ab & nb & _ & Hb).
  destruct (ucs_terminates (game self) Hwf) as (au & nu & _ & Hu).
  exists (nd + nb + nu). intros fuel Hfuel choice rest out.
  specialize (Hd fuel ltac:(lia)). specialize (Hb fuel ltac:(lia)).
  specialize (Hu fuel ltac:(lia)). rewrite run_eq. cbv zeta. split.
  - intros Hchoice.
    assert (∀ algorithm a,
              (algorithm = "DFS" ∧ dfs fuel (game self) = Ret a)
              ∨ (algorithm = "BFS" ∧ bfs fuel (game self) = Ret a)
              ∨ (algorithm = "UCS" ∧ ucs fuel (game self) = Ret a) →
              ∃ report,
                (solve_with_algorithm fuel self algorithm;; mret self)
                  (mkConsole rest (out ++ menu))
                = (Done self, mkConsole rest (out ++ menu ++ report))
                ∧ ∃ count, head report
                           = Some (Line ("Total nodes visited: " +:+ count)))
      as Hsolve.
    { intros algorithm a Hcase.
      destruct (solve_with_algorithm_eq fuel self algorithm
                  (mkConsole rest (out ++ menu)) a) as [].
      - unfold run_algorithm.
        destruct Hcase as [[-> Hrun]|[[-> Hrun]|[-> Hrun]]]; simpl;
          rewrite ui_bind_unfold; unfold core; by rewrite Hrun.
      - intros sol Hsol. destruct a as [[o k] tr]. simpl in Hsol. subst o.
        destruct Hcase
          as [[_ [H _]%dfs_answer]|[[_ [H _]%bfs_answer]|[_ [H _]%ucs_answer]]];
          by eapply search_ok_nonempty.
      - eexists. rewrite ui_bind_unfold.
        rewrite (solve_with_algorithm_eq fuel self algorithm _ a).
        + cbn [stdin stdout]. rewrite <- app_assoc. split; [reflexivity|].
          simpl. eauto.
        + unfold run_algorithm.
          destruct Hcase as [[-> Hrun]|[[-> Hrun]|[-> Hrun]]]; simpl;
            rewrite ui_bind_unfold; unfold core; by rewrite Hrun.
        + intros sol Hsol. destruct a as [[o k] tr]. simpl in Hsol. subst o.
          destruct Hcase
            as [[_ [H _]%dfs_answer]|[[_ [H _]%bfs_answer]|[_ [H _]%ucs_answer]]];
            by eapply search_ok_nonempty. }
    repeat (apply elem_of_cons in Hchoice as [->|Hchoice]); simpl.
    + apply (Hsolve "DFS" ad). by left.
    + apply (Hsolve "BFS" ab). right; by left.
    + apply (Hsolve "UCS" au). right; by right.
    + by apply elem_of_nil in Hchoice.
  - intros Hother.
    rewrite !bool_decide_false; [done|..]; intros ->; apply Hother;
      first [by left | by (right; left) | by (right; right; left)
            | by (right; right; right; left)].
Qed.

Lemma run_reports_witness :
  ∃ n, ∀ fuel, n ≤ fuel → ∀ choice rest out,
    (choice ∈ ["2"; "3"; "4"] →
       ∃ report, run ascii_upper fuel (GameUI_init 15 15 main_board)
                   (mkConsole (choice :: rest) out)
                 = (Done (GameUI_init 15 15 main_board),
                    mkConsole rest (out ++ menu ++ report))
         ∧ ∃ count, head report = Some (Line ("Total nodes visited: " +:+ count)))
    ∧ (choice ∉ ["1"; "2"; "3"; "4"] →
         run ascii_upper fuel (GameUI_init 15 15 main_board)
           (mkConsole (choice :: rest) out)
         = (Done (GameUI_init 15 15 main_board),
            mkConsole rest (out ++ menu ++ [Line "Invalid!! "]))).
Proof.
  apply (run_reports ascii_upper (GameUI_init 15 15 main_board)).
  split; simpl; lia.
Defined.

(** The program, asked for bfs on the board it ships with. *)
Example main_bfs :
  ∃ c', main ascii_upper 17 (mkConsole ["3"] []) = (Done (GameUI_init 15 15 main_board), c')
    ∧ (stdout c') !! 6 = Some (Line "Total nodes visited: 17")
    ∧ (stdout c') !! 7 = Some (Line "Solution 5 steps:").
Proof. vm_compute. eexists. split; [reflexivity|]. done. Qed.

(** ** Players keep apart in manual play *)

Lemma NoDup_insert_new {A : Type} (l : list A) (i : nat) (x : A) :
  NoDup l → (∀ j, j ≠ i → l !! j ≠ Some x) → NoDup (<[i := x]> l).
Proof.
  intros Hnd Hnew. apply NoDup_alt. intros a b y Ha Hb.
  destruct (decide (a = i)) as [->|Hai], (decide (b = i)) as [->|Hbi]; [done|..].
  - apply list_lookup_insert_Some in Ha as [(_ & <- & _)|[? _]]; [|done].
    rewrite list_lookup_insert_ne in Hb by done. by destruct (Hnew b).
  - apply list_lookup_insert_Some in Hb as [(_ & <- & _)|[? _]]; [|done].
    rewrite list_lookup_insert_ne in Ha by done. by destruct (Hnew a).
  - rewrite list_lookup_insert_ne in Ha, Hb by done.
    by eapply NoDup_lookup.
Qed.

Lemma occupied_by_other_false (others : list Piece) (i : nat) (c : cell) :
  occupied_by_other 0 others i c = false →
  ∀ j, j ≠ i → (position <$> others) !! j ≠ Some c.
Proof.
  intros Hocc j Hj Hlook. apply list_lookup_fmap_Some in Hlook as (p & Hp & Hpj).
  assert (occupied_by_other 0 others i c = true) as Hyes; [|congruence].
  apply occupied_by_other_true. by exists j, p.
Qed.

Lemma first_mover_lands_free (self : Game) (r_row c_col : Z) (i : nat)
    (st s : GameState) :
  move_player self r_row c_col i (st, []) = Ret (s, [s]) →
  ∃ cur, players s = <[i := mkPiece cur]> (players st)
    ∧ is_valid_move self cur.1 cur.2 i = Ret true.
Proof.
  intros H. unfold move_player in H. inv_bind H as reached Hr.
  destruct reached; [by injection H|].
  inv_bind H as player Hp. inv_bind H as [cl1 cur] Hslide. unfold slide in Hslide.
  apply slide_loop_spec in Hslide as Hspec. destruct Hspec as (_ & _ & Hplayers & _).
  apply slide_loop_run in Hslide as (k & -> & Hval & _).
  case_bool_decide as Hmoved; [|by injection H].
  injection H as <-. exists (ahead (position player) r_row c_col k).
  split; [simpl; by rewrite Hplayers|]. apply Hval.
  destruct k; [by rewrite ahead_0 in Hmoved | lia].
Qed.

Lemma key_press_keeps_apart (self : GameUI) (r_row c_col : Z) (c : console)
    (self' : GameUI) (c' : console) :
  (r_row ≠ 0 ∨ c_col ≠ 0)%Z →
  NoDup (position <$> players (state (game self))) →
  key_press self r_row c_col c = (Done self', c') →
  NoDup (position <$> players (state (game self'))).
Proof.
  intros Hd Hnd H. rewrite key_press_eq in H.
  destruct (simulate_move _ _ _ _) as [[|s rest]| |] eqn:Hsim; try done.
  injection H as <- <-. simpl.
  unfold simulate_move, simulate_players in Hsim. inv_bind Hsim as [cl ns] Hrun.
  injection Hsim as ->.
  apply first_successor_upto in Hrun as (i & _ & Hfirst & _); [|done].
  apply first_mover_lands_free in Hfirst as (cur & -> & Hvalid).
  rewrite list_fmap_insert. simpl. apply NoDup_insert_new; [done|].
  apply is_valid_move_true in Hvalid as [_ Hocc].
  destruct cur as [x y]. by apply occupied_by_other_false.
Qed.

(** X23: Manual play never brings two players onto one cell: if the players
    of the game stand on different cells when play_manually starts, they
    do so when it returns. (A key press asks is_valid_move about the very
    state that it moves.) *)
Theorem manual_play_keeps_players_apart (upper : string → string) (fuel : nat)
    (self : GameUI) (c : console) (self' : GameUI) (c' : console) :
  NoDup (position <$> players (state (game self))) →
  play_manually upper fuel self c = (Done self', c') →
  NoDup (position <$> players (state (game self'))).
Proof.
  revert self c. induction fuel as [|fuel IH]; intros self [ins out] Hnd H; [done|].
  rewrite play_manually_S in H. cbv zeta in H.
  destruct ins as [|move more]; [done|].
  destruct (manual_direction (upper move)) as [[r_row c_col]|] eqn:Hdir.
  - apply manual_direction_nonzero in Hdir.
    rewrite ui_bind_unfold in H.
    destruct (key_press self r_row c_col _) as [[self1| |] c1] eqn:Hkey; try done.
    apply key_press_keeps_apart in Hkey; [|done..].
    destruct (is_won (game self1)).
    + rewrite ui_bind_unfold, print_state_eq in H. simpl in H. by injection H as <- _.
    + by eapply IH.
  - by eapply IH.
Qed.

Lemma manual_play_keeps_players_apart_witness :
  ∃ self' c',
    play_manually ascii_upper 3 (GameUI_init 2 3 two_rows_board)
      (mkConsole ["d"; "d"] []) = (Done self', c')
    ∧ NoDup (position <$> players (state (game self'))).
Proof.
  assert (∃ self' c',
            play_manually ascii_upper 3 (GameUI_init 2 3 two_rows_board)
              (mkConsole ["d"; "d"] []) = (Done self', c'))
    as (self' & c' & Hrun) by (vm_compute; eexists; eexists; reflexivity).
  exists self', c'. split; [exact Hrun|].
  apply (manual_play_keeps_players_apart ascii_upper 3 (GameUI_init 2 3 two_rows_board)
           (mkConsole ["d"; "d"] []) self' c'); [|exact Hrun].
  simpl. apply NoDup_cons. split; [|apply NoDup_singleton].
  intros Hin%list_elem_of_singleton. discriminate.
Defined.

(** In a search it is otherwise, because is_valid_move keeps asking the
    stored state (see C1): on [crossing_board] the moves right and up lead
    to a state with both players on (0, 2). *)
Example search_states_can_overlap :
  ∃ p s, walk (Game_init 3 3 crossing_board) p s
    ∧ position <$> players s = [(0, 2)%Z; (0, 2)%Z].
Proof.
  set (game := Game_init 3 3 crossing_board).
  set (s1 := mkGameState [] (bd_goals crossing_board)
               [mkPiece (0, 2)%Z; mkPiece (2, 2)%Z] [false; false]).
  set (s2 := mkGameState [] (bd_goals crossing_board)
               [mkPiece (0, 2)%Z; mkPiece (0, 2)%Z] [false; false]).
  exists ([] ++ [state game] ++ [s1]), s2. split; [|done].
  rewrite app_assoc. apply walk_step.
  - apply walk_step; [apply walk_start|].
    exists (0, 1)%Z, [s1]. split; [unfold moves; do 3 right; left|].
    split; [vm_compute; reflexivity | left].
  - exists (-1, 0)%Z, [s2]. split; [unfold moves; left|].
    split; [vm_compute; reflexivity | left].
Qed.
